(** * Monte Carlo portfolio projection: the simulator, its statistics
      estimator and its percentile summary.

    Shallow embedding of [src/pages/Projeção_de_Carteira.py].

    Numbers.  The program computes on Python floats.  They are embedded
    as exact rationals in canonical form ([Qc], Leibniz equality), so
    rounding, infinities and NaN payloads are outside the model; where
    pandas or numpy would answer NaN for want of data (mean of an empty
    series, percentile of an empty row) the model answers [None].

    Library functions with no rational counterpart are taken as
    parameters: [pow] for Python's [**] on floats and [sqrt] for the
    square root inside [Series.std].

    Randomness.  [np.random.normal(0, 1)] reads and advances the global
    generator.  The generator is embedded as a stream [normal : nat -> Qc]
    of draws together with the position of the next draw, threaded
    through the loops. *)

From Stdlib Require Import QArith Qcanon Qround ZArith Lia Lra Psatz.
From stdpp Require Import base list strings numbers sorting gmap fin_maps.

Local Open Scope Qc_scope.

(** ** Exceptions *)

Inductive exception :=
  | ValueError
  | IndexError
  | KeyError
  | OtherError (name : string).

Inductive result (A : Type) :=
  | Ok (a : A)
  | Raise (e : exception).
Arguments Ok {A} a.
Arguments Raise {A} e.

#[global] Instance result_ret : MRet result := fun A a => Ok a.
#[global] Instance result_bind : MBind result := fun A B k m =>
  match m with
  | Ok a => k a
  | Raise e => Raise e
  end.

Definition is_ok {A} (m : result A) : bool :=
  match m with
  | Ok _ => true
  | Raise _ => false
  end.

(** [for x in xs: body] over a state that the body may fail to update. *)
Fixpoint for_each {A S} (body : A -> S -> result S) (xs : list A) (s : S)
  : result S :=
  match xs with
  | [] => Ok s
  | x :: xs' => s' ← body x s; for_each body xs' s'
  end.

(** Python's [range(a, b)] for natural bounds. *)
Definition range (a b : nat) : list nat := seq a (b - a).

(** ** Two-dimensional arrays *)

Abbreviation matrix := (list (list Qc)).

(** [np.zeros((r, c))]: numpy refuses a negative dimension. *)
Definition np_zeros (r c : Z) : result matrix :=
  if ((r <? 0) || (c <? 0))%Z then Raise ValueError
  else Ok (replicate (Z.to_nat r) (replicate (Z.to_nat c) 0)).

(** [m[0] = v]: the scalar is broadcast over row 0. *)
Definition set_row0 (m : matrix) (v : Qc) : result matrix :=
  match m with
  | [] => Raise IndexError
  | row :: rest => Ok (replicate (length row) v :: rest)
  end.

(** [m[d, i] = v] for non-negative indices. *)
Definition set_item (m : matrix) (d i : nat) (v : Qc) : result matrix :=
  match m !! d with
  | None => Raise IndexError
  | Some row =>
      if decide (i < length row)%nat
      then Ok (<[d := <[i := v]> row]> m)
      else Raise IndexError
  end.

(** An [r] by [c] array. *)
Definition shape (r c : nat) (m : matrix) : Prop :=
  length m = r /\ forall d row, m !! d = Some row -> length row = c.

(** [m[d, i]] read back; [None] out of range. *)
Definition get_item (m : matrix) (d i : nat) : option Qc :=
  row ← m !! d; row !! i.

(** ** PathSimulator: [run_monte_carlo_simulation] *)

Record loop_state := LoopState {
  rng_pos : nat;
  all_paths : matrix;
  accumulated_dividends : matrix;
  current_value : Qc;
  current_dividends : Qc
}.

Section Simulator.

(** Python's float power [x ** y]. *)
Variable pow : Qc -> Qc -> Qc.
(** The draws of the global generator, in the order they are made. *)
Variable normal : nat -> Qc.

Variables initial_value drift volatility dividend_yield : Qc.
Variable years : Z.
Variable monthly_contribution : Qc.
Variable num_simulations : Z.
Variable reinvest_dividends : bool.

Definition num_days : Z := (years * 252)%Z.

(** Body of [for day in range(1, num_days + 1)] for simulation [i]. *)
Definition day_body (i day : nat) (s : loop_state) : result loop_state :=
  let random_shock := normal (rng_pos s) in
  let daily_return := drift + volatility * random_shock in
  let current_value := current_value s * (1 + daily_return) in
  let '(current_value, current_dividends) :=
    if (day mod 21 =? 0)%nat then
      let monthly_dividend_return :=
        pow (1 + dividend_yield) (1 / Qc_of_Z 12) - 1 in
      let dividends_this_month := current_value * monthly_dividend_return in
      let current_dividends := current_dividends s + dividends_this_month in
      let current_value := current_value + monthly_contribution in
      let current_value :=
        if reinvest_dividends then current_value + dividends_this_month
        else current_value in
      (current_value, current_dividends)
    else (current_value, current_dividends s) in
  paths ← set_item (all_paths s) day i current_value;
  divs ← set_item (accumulated_dividends s) day i current_dividends;
  Ok {| rng_pos := S (rng_pos s);
        all_paths := paths;
        accumulated_dividends := divs;
        current_value := current_value;
        current_dividends := current_dividends |}.

(** Body of [for i in range(num_simulations)]. *)
Definition sim_body (i : nat) (s : loop_state) : result loop_state :=
  let s := {| rng_pos := rng_pos s;
              all_paths := all_paths s;
              accumulated_dividends := accumulated_dividends s;
              current_value := initial_value;
              current_dividends := 0 |} in
  for_each (day_body i) (range 1 (Z.to_nat num_days + 1)) s.

(** The whole function, from generator position [rng0]; the final
    state is kept so that the generator's position can be observed. *)
Definition run_monte_carlo_simulation_state (rng0 : nat)
  : result loop_state :=
  all_paths ← np_zeros (num_days + 1) num_simulations;
  all_paths ← set_row0 all_paths initial_value;
  accumulated_dividends ← np_zeros (num_days + 1) num_simulations;
  for_each sim_body (range 0 (Z.to_nat num_simulations))
    {| rng_pos := rng0;
       all_paths := all_paths;
       accumulated_dividends := accumulated_dividends;
       current_value := initial_value;
       current_dividends := 0 |}.

(** What Python returns: [(all_paths, accumulated_dividends)]. *)
Definition run_monte_carlo_simulation (rng0 : nat)
  : result (matrix * matrix) :=
  s ← run_monte_carlo_simulation_state rng0;
  Ok (all_paths s, accumulated_dividends s).

End Simulator.

(** ** The path of one simulation as a recurrence

    [day_update] is one trading day seen as a function of the running
    value and cumulative dividends; [walk base d] is the pair after day
    [d] of the simulation whose first draw is at position [base]. *)

Section Recurrence.

Variable pow : Qc -> Qc -> Qc.
Variable normal : nat -> Qc.
Variables initial_value drift volatility dividend_yield : Qc.
Variable monthly_contribution : Qc.
Variable reinvest_dividends : bool.

Definition monthly_rate : Qc :=
  pow (1 + dividend_yield) (1 / Qc_of_Z 12) - 1.

Definition day_update (day : nat) (z : Qc) (vd : Qc * Qc) : Qc * Qc :=
  let v := vd.1 * (1 + (drift + volatility * z)) in
  if (day mod 21 =? 0)%nat then
    (if reinvest_dividends
     then v + monthly_contribution + v * monthly_rate
     else v + monthly_contribution,
     vd.2 + v * monthly_rate)
  else (v, vd.2).

Fixpoint walk (base d : nat) : Qc * Qc :=
  match d with
  | O => (initial_value, 0)
  | S d' => day_update (S d') (normal (base + d')) (walk base d')
  end.

(** State of the day loop of simulation [i] after days [1..n], started
    in [s0]: what has been written, and what has been left alone. *)
Definition days_done (r c i n : nat) (s0 s : loop_state) : Prop :=
  shape r c (all_paths s) /\
  shape r c (accumulated_dividends s) /\
  rng_pos s = (rng_pos s0 + n)%nat /\
  (current_value s, current_dividends s) = walk (rng_pos s0) n /\
  (forall d, (1 <= d <= n)%nat ->
     get_item (all_paths s) d i = Some (walk (rng_pos s0) d).1 /\
     get_item (accumulated_dividends s) d i
       = Some (walk (rng_pos s0) d).2) /\
  (forall d j, (j <> i \/ d = 0 \/ n < d)%nat ->
     get_item (all_paths s) d j = get_item (all_paths s0) d j /\
     get_item (accumulated_dividends s) d j
       = get_item (accumulated_dividends s0) d j).

(** State of the simulation loop after simulations [0..k-1]. *)
Definition sims_done (nd c k : nat) (s0 s : loop_state) : Prop :=
  shape (nd + 1) c (all_paths s) /\
  shape (nd + 1) c (accumulated_dividends s) /\
  rng_pos s = (rng_pos s0 + k * nd)%nat /\
  (forall i d, (i < k)%nat -> (1 <= d <= nd)%nat ->
     get_item (all_paths s) d i
       = Some (walk (rng_pos s0 + i * nd) d).1 /\
     get_item (accumulated_dividends s) d i
       = Some (walk (rng_pos s0 + i * nd) d).2) /\
  (forall d j, (k <= j \/ d = 0)%nat ->
     get_item (all_paths s) d j = get_item (all_paths s0) d j /\
     get_item (accumulated_dividends s) d j
       = get_item (accumulated_dividends s0) d j).

End Recurrence.

(** ** OutcomeSummarizer: numpy reductions *)

(** [[f(x) for x in xs]] where [f] may raise. *)
Fixpoint map_result {A B} (f : A -> result B) (xs : list A)
  : result (list B) :=
  match xs with
  | [] => Ok []
  | x :: xs' => y ← f x; ys ← map_result f xs'; Ok (y :: ys)
  end.

(** numpy's [_lerp]: the point at fraction [t] between [a] and [b]. *)
Definition lerp (a b t : Qc) : Qc := a + (b - a) * t.

(** numpy's linear quantile on sorted data [arr]: the virtual index is
    split into its floor and its fractional part [gamma], and the result
    interpolates between the two neighbouring order statistics, the upper
    neighbour clipped to the last one.  [x0] stands for reads that
    cannot happen. *)
Definition linear_quantile (arr : list Qc) (x0 : Qc) (virtual_index : Qc)
  : Qc :=
  let n := length arr in
  let previous := Z.to_nat (Qfloor virtual_index) in
  let next := Nat.min (previous + 1) (n - 1) in
  let gamma := virtual_index - Qc_of_Z (Qfloor virtual_index) in
  let lower := nth previous arr x0 in
  let upper := nth next arr x0 in
  lerp lower upper gamma.

(** [np.percentile(a, q)] on a one-dimensional array, default method
    ("linear"), with virtual index [(n - 1) * (q / 100)] into the sorted
    data.  numpy refuses [q] outside [0, 100] and answers NaN on empty
    data. *)
Definition np_percentile (a : list Qc) (q : Qc) : result (option Qc) :=
  if decide (0 <= q /\ q <= Qc_of_Z 100) then
    let arr := merge_sort Qcle a in
    match arr with
    | [] => Ok None
    | x0 :: _ =>
        let n := length arr in
        Ok (Some (linear_quantile arr x0
                    (Qc_of_Z (Z.of_nat (n - 1)) * (q / Qc_of_Z 100))))
    end
  else Raise ValueError.

(** [np.percentile(m, q, axis=1)]: one percentile per row (per day). *)
Definition np_percentile_axis1 (m : matrix) (q : Qc)
  : result (list (option Qc)) :=
  map_result (fun row => np_percentile row q) m.

(** Sum of an array or of a column. *)
Definition sum_list (a : list Qc) : Qc := foldr Qcplus 0 a.

(** [np.mean(a)], [Series.mean()]; NaN on empty data. *)
Definition np_mean (a : list Qc) : option Qc :=
  match a with
  | [] => None
  | _ => Some (sum_list a / Qc_of_Z (Z.of_nat (length a)))
  end.

(** [m[-1]]: the last row. *)
Definition last_row (m : matrix) : result (list Qc) :=
  match last m with
  | Some row => Ok row
  | None => Raise IndexError
  end.

(** ** The simulation page: what the button handler computes *)

(** The sidebar widgets: a slider over 1..30, a number input with no
    bounds, a select slider over 100, 500, 1000, 5000, 10000, a checkbox. *)
Record sidebar := Sidebar {
  projection_years_option : Z;
  monthly_contribution_option : Qc;
  num_simulations_option : Z;
  reinvest_dividends_option : bool
}.

Record report := Report {
  p10 : option Qc;
  p50 : option Qc;
  p90 : option Qc;
  avg_total_dividends : option Qc;
  avg_annual_dividends : option Qc;
  avg_monthly_dividends : option Qc;
  p10_path : list (option Qc);
  p50_path : list (option Qc);
  p90_path : list (option Qc)
}.

(** What the page shows: the [st.error] message, or the ensemble with
    the figures derived from it. *)
Inductive page :=
  | PageError (message : string)
  | PageResults (initial_value : Qc) (simulation_paths dividend_paths : matrix)
      (summary : report).

Definition no_initial_value_message : string :=
  "Não foi possível calcular o valor inicial da sua carteira. Verifique os tickers.".

(** Body of [if st.sidebar.button(...)], from the tuple returned by
    [get_portfolio_stats] on; the result carries the position of the
    generator afterwards. *)
Definition simulation_button (pow : Qc -> Qc -> Qc) (normal : nat -> Qc)
    (stats : Qc * Qc * Qc * Qc) (ui : sidebar) (rng0 : nat)
  : result (page * nat) :=
  let '(initial_value, drift, volatility, dividend_yield) := stats in
  if decide (initial_value = 0) then
    Ok (PageError no_initial_value_message, rng0)
  else
    s ← run_monte_carlo_simulation_state pow normal initial_value drift
          volatility dividend_yield (projection_years_option ui)
          (monthly_contribution_option ui) (num_simulations_option ui)
          (reinvest_dividends_option ui) rng0;
    let simulation_paths := all_paths s in
    let dividend_paths := accumulated_dividends s in
    final_results ← last_row simulation_paths;
    final_dividends ← last_row dividend_paths;
    p10 ← np_percentile final_results (Qc_of_Z 10);
    p50 ← np_percentile final_results (Qc_of_Z 50);
    p90 ← np_percentile final_results (Qc_of_Z 90);
    let avg_total_dividends := np_mean final_dividends in
    let avg_annual_dividends :=
      (fun x => x / Qc_of_Z (projection_years_option ui))
        <$> avg_total_dividends in
    let avg_monthly_dividends :=
      (fun x => x / Qc_of_Z 12) <$> avg_annual_dividends in
    p10_path ← np_percentile_axis1 simulation_paths (Qc_of_Z 10);
    p50_path ← np_percentile_axis1 simulation_paths (Qc_of_Z 50);
    p90_path ← np_percentile_axis1 simulation_paths (Qc_of_Z 90);
    Ok (PageResults initial_value simulation_paths dividend_paths
          {| p10 := p10; p50 := p50; p90 := p90;
             avg_total_dividends := avg_total_dividends;
             avg_annual_dividends := avg_annual_dividends;
             avg_monthly_dividends := avg_monthly_dividends;
             p10_path := p10_path; p50_path := p50_path;
             p90_path := p90_path |},
        rng_pos s).

(** ** StatisticsEstimator: pandas values

    A [Series] of floats is a finite map from labels to values in which
    a missing label and a NaN cell are both absent: every reader the
    program uses ([get] followed by [dropna], [dropna], the skipping
    [sum]) treats them alike.  A [DataFrame] of prices is its column
    labels and one such row per trading day. *)

Abbreviation series := (gmap string Qc).

Record frame := Frame {
  columns : list string;
  rows : list series
}.

(** [df.empty]: no column or no row. *)
Definition frame_empty (df : frame) : bool :=
  match columns df, rows df with
  | [], _ | _, [] => true
  | _, _ => false
  end.

(** [df.ffill()]: a missing price is replaced by the last one seen in
    its column, if there is one. *)
Fixpoint ffill_from (prev : series) (rs : list series) : list series :=
  match rs with
  | [] => []
  | row :: rest => let filled := row ∪ prev in filled :: ffill_from filled rest
  end.

Definition ffill (df : frame) : frame :=
  Frame (columns df) (ffill_from ∅ (rows df)).

(** The prices [pct_change] divides: pandas before 3.0 pads the missing
    ones first ([fill_method='pad'], its default there), pandas 3.0 does
    not. *)
Definition prices_seen (pad : bool) (df : frame) : frame :=
  if pad then ffill df else df.

(** Row [t] of [data / data.shift(1) - 1]: the change from row [t - 1],
    cell by cell, nothing for row 0. *)
Definition change_row (R : list series) (t : nat) : series :=
  intersection_with (fun c p => Some (c / p - 1))
    (default ∅ (R !! t))
    (match t with
     | O => ∅
     | S t' => default ∅ (R !! t')
     end).

(** [df.pct_change()]: [data / data.shift(1) - 1] on the prices seen. *)
Definition pct_change (pad : bool) (df : frame) : frame :=
  let data := prices_seen pad df in
  let change (cur prev : series) : series :=
    intersection_with (fun c p => Some (c / p - 1)) cur prev in
  Frame (columns data) (zip_with change (rows data) (∅ :: rows data)).

(** [df.dropna()]: the rows with a value under every column. *)
Definition dropna (df : frame) : frame :=
  Frame (columns df)
    (filter (fun row => forallb (fun c => bool_decide (is_Some (row !! c)))
                          (columns df) = true)
            (rows df)).

(** [(df * w).sum(axis=1)]: the columns of [df] and the labels of [w] are
    aligned, a label on one side only gives NaN, and the row sums skip
    NaN. *)
Definition mul_sum_axis1 (df : frame) (w : series) : list Qc :=
  map (fun row =>
         map_fold (fun _ x acc => x + acc) 0
           (intersection_with (fun r wi => Some (r * wi)) row w))
      (rows df).

(** [Series.std()]: sample standard deviation (one degree of freedom
    removed); NaN below two observations. *)
Definition series_std (sqrt : Qc -> Qc) (a : list Qc) : option Qc :=
  match a with
  | [] | [_] => None
  | _ =>
      let n := Qc_of_Z (Z.of_nat (length a)) in
      let m := sum_list a / n in
      Some (sqrt (sum_list (map (fun x => (x - m) * (x - m)) a) / (n - 1)))
  end.

(** [s.replace(old, '')] for a non-empty [old]: the occurrences of [old]
    are removed from left to right, without overlap.  [skip] counts the
    characters of a match still to be dropped. *)
Fixpoint str_remove_from (old : string) (skip : nat) (s : string) : string :=
  match s with
  | EmptyString => EmptyString
  | String c s' =>
      match skip with
      | S k => str_remove_from old k s'
      | O =>
          if String.prefix old s
          then str_remove_from old (String.length old - 1) s'
          else String c (str_remove_from old 0 s')
      end
  end.

Definition str_remove (old s : string) : string :=
  match old with
  | EmptyString => s
  | _ => str_remove_from old 0 s
  end.

(** ** StatisticsEstimator: [get_portfolio_stats] *)

(** A row of the portfolio file. *)
Record holding := Holding {
  Ativo : string;
  Quantidade : Qc;
  Preco_Medio : Qc
}.

(** A row of [p_df] once the function has added its columns. *)
Record valued := Valued {
  asset : holding;
  Preco_Atual : Qc;
  Valor_Atual : Qc;
  Peso : Qc
}.

Section Estimator.

(** The square root inside [Series.std]. *)
Variable sqrt : Qc -> Qc.
(** Whether the installed pandas pads prices in [pct_change]. *)
Variable pad : bool.
(** [yf.download(tickers, ...)['Close']]. *)
Variable yf_download : list string -> frame.
(** [yf.Ticker(t).info] followed by its ['dividendYield'] entry: the
    exception raised by the lookup, or the entry if there is one. *)
Variable yf_info : string -> result (option Qc).

Definition tickers_of (p_df : list holding) : list string :=
  map (fun h => Ativo h +:+ ".SA") p_df.

(** [p_df] after ['Preco Atual'] is looked up in the last row of the
    history and the rows without one are dropped: each remaining
    holding with its price. *)
Definition with_price (latest_prices : series) (p_df : list holding)
  : list (holding * Qc) :=
  omap (fun h => price ← latest_prices !! (Ativo h +:+ ".SA");
                 Some (h, price)) p_df.

(** [p_df['Valor Atual'].sum()]. *)
Definition total_value (priced : list (holding * Qc)) : Qc :=
  sum_list (map (fun hp => Quantidade hp.1 * hp.2) priced).

(** [p_df] with ['Valor Atual'] and ['Peso']. *)
Definition with_weights (priced : list (holding * Qc)) : list valued :=
  let initial_value := total_value priced in
  map (fun hp =>
         let valor := Quantidade hp.1 * hp.2 in
         Valued hp.1 hp.2 valor (valor / initial_value))
      priced.

(** The [weights] series, indexed by ticker.  A map holds one weight per
    label: this is the Series when the tickers of the portfolio are
    distinct.  pandas keeps a repeated label on both rows, and what the
    product of line 38 then does with them is not modelled. *)
Definition weights_of (p_df : list valued) : series :=
  list_to_map (map (fun v => (Ativo (asset v) +:+ ".SA", Peso v)) p_df).

(** [(hist_data.pct_change().dropna() * weights).sum(axis=1)]. *)
Definition portfolio_daily_returns (hist_data : frame) (weights : series)
  : list Qc :=
  mul_sum_axis1 (dropna (pct_change pad hist_data)) weights.

(** [p_df.loc[p_df['Ativo'] == ativo, 'Peso'].iloc[0]]. *)
Definition peso_of (p_df : list valued) (ativo : string) : result Qc :=
  match filter (fun v => Ativo (asset v) = ativo) p_df with
  | v :: _ => Ok (Peso v)
  | [] => Raise IndexError
  end.

(** The [try] block of the yield loop: what is added for one ticker. *)
Definition yield_term (p_df : list valued) (ticker_sa : string)
  : result Qc :=
  info ← yf_info ticker_sa;
  let dy := default 0 info in
  let dy := if decide (1 < dy) then dy / Qc_of_Z 100 else dy in
  let ativo := str_remove ".SA" ticker_sa in
  peso_ativo ← peso_of p_df ativo;
  Ok (dy * peso_ativo).

(** One turn of [for ticker_sa in tickers_sa], with its [except
    (KeyError, IndexError): continue]. *)
Definition yield_body (p_df : list valued) (ticker_sa : string)
    (total_yield : Qc) : result Qc :=
  match yield_term p_df ticker_sa with
  | Ok term => Ok (total_yield + term)
  | Raise KeyError | Raise IndexError => Ok total_yield
  | Raise e => Raise e
  end.

Definition get_portfolio_stats (p_df : list holding)
  : result (Qc * option Qc * option Qc * Qc) :=
  match p_df with
  | [] => Ok (0, Some 0, Some 0, 0)
  | _ =>
      let tickers_sa := tickers_of p_df in
      let hist_data := yf_download tickers_sa in
      if frame_empty hist_data then Ok (0, Some 0, Some 0, 0)
      else
        let latest_prices := default ∅ (last (rows hist_data)) in
        let priced := with_price latest_prices p_df in
        let initial_value := total_value priced in
        if decide (initial_value = 0) then Ok (0, Some 0, Some 0, 0)
        else
          let p_df := with_weights priced in
          let weights := weights_of p_df in
          let returns := portfolio_daily_returns hist_data weights in
          let drift := np_mean returns in
          let volatility := series_std sqrt returns in
          total_yield ← for_each (yield_body p_df) tickers_sa 0;
          Ok (initial_value, drift, volatility, total_yield)
  end.

End Estimator.

(** ** The portfolio-level return series, in the words of the
       specification

    These definitions follow the specification, day by day and holding
    by holding; they are compared with [portfolio_daily_returns], which
    follows the pandas expression of the source. *)

(** Closing price of the column [label] on trading day [t]. *)
Definition price_on (hist_data : frame) (label : string) (t : nat)
  : option Qc :=
  row ← rows hist_data !! t; row !! label.

(** Simple daily return [price[t] / price[t-1] - 1]; there is none on day
    0 or when one of the two prices is missing. *)
Definition simple_return (hist_data : frame) (label : string) (t : nat)
  : option Qc :=
  match t with
  | O => None
  | S t' =>
      cur ← price_on hist_data label t;
      prev ← price_on hist_data label t';
      Some (cur / prev - 1)
  end.

(** The trading days on which every column of the history has a return. *)
Definition return_days (hist_data : frame) : list nat :=
  filter (fun t => Forall (fun c => is_Some (simple_return hist_data c t))
                     (columns hist_data))
         (seq 1 (length (rows hist_data) - 1)).

(** The weight-blended sum of the holdings' simple returns on day [t]. *)
Definition blended_return (hist_data : frame) (p_df : list valued) (t : nat)
  : Qc :=
  sum_list
    (map (fun v =>
            Peso v
            * default 0 (simple_return hist_data (Ativo (asset v) +:+ ".SA") t))
         p_df).

Definition portfolio_level_returns (hist_data : frame) (p_df : list valued)
  : list Qc :=
  map (blended_return hist_data p_df) (return_days hist_data).

(** The alternative the specification rules out: the volatility of each
    holding's own return series, averaged with the weights. *)
Definition holding_returns (hist_data : frame) (label : string) : list Qc :=
  omap (simple_return hist_data label)
    (seq 1 (length (rows hist_data) - 1)).

Definition weight_averaged_volatility (sqrt : Qc -> Qc) (hist_data : frame)
    (p_df : list valued) : Qc :=
  sum_list
    (map (fun v =>
            Peso v
            * default 0 (series_std sqrt
                           (holding_returns hist_data
                              (Ativo (asset v) +:+ ".SA"))))
         p_df).

(** ** Concrete instances used to run the model

    [linear_pow] is the first-order expansion of [x ** y] around
    [x = 1]; like the float power it is exact at base 1.  [sample_draws]
    is a fixed stream of shocks in [-3/2, 3/2]. *)

Definition linear_pow (x y : Qc) : Qc := 1 + y * (x - 1).

Definition sample_draws (k : nat) : Qc :=
  (Qc_of_Z (Z.of_nat (k mod 7)) - Qc_of_Z 3) / Qc_of_Z 2.

(** Square root of a fraction taken on numerator and denominator, each
    rounded down: exact on squares of rationals. *)
Definition floor_sqrt (x : Qc) : Qc :=
  Q2Qc (Z.sqrt (Qnum x) # Pos.sqrt (Qden x)).

(** A three-asset portfolio, a four-day price history in which one of
    the assets has no quotes, and yield lookups of the three kinds: a
    percentage, a fraction and a failure. *)
Definition sample_portfolio : list holding :=
  [ Holding "PETR4" (Qc_of_Z 3) (Qc_of_Z 25);
    Holding "VALE3" (Qc_of_Z 7) (Qc_of_Z 60);
    Holding "XPTO11" (Qc_of_Z 5) (Qc_of_Z 10) ].

Definition sample_prices (petr4 vale3 : Z) : series :=
  {[ "PETR4.SA" := Qc_of_Z petr4; "VALE3.SA" := Qc_of_Z vale3 ]}.

Definition sample_history (tickers : list string) : frame :=
  Frame ["PETR4.SA"; "VALE3.SA"]
    [ sample_prices 100 100; sample_prices 110 90;
      sample_prices 99 99; sample_prices 100 100 ].

Definition sample_info (ticker_sa : string) : result (option Qc) :=
  if decide (ticker_sa = "PETR4.SA") then Ok (Some (Qc_of_Z 8))
  else if decide (ticker_sa = "VALE3.SA") then Ok (Some (1 / Qc_of_Z 20))
  else Raise KeyError.

(** Two assets held in equal value whose returns mirror each other. *)
Definition hedged_portfolio : list holding :=
  [ Holding "PETR4" (Qc_of_Z 1) (Qc_of_Z 25);
    Holding "VALE3" (Qc_of_Z 1) (Qc_of_Z 60) ].

Definition hedged_history (tickers : list string) : frame :=
  Frame ["PETR4.SA"; "VALE3.SA"]
    [ sample_prices 100 100; sample_prices 110 90; sample_prices 99 99 ].

From Stdlib Require Import Ascii.

(** ** Further concrete instances *)

(** A stream that agrees with [sample_draws] on positions 252..503 (the
    window of simulation 1 in a one-year run started at position 0) and
    is zero elsewhere. *)
Definition windowed_draws (k : nat) : Qc :=
  if ((252 <=? k) && (k <? 504))%nat then sample_draws k else 0.

(** ** Tickers *)

(** Whether a ticker contains a full stop.  B3 tickers (PETR4, VALE3,
    HGLG11) are letters and digits and contain none. *)
Fixpoint has_dot (s : string) : bool :=
  match s with
  | EmptyString => false
  | String c s' => Ascii.eqb c "."%char || has_dot s'
  end.

(** The yield the estimator weights for one ticker: the fetched entry,
    read as a percentage when above 1; nothing when the lookup fails. *)
Definition normalised_yield (lookup : result (option Qc)) : Qc :=
  match lookup with
  | Ok info =>
      let fetched := default 0 info in
      if decide (1 < fetched) then fetched / Qc_of_Z 100 else fetched
  | Raise _ => 0
  end.

(** A portfolio whose only asset has no quotes in [sample_history]. *)
Definition unquoted_portfolio : list holding :=
  [ Holding "XPTO11" (Qc_of_Z 5) (Qc_of_Z 10) ].

(** ** The portfolio page: [src/Tela_Principal.py]

    The sidebar edits the portfolio that the other pages load.  The
    portfolio is the list of the rows of the file, in order. *)

(** The form "Adicionar Ativo" on submission.  [ticker_input] is the text
    typed, already upper-cased; an empty ticker, a zero quantity or a zero
    price is falsy and the form then does nothing.  A ticker already in
    the column ['Ativo'] has its quantity and price overwritten on every
    row that carries it; a new one is appended as a last row. *)
Definition add_asset_form (add_button : bool) (ticker_input : string)
    (quantity_input price_input : Qc) (portfolio : list holding)
  : list holding :=
  if add_button && bool_decide (ticker_input <> "")
     && bool_decide (quantity_input <> 0) && bool_decide (price_input <> 0)
  then
    if bool_decide (ticker_input ∈ map Ativo portfolio) then
      map (fun h => if decide (Ativo h = ticker_input)
                    then Holding (Ativo h) quantity_input price_input
                    else h)
          portfolio
    else portfolio ++ [Holding ticker_input quantity_input price_input]
  else portfolio.

(** The button "Remover Ativo":
    [portfolio[portfolio['Ativo'] != asset_to_remove]]. *)
Definition remove_asset (asset_to_remove : string) (portfolio : list holding)
  : list holding :=
  filter (fun h => Ativo h <> asset_to_remove) portfolio.

(** ** The fixed-income page: [src/pages/Renda_Fixa.py] *)

Section FixedIncome.

Variable pow : Qc -> Qc -> Qc.

(** The monthly rate of [calculate_cdi_return]: the twelfth root of the
    yearly growth factor, less one, or [-1] when the factor is not
    positive. *)
Definition cdi_monthly_rate (cdi_rate_percent investment_yield_percent : Qc)
  : Qc :=
  let cdi_rate := cdi_rate_percent / Qc_of_Z 100 in
  let investment_yield := investment_yield_percent / Qc_of_Z 100 in
  let effective_annual_rate := cdi_rate * investment_yield in
  if decide (0 < 1 + effective_annual_rate)
  then pow (1 + effective_annual_rate) (1 / Qc_of_Z 12) - 1
  else - (1).

(** One turn of the loop over the months; the state is
    [(value_history, current_value)]. *)
Definition month_body (monthly_rate : Qc) (s : list Qc * Qc) (month : nat)
  : list Qc * Qc :=
  let current_value := s.2 * (1 + monthly_rate) in
  (s.1 ++ [current_value], current_value).

(** [calculate_cdi_return]; the result is
    [(final_value, total_interest, value_history)].  [range] of a negative
    number of months is empty; [value_history[-1]] raises on an empty
    list. *)
Definition calculate_cdi_return (initial_value : Qc) (period_months : Z)
    (cdi_rate_percent investment_yield_percent : Qc)
  : result (Qc * Qc * list Qc) :=
  let monthly_rate :=
    cdi_monthly_rate cdi_rate_percent investment_yield_percent in
  let s := foldl (month_body monthly_rate) ([initial_value], initial_value)
                 (range 0 (Z.to_nat period_months)) in
  let value_history := s.1 in
  final_value ← match last value_history with
                | Some v => Ok v
                | None => Raise IndexError
                end;
  let total_interest := final_value - initial_value in
  Ok (final_value, total_interest, value_history).

End FixedIncome.

(** ** The dividends page: [src/pages/Dividendos.py] *)

(** [s.endswith(suffix)]. *)
Definition endswith (s suffix : string) : bool :=
  (String.length suffix <=? String.length s)%nat &&
  bool_decide (String.substring (String.length s - String.length suffix)
                         (String.length suffix) s = suffix).

(** What the page reads of one ticker's data: [info.get('dividendRate')],
    [dividends_hist.last('365d').sum()] and [info.get('dividendYield')];
    an entry that is missing or [None] is [None]. *)
Record dividend_info := DividendInfo {
  dividendRate : option Qc;
  trailing_dividends : Qc;
  dividendYield : option Qc
}.

(** A row of [div_df]. *)
Record dividend_row := DividendRow {
  div_Ativo : string;
  Projecao_Anual : Qc;
  Yield_on_Cost : Qc;
  Dividend_Yield : Qc
}.

Section Dividends.

(** The data service, by ticker; a failure is not caught by the page. *)
Variable yf_ticker : string -> result dividend_info.

Definition get_advanced_dividend_info (ticker_symbol : string)
  : result dividend_info :=
  let ticker_symbol :=
    if endswith ticker_symbol ".SA" then ticker_symbol
    else ticker_symbol +:+ ".SA" in
  yf_ticker ticker_symbol.

(** One turn of [for index, row in portfolio_df.iterrows()]. *)
Definition dividend_row_of (row : holding) : result dividend_row :=
  let ticker := Ativo row in
  let quantity := Quantidade row in
  let avg_price := Preco_Medio row in
  fetched ← get_advanced_dividend_info ticker;
  let annual_projection :=
    match dividendRate fetched with
    | Some forward_annual_dividend_rate =>
        if decide (forward_annual_dividend_rate = 0)
        then trailing_dividends fetched * quantity
        else forward_annual_dividend_rate * quantity
    | None => trailing_dividends fetched * quantity
    end in
  let current_yield := default 0 (dividendYield fetched) in
  let current_yield :=
    if decide (1 < current_yield) then current_yield / Qc_of_Z 100
    else current_yield in
  let cost_basis := quantity * avg_price in
  let yield_on_cost :=
    if decide (0 < cost_basis) then annual_projection / cost_basis else 0 in
  Ok (DividendRow ticker annual_projection yield_on_cost current_yield).

Definition dividend_data (portfolio_df : list holding)
  : result (list dividend_row) :=
  map_result dividend_row_of portfolio_df.

End Dividends.

Definition total_projected_dividends (div_df : list dividend_row) : Qc :=
  sum_list (map Projecao_Anual div_df).

Definition custo_total (h : holding) : Qc := Quantidade h * Preco_Medio h.

Definition total_invested (portfolio_df : list holding) : Qc :=
  sum_list (map custo_total portfolio_df).

Definition overall_yoc (div_df : list dividend_row)
    (portfolio_df : list holding) : Qc :=
  if decide (0 < total_invested portfolio_df)
  then total_projected_dividends div_df / total_invested portfolio_df
  else 0.

(** [portfolio_df.merge(div_df[['Ativo', 'Dividend Yield (Atual)']],
    on='Ativo')]: an inner join, every row of the portfolio with the yield
    of every row of [div_df] that has its ticker. *)
Definition merge_on_Ativo (portfolio_df : list holding)
    (div_df : list dividend_row) : list (holding * Qc) :=
  h ← portfolio_df;
  d ← filter (fun d => div_Ativo d = Ativo h) div_df;
  [(h, Dividend_Yield d)].

Definition weighted_dy (div_df : list dividend_row)
    (portfolio_df : list holding) : Qc :=
  let temp_portfolio := merge_on_Ativo portfolio_df div_df in
  if decide (0 < total_invested portfolio_df)
  then sum_list (map (fun r => r.2 * custo_total r.1) temp_portfolio)
       / total_invested portfolio_df
  else 0.

(** A data service for the dividends page. *)
Definition sample_dividends (ticker_sa : string) : result dividend_info :=
  if decide (ticker_sa = "PETR4.SA")
  then Ok (DividendInfo (Some (Qc_of_Z 3)) (Qc_of_Z 2) (Some (Qc_of_Z 8)))
  else if decide (ticker_sa = "VALE3.SA")
  then Ok (DividendInfo None (Qc_of_Z 6) (Some (1 / Qc_of_Z 20)))
  else Ok (DividendInfo (Some 0) (Qc_of_Z 1) None).

(** ** The history page: [src/pages/Análise_Historico_Risco.py] *)

(** [Series.cumprod()]. *)
Fixpoint cumprod_from (acc : Qc) (a : list Qc) : list Qc :=
  match a with
  | [] => []
  | x :: a' => acc * x :: cumprod_from (acc * x) a'
  end.

Definition cumprod (a : list Qc) : list Qc :=
  match a with
  | [] => []
  | x :: a' => x :: cumprod_from x a'
  end.

(** [desempenho_acumulado]: the running product of [1 + df_comparativo],
    divided by its first row.  [df_comparativo] is given by its rows,
    each the pair of the columns ['Carteira'] and ['IBOV']; [iloc[0]]
    raises on a frame without rows. *)
Definition desempenho_acumulado (df_comparativo : list (Qc * Qc))
  : result (list (Qc * Qc)) :=
  let carteira := cumprod (map (fun r => 1 + r.1) df_comparativo) in
  let ibov := cumprod (map (fun r => 1 + r.2) df_comparativo) in
  match carteira, ibov with
  | c0 :: _, i0 :: _ =>
      Ok (zip_with (fun c i => (c / c0, i / i0)) carteira ibov)
  | _, _ => Raise IndexError
  end.
(** * Proofs *)

(** ** Arrays: the effect of one assignment *)

Lemma bind_Ok {A B} (m : result A) (k : A -> result B) (b : B) :
  (m ≫= k) = Ok b -> exists a, m = Ok a /\ k a = Ok b.
Proof. destruct m as [a|e]; simpl; [eauto | discriminate]. Qed.

Lemma for_each_app {A S} (body : A -> S -> result S) xs ys s :
  for_each body (xs ++ ys) s = (for_each body xs s ≫= for_each body ys).
Proof.
  revert s. induction xs as [|x xs IH]; intros s; simpl; [reflexivity|].
  destruct (body x s) as [s'|e]; simpl; [apply IH | reflexivity].
Qed.

Lemma range_snoc a n : range a (a + S n) = range a (a + n) ++ [(a + n)%nat].
Proof.
  unfold range. replace (a + S n - a)%nat with (S n) by lia.
  replace (a + n - a)%nat with n by lia. apply seq_S.
Qed.

Lemma shape_replicate r c v : shape r c (replicate r (replicate c v)).
Proof.
  split; [apply length_replicate|].
  intros d row [-> _]%lookup_replicate. apply length_replicate.
Qed.

Lemma get_item_replicate r c v d i :
  (d < r)%nat -> (i < c)%nat ->
  get_item (replicate r (replicate c v)) d i = Some v.
Proof.
  intros Hd Hi. unfold get_item.
  rewrite lookup_replicate_2 by done. simpl.
  by apply lookup_replicate_2.
Qed.

Lemma np_zeros_Ok r c m :
  np_zeros r c = Ok m ->
  (0 <= r)%Z /\ (0 <= c)%Z /\
  m = replicate (Z.to_nat r) (replicate (Z.to_nat c) 0).
Proof.
  unfold np_zeros. destruct (_ || _)%Z eqn:E; [discriminate|].
  intros [= <-]. apply orb_false_iff in E as [?%Z.ltb_ge ?%Z.ltb_ge]. auto.
Qed.

Lemma np_zeros_nonneg r c :
  (0 <= r)%Z -> (0 <= c)%Z ->
  np_zeros r c = Ok (replicate (Z.to_nat r) (replicate (Z.to_nat c) 0)).
Proof.
  intros Hr Hc. unfold np_zeros.
  apply Z.ltb_ge in Hr, Hc. rewrite Hr, Hc. reflexivity.
Qed.

Lemma set_item_succeeds r c m d i v :
  shape r c m -> (d < r)%nat -> (i < c)%nat ->
  exists m', set_item m d i v = Ok m'.
Proof.
  intros [Hlen Hrows] Hd Hi. unfold set_item.
  destruct (m !! d) as [row|] eqn:E.
  - rewrite (Hrows _ _ E). destruct (decide (i < c)%nat); [eauto | lia].
  - apply lookup_ge_None in E. lia.
Qed.

Lemma set_item_spec r c m d i v m' :
  shape r c m -> set_item m d i v = Ok m' ->
  shape r c m' /\
  get_item m' d i = Some v /\
  forall d' i', (d' <> d \/ i' <> i) -> get_item m' d' i' = get_item m d' i'.
Proof.
  intros [Hlen Hrows]. unfold set_item.
  destruct (m !! d) as [row|] eqn:E; [|discriminate].
  destruct (decide (i < length row)%nat) as [Hi|]; [|discriminate].
  intros [= <-].
  assert (Hd : (d < length m)%nat) by (eapply lookup_lt_Some; eauto).
  split; [|split].
  - split; [by rewrite length_insert|].
    intros d' row'. destruct (decide (d' = d)) as [->|Hne].
    + rewrite list_lookup_insert_eq by done. intros [= <-].
      rewrite length_insert. eauto.
    + rewrite list_lookup_insert_ne by done. eauto.
  - unfold get_item. rewrite list_lookup_insert_eq by done. simpl.
    by rewrite list_lookup_insert_eq.
  - intros d' i' Hne. unfold get_item.
    destruct (decide (d' = d)) as [->|Hd'].
    + rewrite list_lookup_insert_eq by done. rewrite E. simpl.
      destruct Hne as [?|?]; [done|]. by rewrite list_lookup_insert_ne.
    + by rewrite list_lookup_insert_ne.
Qed.

Lemma matrix_ext r c (m1 m2 : matrix) :
  shape r c m1 -> shape r c m2 ->
  (forall d i, (d < r)%nat -> (i < c)%nat ->
     get_item m1 d i = get_item m2 d i) ->
  m1 = m2.
Proof.
  intros [L1 R1] [L2 R2] H. apply list_eq. intros d.
  destruct (decide (d < r)%nat) as [Hd|Hd].
  - destruct (lookup_lt_is_Some_2 m1 d) as [row1 E1]; [lia|].
    destruct (lookup_lt_is_Some_2 m2 d) as [row2 E2]; [lia|].
    rewrite E1, E2. f_equal. apply list_eq. intros i.
    destruct (decide (i < c)%nat) as [Hi|Hi].
    + specialize (H d i Hd Hi). unfold get_item in H.
      by rewrite E1, E2 in H.
    + rewrite !(proj2 (lookup_ge_None _ _)); [done| |].
      * rewrite (R2 _ _ E2). lia.
      * rewrite (R1 _ _ E1). lia.
  - rewrite !(proj2 (lookup_ge_None _ _)); [done|lia|lia].
Qed.


(** ** The loops of the simulator *)

Section SimulatorProofs.

Variable pow : Qc -> Qc -> Qc.
Variable normal : nat -> Qc.
Variables initial_value drift volatility dividend_yield : Qc.
Variable years : Z.
Variable monthly_contribution : Qc.
Variable num_simulations : Z.
Variable reinvest_dividends : bool.

Let day_body' := day_body pow normal drift volatility dividend_yield
  monthly_contribution reinvest_dividends.
Let sim_body' := sim_body pow normal initial_value drift volatility
  dividend_yield years monthly_contribution reinvest_dividends.
Let walk' := walk pow normal initial_value drift volatility dividend_yield
  monthly_contribution reinvest_dividends.
Let day_update' := day_update pow drift volatility dividend_yield
  monthly_contribution reinvest_dividends.
Let days_done' := days_done pow normal initial_value drift volatility
  dividend_yield monthly_contribution reinvest_dividends.
Let sims_done' := sims_done pow normal initial_value drift volatility
  dividend_yield monthly_contribution reinvest_dividends.

(** One day writes the updated pair at [day, i] and advances the
    generator by one draw. *)
Lemma day_body_unfold i day s :
  day_body' i day s =
    let vd := day_update' day (normal (rng_pos s))
                (current_value s, current_dividends s) in
    paths ← set_item (all_paths s) day i vd.1;
    divs ← set_item (accumulated_dividends s) day i vd.2;
    Ok (LoopState (S (rng_pos s)) paths divs vd.1 vd.2).
Proof.
  unfold day_body', day_body, day_update', day_update, monthly_rate.
  cbv zeta. destruct (day mod 21 =? 0)%nat; reflexivity.
Qed.

Lemma day_loop r c i n s0 :
  shape r c (all_paths s0) ->
  shape r c (accumulated_dividends s0) ->
  current_value s0 = initial_value ->
  current_dividends s0 = 0 ->
  (i < c)%nat -> (n < r)%nat ->
  exists s, for_each (day_body' i) (range 1 (1 + n)) s0 = Ok s /\
            days_done' r c i n s0 s.
Proof.
  intros Hp Hd Hv Hcd Hi. induction n as [|n IH]; intros Hn.
  - exists s0. split; [reflexivity|].
    unfold days_done', days_done. fold walk'. rewrite Nat.add_0_r.
    split_and!; try done; try (intros; lia).
    unfold walk'. simpl. by rewrite <-Hv, <-Hcd.
  - destruct IH as (s & Hrun & Hp' & Hd' & Hrng & Hcur & Hin & Hout);
      [lia|].
    fold walk' in Hcur, Hin.
    rewrite range_snoc, for_each_app, Hrun. simpl.
    rewrite day_body_unfold. cbv zeta.
    set (vd := day_update' _ _ _).
    assert (Hvd : vd = walk' (rng_pos s0) (S n)).
    { unfold vd. simpl. rewrite Hrng, <-Hcur.
      reflexivity. }
    destruct (set_item_succeeds r c (all_paths s) (S n) i vd.1)
      as [paths Epaths]; [done|lia|done|].
    destruct (set_item_succeeds r c (accumulated_dividends s) (S n) i
                vd.2) as [divs Edivs]; [done|lia|done|].
    rewrite Epaths. simpl. rewrite Edivs. simpl.
    destruct (set_item_spec _ _ _ _ _ _ _ Hp' Epaths) as (Sp & Gp & Op).
    destruct (set_item_spec _ _ _ _ _ _ _ Hd' Edivs) as (Sd & Gd & Od).
    eexists. split; [reflexivity|].
    unfold days_done', days_done. fold walk'.
    cbn [rng_pos all_paths accumulated_dividends current_value
         current_dividends].
    split_and!; try done.
    + lia.
    + rewrite <-Hvd. by destruct vd.
    + intros d Hdn. destruct (decide (d = S n)) as [->|Hne].
      * by rewrite <-Hvd.
      * rewrite Op, Od by (left; lia). apply Hin. lia.
    + intros d j Hdj. rewrite Op, Od by lia. apply Hout. lia.
Qed.

Lemma sim_loop c k s0 :
  let nd := Z.to_nat (num_days years) in
  shape (nd + 1) c (all_paths s0) ->
  shape (nd + 1) c (accumulated_dividends s0) ->
  (k <= c)%nat ->
  exists s, for_each sim_body' (range 0 k) s0 = Ok s /\
            sims_done' nd c k s0 s.
Proof.
  intros nd Hp Hd. induction k as [|k IH]; intros Hk.
  - exists s0. split; [reflexivity|]. unfold sims_done', sims_done. fold walk'.
    split_and!; try done; try (intros; lia).
  - destruct IH as (s & Hrun & Hp' & Hd' & Hrng & Hin & Hout); [lia|].
    fold walk' in Hin.
    change (S k) with (0 + S k)%nat.
    rewrite range_snoc, for_each_app. simpl. rewrite Hrun. simpl.
    unfold sim_body', sim_body. fold nd. fold day_body'.
    rewrite (Nat.add_comm nd 1).
    set (s1 := LoopState _ _ _ _ _).
    destruct (day_loop (nd + 1) c k nd s1) as (s2 & Hrun2 & H2);
      try done; try lia.
    rewrite Hrun2. exists s2. split; [reflexivity|].
    destruct H2 as (Hp2 & Hd2 & Hrng2 & _ & Hin2 & Hout2).
    unfold s1 in *.
    cbn [rng_pos all_paths accumulated_dividends current_value
         current_dividends] in *.
    unfold sims_done', sims_done. fold walk'. split_and!; try done.
    + lia.
    + intros i d Hi Hdn. destruct (decide (i = k)) as [->|Hne].
      * rewrite Hrng in Hin2. by apply Hin2.
      * destruct (Hout2 d i) as [-> ->]; [lia|]. apply Hin; [lia|done].
    + intros d j Hdj. destruct (Hout2 d j) as [-> ->]; [lia|].
      apply Hout. lia.
Qed.

(** The whole run: it succeeds exactly on non-negative dimensions, and
    entry [d, i] of each array is the recurrence of simulation [i]. *)
Lemma run_entries rng0 :
  (0 <= years)%Z -> (0 <= num_simulations)%Z ->
  let nd := Z.to_nat (num_days years) in
  let c := Z.to_nat num_simulations in
  exists paths divs,
    run_monte_carlo_simulation pow normal initial_value drift volatility
      dividend_yield years monthly_contribution num_simulations
      reinvest_dividends rng0 = Ok (paths, divs) /\
    shape (nd + 1) c paths /\ shape (nd + 1) c divs /\
    forall d i, (d <= nd)%nat -> (i < c)%nat ->
      get_item paths d i = Some (walk' (rng0 + i * nd) d).1 /\
      get_item divs d i = Some (walk' (rng0 + i * nd) d).2.
Proof.
  intros Hy Hs nd c.
  unfold run_monte_carlo_simulation, run_monte_carlo_simulation_state.
  assert (Hnd : (0 <= num_days years)%Z) by (unfold num_days; lia).
  rewrite np_zeros_nonneg by lia. simpl.
  replace (Z.to_nat (num_days years + 1)) with (S nd) by (unfold nd; lia).
  fold c. simpl. rewrite length_replicate.
  set (s0 := LoopState _ _ _ _ _).
  assert (Hp0 : shape (nd + 1) c (all_paths s0)).
  { simpl. split; [simpl; rewrite length_replicate; lia|].
    intros [|d] row; simpl; [intros [= <-]; apply length_replicate|].
    intros [-> _]%lookup_replicate. apply length_replicate. }
  assert (Hd0 : shape (nd + 1) c (accumulated_dividends s0)).
  { simpl. replace (nd + 1)%nat with (S nd) by lia.
    apply (shape_replicate (S nd)). }
  destruct (sim_loop c c s0 Hp0 Hd0) as (s & Hrun & H); [lia|].
  fold sim_body'. rewrite Hrun. simpl.
  exists (all_paths s), (accumulated_dividends s).
  destruct H as (Hp & Hd & _ & Hin & Hout).
  split_and!; try done.
  intros d i Hdn Hi. destruct d as [|d].
  - destruct (Hout 0%nat i) as [-> ->]; [lia|]. unfold walk'. simpl.
    unfold get_item. simpl. rewrite !lookup_replicate_2 by done. done.
  - apply Hin; [done|lia].
Qed.

End SimulatorProofs.

(** ** Consequences shared by the claims about the simulator *)

Lemma run_raises pow normal initial_value drift volatility dividend_yield
    years monthly_contribution num_simulations reinvest_dividends rng0 :
  (years < 0 \/ num_simulations < 0)%Z ->
  run_monte_carlo_simulation pow normal initial_value drift volatility
    dividend_yield years monthly_contribution num_simulations
    reinvest_dividends rng0 = Raise ValueError.
Proof.
  intros H.
  unfold run_monte_carlo_simulation, run_monte_carlo_simulation_state,
    np_zeros, num_days.
  destruct (_ || _)%Z eqn:E; [reflexivity|].
  apply orb_false_iff in E as [?%Z.ltb_ge ?%Z.ltb_ge]. lia.
Qed.

(** With a zero yield, and a power that is exact at base 1, nothing is
    paid out: the recurrence does not depend on the reinvestment flag. *)
Lemma monthly_rate_zero_yield pow :
  pow 1 (1 / Qc_of_Z 12) = 1 -> monthly_rate pow 0 = 0.
Proof.
  intros H. unfold monthly_rate. rewrite Qcplus_0_r, H. ring.
Qed.

Lemma walk_zero_yield pow normal initial_value drift volatility
    monthly_contribution base d :
  pow 1 (1 / Qc_of_Z 12) = 1 ->
  walk pow normal initial_value drift volatility 0 monthly_contribution
    true base d
  = walk pow normal initial_value drift volatility 0 monthly_contribution
    false base d.
Proof.
  intros H. induction d as [|d IH]; [reflexivity|].
  simpl. rewrite IH. unfold day_update.
  rewrite (monthly_rate_zero_yield pow H).
  destruct (S d mod 21 =? 0)%nat; [|reflexivity].
  f_equal. ring.
Qed.

Lemma month_boundary d :
  (S d / 21 = if (S d mod 21 =? 0) then d / 21 + 1 else d / 21)%nat.
Proof.
  pose proof (Nat.div_mod_eq (S d) 21) as H1.
  pose proof (Nat.div_mod_eq d 21) as H2.
  pose proof (Nat.mod_upper_bound d 21) as H3.
  pose proof (Nat.mod_upper_bound (S d) 21) as H4.
  destruct (S d mod 21 =? 0)%nat eqn:E.
  - apply Nat.eqb_eq in E. lia.
  - apply Nat.eqb_neq in E. lia.
Qed.

(** Zero drift, volatility and yield: the value is the initial one plus
    one contribution per completed 21-day month, and no dividends. *)
Lemma walk_flat pow normal initial_value monthly_contribution reinvest
    base d :
  pow 1 (1 / Qc_of_Z 12) = 1 ->
  walk pow normal initial_value 0 0 0 monthly_contribution reinvest base d
  = (initial_value + Qc_of_Z (Z.of_nat (d / 21)) * monthly_contribution, 0).
Proof.
  intros H. induction d as [|d IH].
  - cbn [walk]. f_equal. change (Z.of_nat (0 / 21)) with 0%Z.
    rewrite Z2Qc_inj_0. ring.
  - cbn [walk]. rewrite IH. unfold day_update.
    rewrite (monthly_rate_zero_yield pow H). cbn [fst snd].
    rewrite (month_boundary d).
    destruct (S d mod 21 =? 0)%nat.
    + rewrite Nat2Z.inj_add, Z2Qc_inj_add.
      change (Z.of_nat 1) with 1%Z. rewrite Z2Qc_inj_1.
      f_equal; destruct reinvest; ring.
    + f_equal; ring.
Qed.

(** * Claims about the path simulator *)

(** C1.  For every simulation index [i] and trading day [d] from 1 to
    [years * 252], the value recorded at [d, i] is the value recorded the
    day before multiplied by [1 + drift + volatility * z], where [z] is the
    draw made for that day, with no clamping; on a day that is a multiple
    of 21 the month's dividend [value * ((1 + dividend_yield) ** (1/12) - 1)]
    is computed on that post-return value and added to the cumulative
    dividends, then [monthly_contribution] is added to the value, and the
    dividend is added to the value only when [reinvest_dividends] is set.
    Both running quantities are recorded at [d, i] every day. *)
Theorem daily_update_rule pow normal initial_value drift volatility
    dividend_yield years monthly_contribution num_simulations
    reinvest_dividends rng0 :
  (0 <= years)%Z -> (0 <= num_simulations)%Z ->
  exists paths divs,
    run_monte_carlo_simulation pow normal initial_value drift volatility
      dividend_yield years monthly_contribution num_simulations
      reinvest_dividends rng0 = Ok (paths, divs) /\
    forall i d,
      (i < Z.to_nat num_simulations)%nat ->
      (1 <= d <= Z.to_nat (years * 252))%nat ->
      exists value_before dividends_before,
        get_item paths (d - 1) i = Some value_before /\
        get_item divs (d - 1) i = Some dividends_before /\
        let z := normal (rng0 + i * Z.to_nat (years * 252) + (d - 1))%nat in
        let value := value_before * (1 + drift + volatility * z) in
        let dividend :=
          value * (pow (1 + dividend_yield) (1 / Qc_of_Z 12) - 1) in
        get_item paths d i =
          Some (if (d mod 21 =? 0)%nat
                then if reinvest_dividends
                     then value + monthly_contribution + dividend
                     else value + monthly_contribution
                else value) /\
        get_item divs d i =
          Some (if (d mod 21 =? 0)%nat
                then dividends_before + dividend
                else dividends_before).
Proof.
  intros Hy Hs.
  destruct (run_entries pow normal initial_value drift volatility
              dividend_yield years monthly_contribution num_simulations
              reinvest_dividends rng0 Hy Hs)
    as (paths & divs & Hrun & _ & _ & Hent).
  exists paths, divs. split; [exact Hrun|].
  intros i d Hi Hd. change (years * 252)%Z with (num_days years) in *.
  destruct d as [|d]; [lia|].
  replace (S d - 1)%nat with d by lia.
  destruct (Hent d i) as [Hv0 Hd0]; [lia|done|].
  destruct (Hent (S d) i) as [Hv1 Hd1]; [lia|done|].
  eexists _, _. split; [exact Hv0|]. split; [exact Hd0|].
  cbv zeta. rewrite Hv1, Hd1. cbn [walk]. unfold day_update, monthly_rate.
  rewrite <-(Qcplus_assoc 1 drift).
  destruct (S d mod 21 =? 0)%nat; split; reflexivity.
Qed.

Lemma daily_update_rule_witness :
  (0 <= 1)%Z /\ (0 <= 2)%Z /\
  exists paths divs,
    run_monte_carlo_simulation linear_pow sample_draws (Qc_of_Z 10000)
      (1 / Qc_of_Z 1000) (1 / Qc_of_Z 100) (Qc_of_Z 6 / Qc_of_Z 100)
      1 (Qc_of_Z 100) 2 true 0 = Ok (paths, divs) /\
    exists value_before,
      get_item paths 20 1 = Some value_before /\
      get_item paths 21 1 =
        Some (value_before
                * (1 + 1 / Qc_of_Z 1000
                   + 1 / Qc_of_Z 100 * sample_draws (0 + 1 * 252 + 20))
              + Qc_of_Z 100
              + value_before
                * (1 + 1 / Qc_of_Z 1000
                   + 1 / Qc_of_Z 100 * sample_draws (0 + 1 * 252 + 20))
                * (linear_pow (1 + Qc_of_Z 6 / Qc_of_Z 100)
                     (1 / Qc_of_Z 12) - 1)).
Proof.
  split; [lia|]. split; [lia|].
  destruct (daily_update_rule linear_pow sample_draws (Qc_of_Z 10000)
              (1 / Qc_of_Z 1000) (1 / Qc_of_Z 100) (Qc_of_Z 6 / Qc_of_Z 100)
              1 (Qc_of_Z 100) 2 true 0)
    as (paths & divs & Hrun & Hrule); [lia|lia|].
  exists paths, divs. split; [exact Hrun|].
  destruct (Hrule 1%nat 21%nat) as (v & dv & Hv & _ & Hnext & _);
    [lia|lia|].
  exists v. split; [exact Hv | exact Hnext].
Defined.

(** A value that turns negative is recorded as it is: from 100, with
    unit volatility and a first shock of -3/2, day 1 holds -50. *)
Lemma negative_value_recorded :
  exists paths divs,
    run_monte_carlo_simulation linear_pow sample_draws (Qc_of_Z 100) 0 1 0
      1 0 1 false 0 = Ok (paths, divs) /\
    get_item paths 1 0 = Some (Qc_of_Z (-50)).
Proof.
  destruct (run_entries linear_pow sample_draws (Qc_of_Z 100) 0 1 0 1 0 1
              false 0) as (paths & divs & Hrun & _ & _ & Hent); [lia|lia|].
  exists paths, divs. split; [exact Hrun|].
  destruct (Hent 1%nat 0%nat) as [-> _]; [vm_compute; lia|vm_compute; lia|].
  f_equal. apply Qc_is_canon. vm_compute. reflexivity.
Qed.

(** C7.  In every run, row 0 of the value array holds [initial_value]
    and row 0 of the dividend array holds 0, in every simulation column. *)
Theorem day_zero_seeded pow normal initial_value drift volatility
    dividend_yield years monthly_contribution num_simulations
    reinvest_dividends rng0 :
  (0 <= years)%Z -> (0 <= num_simulations)%Z ->
  exists paths divs,
    run_monte_carlo_simulation pow normal initial_value drift volatility
      dividend_yield years monthly_contribution num_simulations
      reinvest_dividends rng0 = Ok (paths, divs) /\
    paths !! 0%nat = Some (replicate (Z.to_nat num_simulations) initial_value)
    /\ divs !! 0%nat = Some (replicate (Z.to_nat num_simulations) 0) /\
    forall i, (i < Z.to_nat num_simulations)%nat ->
      get_item paths 0 i = Some initial_value /\
      get_item divs 0 i = Some 0.
Proof.
  intros Hy Hs.
  destruct (run_entries pow normal initial_value drift volatility
              dividend_yield years monthly_contribution num_simulations
              reinvest_dividends rng0 Hy Hs)
    as (paths & divs & Hrun & Hsp & Hsd & Hent).
  exists paths, divs. split; [exact Hrun|].
  assert (Hcells : forall i, (i < Z.to_nat num_simulations)%nat ->
            get_item paths 0 i = Some initial_value /\
            get_item divs 0 i = Some 0).
  { intros i Hi. destruct (Hent 0%nat i) as [Hv Hd]; [lia|done|]. auto. }
  assert (Hrow : forall (m : matrix) v,
            shape (Z.to_nat (num_days years) + 1)
              (Z.to_nat num_simulations) m ->
            (forall i, (i < Z.to_nat num_simulations)%nat ->
               get_item m 0 i = Some v) ->
            m !! 0%nat = Some (replicate (Z.to_nat num_simulations) v)).
  { intros m v [Hlen Hrows] Hm.
    destruct (lookup_lt_is_Some_2 m 0) as [row Hr]; [lia|].
    rewrite Hr. f_equal. apply list_eq. intros i.
    pose proof (Hrows _ _ Hr) as Hlr.
    destruct (decide (i < Z.to_nat num_simulations)%nat) as [Hi|Hi].
    - specialize (Hm i Hi). unfold get_item in Hm. rewrite Hr in Hm.
      simpl in Hm. rewrite Hm. symmetry. by apply lookup_replicate_2.
    - rewrite (proj2 (lookup_ge_None _ _)) by lia.
      symmetry. apply lookup_ge_None. rewrite length_replicate. lia. }
  split_and!.
  - apply Hrow; [done|]. intros i Hi. by apply Hcells.
  - apply Hrow; [done|]. intros i Hi. by apply Hcells.
  - exact Hcells.
Qed.

Lemma day_zero_seeded_witness :
  (0 <= 1)%Z /\ (0 <= 2)%Z /\
  exists paths divs,
    run_monte_carlo_simulation linear_pow sample_draws (Qc_of_Z 10000)
      (1 / Qc_of_Z 1000) (1 / Qc_of_Z 100) (Qc_of_Z 6 / Qc_of_Z 100)
      1 (Qc_of_Z 100) 2 true 0 = Ok (paths, divs) /\
    paths !! 0%nat = Some [Qc_of_Z 10000; Qc_of_Z 10000] /\
    divs !! 0%nat = Some [0; 0].
Proof.
  split; [lia|]. split; [lia|].
  destruct (day_zero_seeded linear_pow sample_draws (Qc_of_Z 10000)
              (1 / Qc_of_Z 1000) (1 / Qc_of_Z 100) (Qc_of_Z 6 / Qc_of_Z 100)
              1 (Qc_of_Z 100) 2 true 0)
    as (paths & divs & Hrun & Hp & Hd & _); [lia|lia|].
  exists paths, divs. split; [exact Hrun|]. split; [exact Hp | exact Hd].
Defined.

(** C2.  With [initial_value = 10000], zero drift, volatility and yield,
    one year, a contribution of 100, no reinvestment and one simulation,
    the value at day 252 is exactly [10000 + 100 * 12 = 11200]; it rises
    by exactly 100 on each day that is a multiple of 21 and is unchanged
    on every other day.  The float power enters through
    [1.0 ** (1/12) = 1.0]. *)
Theorem flat_scenario pow normal rng0 :
  pow 1 (1 / Qc_of_Z 12) = 1 ->
  exists paths divs,
    run_monte_carlo_simulation pow normal (Qc_of_Z 10000) 0 0 0 1
      (Qc_of_Z 100) 1 false rng0 = Ok (paths, divs) /\
    get_item paths 252 0 = Some (Qc_of_Z 11200) /\
    Qc_of_Z 11200 = Qc_of_Z 10000 + Qc_of_Z 100 * Qc_of_Z 12 /\
    forall d, (1 <= d <= 252)%nat ->
      exists before,
        get_item paths (d - 1) 0 = Some before /\
        get_item paths d 0 =
          Some (if (d mod 21 =? 0)%nat then before + Qc_of_Z 100
                else before).
Proof.
  intros Hpow.
  destruct (run_entries pow normal (Qc_of_Z 10000) 0 0 0 1 (Qc_of_Z 100) 1
              false rng0) as (paths & divs & Hrun & _ & _ & Hent);
    [lia|lia|].
  change (Z.to_nat (num_days 1)) with 252%nat in Hent.
  change (Z.to_nat 1) with 1%nat in Hent.
  exists paths, divs. split; [exact Hrun|]. split_and!.
  - destruct (Hent 252%nat 0%nat) as [-> _]; [lia|lia|].
    rewrite (walk_flat _ _ _ _ _ _ _ Hpow). cbn [fst]. f_equal.
    apply Qc_is_canon. reflexivity.
  - apply Qc_is_canon. reflexivity.
  - intros [|d] Hd; [lia|]. replace (S d - 1)%nat with d by lia.
    destruct (Hent d 0%nat) as [-> _]; [lia|lia|].
    destruct (Hent (S d) 0%nat) as [-> _]; [lia|lia|].
    eexists. split; [reflexivity|].
    rewrite !(walk_flat _ _ _ _ _ _ _ Hpow). cbn [fst]. f_equal.
    rewrite (month_boundary d).
    destruct (S d mod 21 =? 0)%nat; [|reflexivity].
    rewrite Nat2Z.inj_add, Z2Qc_inj_add.
    change (Z.of_nat 1) with 1%Z. rewrite Z2Qc_inj_1. ring.
Qed.

Lemma flat_scenario_witness :
  linear_pow 1 (1 / Qc_of_Z 12) = 1 /\
  exists paths divs,
    run_monte_carlo_simulation linear_pow sample_draws (Qc_of_Z 10000) 0 0 0
      1 (Qc_of_Z 100) 1 false 0 = Ok (paths, divs) /\
    get_item paths 252 0 = Some (Qc_of_Z 11200).
Proof.
  assert (H : linear_pow 1 (1 / Qc_of_Z 12) = 1)
    by (apply Qc_is_canon; reflexivity).
  split; [exact H|].
  destruct (flat_scenario linear_pow sample_draws 0 H)
    as (paths & divs & Hrun & Hlast & _).
  exists paths, divs. split; [exact Hrun | exact Hlast].
Defined.

(** C8.  With a zero dividend yield, and everything else and the draws
    the same, the run with [reinvest_dividends = true] returns the same
    ensemble as the run with [reinvest_dividends = false], whatever the
    monthly contribution. *)
Theorem zero_yield_reinvestment_irrelevant pow normal initial_value drift
    volatility years monthly_contribution num_simulations rng0 :
  pow 1 (1 / Qc_of_Z 12) = 1 ->
  run_monte_carlo_simulation pow normal initial_value drift volatility 0
    years monthly_contribution num_simulations true rng0
  = run_monte_carlo_simulation pow normal initial_value drift volatility 0
    years monthly_contribution num_simulations false rng0.
Proof.
  intros Hpow.
  destruct (Z_lt_le_dec years 0) as [Hy|Hy];
    [rewrite !run_raises by lia; reflexivity|].
  destruct (Z_lt_le_dec num_simulations 0) as [Hs|Hs];
    [rewrite !run_raises by lia; reflexivity|].
  destruct (run_entries pow normal initial_value drift volatility 0 years
              monthly_contribution num_simulations true rng0 Hy Hs)
    as (p1 & d1 & -> & Hp1 & Hd1 & H1).
  destruct (run_entries pow normal initial_value drift volatility 0 years
              monthly_contribution num_simulations false rng0 Hy Hs)
    as (p2 & d2 & -> & Hp2 & Hd2 & H2).
  assert (p1 = p2 /\ d1 = d2) as [-> ->]; [|reflexivity].
  split; eapply matrix_ext; eauto; intros d i Hd Hi.
  - destruct (H1 d i) as [-> _]; [lia|done|].
    destruct (H2 d i) as [-> _]; [lia|done|].
    by rewrite (walk_zero_yield _ _ _ _ _ _ _ _ Hpow).
  - destruct (H1 d i) as [_ ->]; [lia|done|].
    destruct (H2 d i) as [_ ->]; [lia|done|].
    by rewrite (walk_zero_yield _ _ _ _ _ _ _ _ Hpow).
Qed.

Lemma zero_yield_reinvestment_irrelevant_witness :
  linear_pow 1 (1 / Qc_of_Z 12) = 1 /\
  run_monte_carlo_simulation linear_pow sample_draws (Qc_of_Z 10000)
    (1 / Qc_of_Z 1000) (1 / Qc_of_Z 100) 0 1 (Qc_of_Z 100) 2 true 0
  = run_monte_carlo_simulation linear_pow sample_draws (Qc_of_Z 10000)
    (1 / Qc_of_Z 1000) (1 / Qc_of_Z 100) 0 1 (Qc_of_Z 100) 2 false 0.
Proof.
  assert (H : linear_pow 1 (1 / Qc_of_Z 12) = 1)
    by (apply Qc_is_canon; reflexivity).
  split; [exact H|].
  apply (zero_yield_reinvestment_irrelevant linear_pow sample_draws
           (Qc_of_Z 10000) (1 / Qc_of_Z 1000) (1 / Qc_of_Z 100) 1
           (Qc_of_Z 100) 2 0 H).
Defined.

(** C4, as stated, fails: a negative monthly contribution, a horizon of
    zero years and a simulation count of zero are all simulated, and an
    ensemble comes back. *)
Lemma invalid_configurations_run :
  is_ok (run_monte_carlo_simulation linear_pow sample_draws (Qc_of_Z 10000)
           0 0 0 1 (Qc_of_Z (-100)) 1 false 0) = true /\
  run_monte_carlo_simulation linear_pow sample_draws (Qc_of_Z 10000)
    0 0 0 0 (Qc_of_Z 100) 1 false 0 = Ok ([[Qc_of_Z 10000]], [[0]]) /\
  run_monte_carlo_simulation linear_pow sample_draws (Qc_of_Z 10000)
    0 0 0 0 (Qc_of_Z 100) 0 false 0 = Ok ([[]], [[]]).
Proof. split_and!; vm_compute; reflexivity. Qed.

(** C4, amended.  The simulator checks none of its arguments.  A run is
    refused only when [years] or [num_simulations] is negative, by the
    array allocation and so before the first simulated day; every other
    configuration, whatever the monthly contribution, returns an ensemble
    of [years * 252 + 1] rows and [num_simulations] columns. *)
Theorem only_negative_dimensions_rejected pow normal initial_value drift
    volatility dividend_yield years monthly_contribution num_simulations
    reinvest_dividends rng0 :
  if ((years <? 0) || (num_simulations <? 0))%Z
  then run_monte_carlo_simulation pow normal initial_value drift volatility
         dividend_yield years monthly_contribution num_simulations
         reinvest_dividends rng0 = Raise ValueError
  else exists paths divs,
         run_monte_carlo_simulation pow normal initial_value drift
           volatility dividend_yield years monthly_contribution
           num_simulations reinvest_dividends rng0 = Ok (paths, divs) /\
         shape (Z.to_nat (years * 252) + 1) (Z.to_nat num_simulations) paths
         /\ shape (Z.to_nat (years * 252) + 1) (Z.to_nat num_simulations)
              divs.
Proof.
  destruct (_ || _)%Z eqn:E.
  - apply run_raises. apply orb_true_iff in E as [?%Z.ltb_lt | ?%Z.ltb_lt];
      lia.
  - apply orb_false_iff in E as [Hy%Z.ltb_ge Hs%Z.ltb_ge].
    destruct (run_entries pow normal initial_value drift volatility
                dividend_yield years monthly_contribution num_simulations
                reinvest_dividends rng0 Hy Hs)
      as (paths & divs & Hrun & Hp & Hd & _).
    exists paths, divs. auto.
Qed.

(** ** Order statistics and interpolation *)

(** Inequalities between canonical rationals, restated on their
    underlying fractions where [lra] and [nra] apply. *)
Ltac qc2q :=
  unfold Qcle, Qclt in *;
  cbn [this Qcplus Qcminus Qcmult Qcopp Qcdiv Q2Qc Qc_of_Z] in *;
  rewrite ?Qred_correct in *;
  repeat match goal with
         | x : Qc |- _ => destruct x as [x ?]
         end;
  cbn [this] in *;
  repeat match goal with
         | H : Qred _ = _ |- _ => clear H
         end.

Lemma lerp_lower (a b t : Qc) : a <= b -> 0 <= t -> a <= lerp a b t.
Proof. unfold lerp. intros. qc2q. nra. Qed.

Lemma lerp_upper (a b t : Qc) : a <= b -> t <= 1 -> lerp a b t <= b.
Proof.
  unfold lerp. intros. qc2q.
  assert (0 <= (b - a) * (1 - t))%Q by (apply Qmult_le_0_compat; lra).
  lra.
Qed.

Lemma lerp_mono (a b t u : Qc) : a <= b -> t <= u -> lerp a b t <= lerp a b u.
Proof. unfold lerp. intros. qc2q. nra. Qed.

Lemma floor_below (h : Qc) : Qc_of_Z (Qfloor h) <= h.
Proof. unfold Qcle. simpl. apply Qfloor_le. Qed.

Lemma floor_above (h : Qc) : h < Qc_of_Z (Qfloor h + 1).
Proof. unfold Qclt. simpl. apply Qlt_floor. Qed.

Lemma floor_mono (h1 h2 : Qc) : h1 <= h2 -> (Qfloor h1 <= Qfloor h2)%Z.
Proof. apply Qfloor_resp_le. Qed.

Lemma floor_nonneg (h : Qc) : 0 <= h -> (0 <= Qfloor h)%Z.
Proof.
  intros H. change 0%Z with (Qfloor (inject_Z 0)).
  apply Qfloor_resp_le. exact H.
Qed.

Lemma floor_bounded (h : Qc) (m : Z) : h <= Qc_of_Z m -> (Qfloor h <= m)%Z.
Proof.
  intros H. rewrite <-(Qfloor_Z m). apply Qfloor_resp_le. exact H.
Qed.

Lemma sorted_nth (s : list Qc) (x0 : Qc) i j :
  StronglySorted Qcle s -> (i <= j)%nat -> (j < length s)%nat ->
  nth i s x0 <= nth j s x0.
Proof.
  intros Hs. revert i j. induction Hs as [|x s Hs IH Hx]; intros i j Hij Hj.
  - simpl in Hj. lia.
  - destruct i as [|i], j as [|j]; simpl in *; try lia.
    + apply Qcle_refl.
    + rewrite Forall_forall in Hx. apply Hx. apply list_elem_of_In.
      apply nth_In. lia.
    + apply IH; lia.
Qed.

Lemma linear_quantile_mono (s : list Qc) (x0 h1 h2 : Qc) :
  StronglySorted Qcle s -> s <> [] ->
  0 <= h1 -> h1 <= h2 -> h2 <= Qc_of_Z (Z.of_nat (length s - 1)) ->
  linear_quantile s x0 h1 <= linear_quantile s x0 h2.
Proof.
  intros Hs Hne H0 H12 Hn. unfold linear_quantile.
  assert (Hlen : (0 < length s)%nat) by (destruct s; simpl; [done|lia]).
  pose proof (floor_nonneg h1 H0) as K1.
  pose proof (floor_mono h1 h2 H12) as K12.
  pose proof (floor_bounded h2 _ Hn) as K2.
  pose proof (floor_below h1) as B1. pose proof (floor_above h1) as A1.
  pose proof (floor_below h2) as B2.
  rewrite Z2Qc_inj_add, Z2Qc_inj_1 in A1.
  set (k1 := Qfloor h1) in *. set (k2 := Qfloor h2) in *.
  assert (G1 : h1 - Qc_of_Z k1 <= 1).
  { apply Qclt_le_weak in A1. clearbody k1 k2. clear -A1.
    generalize dependent (Qc_of_Z k1). intros c A1. qc2q. lra. }
  assert (G2 : 0 <= h2 - Qc_of_Z k2).
  { clearbody k1 k2. clear -B2.
    generalize dependent (Qc_of_Z k2). intros c B2. qc2q. lra. }
  destruct (decide (k1 = k2)) as [E|E].
  - rewrite <-E. apply lerp_mono.
    + apply sorted_nth; [done|lia|lia].
    + clearbody k1 k2. clear -H12.
      generalize dependent (Qc_of_Z k1). intros c. qc2q. lra.
  - eapply Qcle_trans; [apply lerp_upper; [|exact G1]|].
    { apply sorted_nth; [done|lia|lia]. }
    eapply Qcle_trans; [|apply lerp_lower; [|exact G2]].
    + apply sorted_nth; [done|lia|lia].
    + apply sorted_nth; [done|lia|lia].
Qed.

Lemma merge_sort_nonempty (a : list Qc) :
  a <> [] -> merge_sort Qcle a <> [].
Proof.
  intros Ha Hs. apply Ha.
  pose proof (merge_sort_Permutation Qcle a) as Hp. rewrite Hs in Hp.
  symmetry in Hp. by apply Permutation_nil_r in Hp.
Qed.

Lemma virtual_index_bounds (n : nat) (q1 q2 : Qc) :
  0 <= q1 -> q1 <= q2 -> q2 <= Qc_of_Z 100 ->
  let h q := Qc_of_Z (Z.of_nat n) * (q / Qc_of_Z 100) in
  0 <= h q1 /\ h q1 <= h q2 /\ h q2 <= Qc_of_Z (Z.of_nat n).
Proof.
  intros H0 H12 H100 h. unfold h. clear h.
  assert (Hn : 0 <= Qc_of_Z (Z.of_nat n))
    by (rewrite <-Z2Qc_inj_0; apply (proj1 (Z2Qc_inj_le _ _)); lia).
  generalize dependent (Qc_of_Z (Z.of_nat n)). intros c Hc.
  assert (E : forall q, q / Qc_of_Z 100 = q * Q2Qc (1 # 100)).
  { intros q. unfold Qcdiv. f_equal; try (apply Qc_is_canon; reflexivity). }
  rewrite !E. clear E.
  assert (H100' : q2 <= Q2Qc (100 # 1)) by exact H100.
  clear H100. qc2q.
  assert (0 <= c * (q1 * (1 # 100)))%Q by (apply Qmult_le_0_compat; lra).
  assert (0 <= c * ((q2 - q1) * (1 # 100)))%Q
    by (apply Qmult_le_0_compat; lra).
  assert (0 <= c * (1 - q2 * (1 # 100)))%Q
    by (apply Qmult_le_0_compat; lra).
  split_and!; lra.
Qed.

(** Percentiles of one non-empty array grow with [q]. *)
Lemma np_percentile_mono (a : list Qc) (q1 q2 : Qc) :
  a <> [] -> 0 <= q1 -> q1 <= q2 -> q2 <= Qc_of_Z 100 ->
  exists v1 v2,
    np_percentile a q1 = Ok (Some v1) /\
    np_percentile a q2 = Ok (Some v2) /\
    v1 <= v2.
Proof.
  intros Ha H0 H12 H100. unfold np_percentile.
  rewrite !decide_True
    by (split; eauto using Qcle_trans).
  pose proof (merge_sort_nonempty a Ha) as Hne.
  pose proof (StronglySorted_merge_sort Qcle a) as Hs.
  destruct (merge_sort Qcle a) as [|x0 s] eqn:E; [done|].
  eexists _, _. split; [reflexivity|]. split; [reflexivity|].
  destruct (virtual_index_bounds (length (x0 :: s) - 1) q1 q2 H0 H12 H100)
    as (Hlo & Hmid & Hhi).
  by apply linear_quantile_mono.
Qed.

Lemma map_result_lookup {A B} (f : A -> result B) xs ys d x :
  map_result f xs = Ok ys -> xs !! d = Some x ->
  exists y, ys !! d = Some y /\ f x = Ok y.
Proof.
  revert ys d. induction xs as [|x' xs IH]; intros ys d; [done|].
  simpl. intros H.
  apply bind_Ok in H as (y & Hy & H).
  apply bind_Ok in H as (ys' & Hys & [= <-]).
  destruct d as [|d]; simpl.
  - intros [= <-]. eauto.
  - intros Hd. eapply IH; eauto.
Qed.

Lemma map_result_total {A B} (f : A -> result B) xs :
  (forall x, x ∈ xs -> is_ok (f x) = true) ->
  exists ys, map_result f xs = Ok ys /\ length ys = length xs.
Proof.
  induction xs as [|x xs IH]; intros H; [by exists []|].
  simpl. destruct (f x) as [y|e] eqn:E.
  - destruct IH as (ys & -> & Hlen);
      [intros; apply H; by constructor|].
    simpl. exists (y :: ys). by rewrite <-Hlen.
  - specialize (H x ltac:(by constructor)). by rewrite E in H.
Qed.

(** * Claims about the outcome summary and the page *)

(** C9.  For every ensemble with at least one simulation, and every
    trading day [d], the linear-interpolation percentiles taken across
    the simulation axis are ordered: [P10_path[d] <= P50_path[d] <=
    P90_path[d]]. *)
Theorem percentile_bands_ordered (paths : matrix) :
  (forall row, row ∈ paths -> row <> []) ->
  exists p10_path p50_path p90_path,
    np_percentile_axis1 paths (Qc_of_Z 10) = Ok p10_path /\
    np_percentile_axis1 paths (Qc_of_Z 50) = Ok p50_path /\
    np_percentile_axis1 paths (Qc_of_Z 90) = Ok p90_path /\
    forall d, (d < length paths)%nat ->
      exists a b c,
        p10_path !! d = Some (Some a) /\
        p50_path !! d = Some (Some b) /\
        p90_path !! d = Some (Some c) /\
        a <= b /\ b <= c.
Proof.
  intros Hrows.
  assert (Hq : forall q1 q2 : Z, (0 <= q1 <= q2)%Z -> (q2 <= 100)%Z ->
            0 <= Qc_of_Z q1 /\ Qc_of_Z q1 <= Qc_of_Z q2 /\
            Qc_of_Z q2 <= Qc_of_Z 100).
  { intros q1 q2 H1 H2. rewrite <-Z2Qc_inj_0.
    split_and!; apply (proj1 (Z2Qc_inj_le _ _)); lia. }
  assert (Htot : forall q : Z, (0 <= q <= 100)%Z ->
            exists ys, np_percentile_axis1 paths (Qc_of_Z q) = Ok ys).
  { intros q Hq'. destruct (map_result_total
      (fun row => np_percentile row (Qc_of_Z q)) paths) as (ys & H & _);
      [|eauto].
    intros row Hrow. destruct (Hq q q) as (H0 & H1 & H2); [lia|lia|].
    destruct (np_percentile_mono row _ _ (Hrows row Hrow) H0 H1 H2)
      as (v & _ & -> & _). reflexivity. }
  destruct (Htot 10%Z) as [p10_path H10]; [lia|].
  destruct (Htot 50%Z) as [p50_path H50]; [lia|].
  destruct (Htot 90%Z) as [p90_path H90]; [lia|].
  exists p10_path, p50_path, p90_path. split_and!; try done.
  intros d Hd. destruct (lookup_lt_is_Some_2 paths d Hd) as [row Hrow].
  assert (Hne : row <> []) by (eapply Hrows, list_elem_of_lookup_2; eauto).
  destruct (map_result_lookup _ _ _ _ _ H10 Hrow) as (a' & La & Ea).
  destruct (map_result_lookup _ _ _ _ _ H50 Hrow) as (b' & Lb & Eb).
  destruct (map_result_lookup _ _ _ _ _ H90 Hrow) as (c' & Lc & Ec).
  destruct (Hq 10%Z 50%Z) as (Q0 & Q1 & Q2); [lia|lia|].
  destruct (Hq 50%Z 90%Z) as (R0 & R1 & R2); [lia|lia|].
  destruct (np_percentile_mono row _ _ Hne Q0 Q1 Q2)
    as (a & b & Ha & Hb & Hab).
  destruct (np_percentile_mono row _ _ Hne R0 R1 R2)
    as (b2 & c & Hb2 & Hc & Hbc).
  simpl in *. rewrite Ha in Ea. rewrite Hb in Eb, Hb2. rewrite Hc in Ec.
  injection Ea as <-. injection Eb as <-. injection Ec as <-.
  injection Hb2 as <-.
  exists a, b, c. auto.
Qed.

Lemma percentile_bands_ordered_witness :
  (forall row, row ∈ [[Qc_of_Z 5; Qc_of_Z 1; Qc_of_Z 3];
                      [Qc_of_Z 2; Qc_of_Z 9; Qc_of_Z 4]] -> row <> []) /\
  exists p10_path p50_path p90_path,
    np_percentile_axis1 [[Qc_of_Z 5; Qc_of_Z 1; Qc_of_Z 3];
                         [Qc_of_Z 2; Qc_of_Z 9; Qc_of_Z 4]] (Qc_of_Z 10)
      = Ok p10_path /\
    np_percentile_axis1 [[Qc_of_Z 5; Qc_of_Z 1; Qc_of_Z 3];
                         [Qc_of_Z 2; Qc_of_Z 9; Qc_of_Z 4]] (Qc_of_Z 50)
      = Ok p50_path /\
    np_percentile_axis1 [[Qc_of_Z 5; Qc_of_Z 1; Qc_of_Z 3];
                         [Qc_of_Z 2; Qc_of_Z 9; Qc_of_Z 4]] (Qc_of_Z 90)
      = Ok p90_path /\
    exists a b c,
      p10_path !! 1%nat = Some (Some a) /\
      p50_path !! 1%nat = Some (Some b) /\
      p90_path !! 1%nat = Some (Some c) /\
      a <= b /\ b <= c.
Proof.
  assert (H : forall row,
            row ∈ [[Qc_of_Z 5; Qc_of_Z 1; Qc_of_Z 3];
                   [Qc_of_Z 2; Qc_of_Z 9; Qc_of_Z 4]] -> row <> []).
  { intros row Hrow E. subst row.
    repeat (apply elem_of_cons in Hrow as [Hrow|Hrow]; [discriminate|]).
    by apply elem_of_nil in Hrow. }
  split; [exact H|].
  destruct (percentile_bands_ordered _ H)
    as (p10_path & p50_path & p90_path & H10 & H50 & H90 & Hd).
  exists p10_path, p50_path, p90_path.
  split; [exact H10|]. split; [exact H50|]. split; [exact H90|].
  apply (Hd 1%nat). simpl. lia.
Defined.

(** C6.  When the initial value is zero the page shows its error message
    and nothing else: the simulator is not run (no ensemble is built and
    no draw is taken from the generator).  The message is specific to
    that condition: with a non-zero initial value the page never shows
    it, whatever the monthly contribution. *)
Theorem empty_portfolio_not_simulated pow normal drift volatility
    dividend_yield ui rng0 :
  simulation_button pow normal (0, drift, volatility, dividend_yield) ui rng0
    = Ok (PageError no_initial_value_message, rng0) /\
  forall initial_value message rng1,
    initial_value <> 0 ->
    simulation_button pow normal
      (initial_value, drift, volatility, dividend_yield) ui rng0
      <> Ok (PageError message, rng1).
Proof.
  split.
  - unfold simulation_button. by rewrite decide_True.
  - intros initial_value message rng1 Hne. unfold simulation_button.
    rewrite decide_False by done.
    repeat match goal with
           | |- (?m ≫= _) <> _ => destruct m; simpl; [|discriminate]
           end.
    discriminate.
Qed.

(** * The statistics estimator *)

(** ** The yield loop *)



(** * Claims about the statistics estimator *)




(** ** Weights *)

(** Equality of two explicit lists of canonical rationals. *)
Ltac qc_list_eq :=
  repeat first
    [ reflexivity
    | apply (f_equal2 cons); [apply Qc_is_canon; reflexivity|] ].

Lemma sum_list_div {A} (f : A -> Qc) (c : Qc) (xs : list A) :
  sum_list (map (fun x => f x / c) xs) = sum_list (map f xs) / c.
Proof.
  unfold sum_list. induction xs as [|x xs IH]; simpl.
  - unfold Qcdiv. ring.
  - rewrite IH. unfold Qcdiv. ring.
Qed.

Lemma with_weights_Peso priced :
  map Peso (with_weights priced)
  = map (fun hp => Quantidade hp.1 * hp.2 / total_value priced) priced.
Proof. unfold with_weights. by rewrite map_map. Qed.

Lemma for_each_raise {A S} (body : A -> S -> result S) xs s e :
  for_each body xs s = Raise e ->
  exists x s', x ∈ xs /\ body x s' = Raise e.
Proof.
  revert s. induction xs as [|x xs IH]; intros s; simpl; [discriminate|].
  destruct (body x s) as [s'|e'] eqn:E; simpl.
  - intros H. destruct (IH _ H) as (y & s'' & Hy & Hb).
    exists y, s''. split; [by constructor | done].
  - intros [= <-]. exists x, s. split; [by constructor | done].
Qed.

(** The labels of the weights are the tickers with their suffix. *)
Lemma string_length_app (s1 s2 : string) :
  String.length (s1 +:+ s2) = (String.length s1 + String.length s2)%nat.
Proof. induction s1 as [|a s1 IH]; simpl; [reflexivity | by rewrite IH]. Qed.

Lemma append_suffix_inj (x s1 s2 : string) :
  s1 +:+ x = s2 +:+ x -> s1 = s2.
Proof.
  revert s2. induction s1 as [|a s1 IH]; intros [|b s2] H; simpl in *.
  - reflexivity.
  - apply (f_equal String.length) in H.
    rewrite !string_length_app in H. simpl in H. lia.
  - apply (f_equal String.length) in H.
    rewrite !string_length_app in H. simpl in H. lia.
  - change (String a (s1 +:+ x) = String b (s2 +:+ x)) in H.
    injection H as -> H. f_equal. by apply IH.
Qed.

Lemma with_price_sublist latest_prices p_df :
  sublist (map fst (with_price latest_prices p_df)) p_df.
Proof.
  induction p_df as [|h p_df IH]; simpl; [constructor|].
  unfold with_price in *. simpl.
  destruct (latest_prices !! _); simpl;
    [by apply sublist_skip | by apply sublist_cons].
Qed.

Lemma weighted_labels_NoDup latest_prices p_df :
  NoDup (map Ativo p_df) ->
  NoDup (map (fun v => (Ativo (asset v) +:+ ".SA", Peso v))
           (with_weights (with_price latest_prices p_df))).*1.
Proof.
  intros Hnd. unfold with_weights.
  rewrite <-list_fmap_compose, map_map. simpl.
  change (fun x : holding * Qc => Ativo x.1 +:+ ".SA")
    with ((fun a => a +:+ ".SA") ∘ Ativo ∘ (fst : holding * Qc -> holding)).
  rewrite !list_fmap_compose.
  apply NoDup_fmap_2; [intros a b; apply append_suffix_inj|].
  eapply sublist_NoDup; [exact Hnd|].
  apply fmap_sublist, with_price_sublist.
Qed.

(** C5, as stated, fails: no weight vector is supplied.  On the sample
    portfolio the values the estimator weights by are 300 and 700 (the
    third asset, without quotes, is dropped); they do not sum to 1, the
    estimator does not fail, and it normalises them itself to 3/10 and
    7/10. *)
Lemma unnormalised_values_accepted :
  let weighted :=
    with_weights (with_price (sample_prices 100 100) sample_portfolio) in
  map Valor_Atual weighted = [Qc_of_Z 300; Qc_of_Z 700] /\
  sum_list (map Valor_Atual weighted) <> 1 /\
  map Peso weighted = [Q2Qc (3 # 10); Q2Qc (7 # 10)] /\
  is_ok (get_portfolio_stats floor_sqrt true sample_history sample_info
           sample_portfolio) = true.
Proof.
  cbv zeta. split_and!.
  - vm_compute. qc_list_eq.
  - intros H. apply (f_equal this) in H. vm_compute in H. discriminate.
  - vm_compute. qc_list_eq.
  - vm_compute. reflexivity.
Qed.

(** C5, amended.  The estimator takes no weight vector and checks no
    sum: it derives the weights itself, as current value over total value
    of the holdings that have a latest price, so they sum to 1 whenever
    that total is not zero.  For a portfolio of distinct tickers these are
    the weights of the series it multiplies the daily returns by, and a
    result with a non-zero initial value reports that total, with the
    drift and the volatility of the returns so weighted. *)
Theorem weights_are_derived sqrt pad yf_download yf_info p_df :
  let hist_data := yf_download (tickers_of p_df) in
  let latest_prices := default ∅ (last (rows hist_data)) in
  let priced := with_price latest_prices p_df in
  let weights := weights_of (with_weights priced) in
  total_value priced <> 0 ->
  map Peso (with_weights priced)
    = map (fun hp => Quantidade hp.1 * hp.2 / total_value priced) priced /\
  sum_list (map Peso (with_weights priced)) = 1 /\
  (NoDup (map Ativo p_df) ->
   (forall h price,
      (h, price) ∈ priced ->
      weights !! (Ativo h +:+ ".SA")
        = Some (Quantidade h * price / total_value priced)) /\
   forall initial_value drift volatility total_yield,
     get_portfolio_stats sqrt pad yf_download yf_info p_df
       = Ok (initial_value, drift, volatility, total_yield) ->
     initial_value <> 0 ->
     initial_value = total_value priced /\
     drift = np_mean (portfolio_daily_returns pad hist_data weights) /\
     volatility
       = series_std sqrt (portfolio_daily_returns pad hist_data weights)).
Proof.
  intros hist_data latest_prices priced weights Hne. split_and!.
  - apply with_weights_Peso.
  - rewrite with_weights_Peso.
    rewrite (sum_list_div (fun hp => Quantidade hp.1 * hp.2)).
    fold (total_value priced). unfold Qcdiv. by apply Qcmult_inv_r.
  - intros Hnd. split.
    + intros h price Hin. unfold weights, weights_of.
      apply elem_of_list_to_map_1;
        [by apply weighted_labels_NoDup|].
      apply list_elem_of_fmap.
      exists (Valued h price (Quantidade h * price)
                (Quantidade h * price / total_value priced)).
      split; [reflexivity|]. unfold with_weights.
      apply list_elem_of_fmap. by exists (h, price).
    + intros initial_value drift volatility total_yield Hrun Hiv.
      subst weights priced latest_prices hist_data.
      destruct p_df as [|h0 p_df']; [exfalso; by apply Hne|].
      unfold get_portfolio_stats in Hrun.
      destruct (frame_empty _);
        [injection Hrun as <- _ _ _; by destruct Hiv|].
      destruct (decide (total_value _ = 0)) as [E|_];
        [injection Hrun as <- _ _ _; by destruct Hiv|].
      destruct (for_each _ _ _) as [y|e']; [|discriminate].
      injection Hrun as <- <- <- _. done.
Qed.

Lemma weights_are_derived_witness :
  total_value (with_price (sample_prices 100 100) sample_portfolio) <> 0 /\
  sum_list (map Peso (with_weights
     (with_price (sample_prices 100 100) sample_portfolio))) = 1 /\
  weights_of (with_weights
     (with_price (sample_prices 100 100) sample_portfolio)) !! "PETR4.SA"
  = Some (Qc_of_Z 3 * Qc_of_Z 100
          / total_value (with_price (sample_prices 100 100) sample_portfolio)).
Proof.
  assert (H : total_value
                (with_price (sample_prices 100 100) sample_portfolio) <> 0).
  { intros H. apply (f_equal this) in H. vm_compute in H. discriminate. }
  assert (Hnd : NoDup (map Ativo sample_portfolio)).
  { apply (bool_decide_eq_true_1 _ (Decision0 := NoDup_dec _)).
    reflexivity. }
  destruct (weights_are_derived floor_sqrt true sample_history sample_info
              sample_portfolio H) as (_ & Hsum & Hdistinct).
  split; [exact H|]. split; [exact Hsum|].
  apply (proj1 (Hdistinct Hnd)
           (Holding "PETR4" (Qc_of_Z 3) (Qc_of_Z 25)) (Qc_of_Z 100)).
  apply list_elem_of_here.
Defined.

(** ** The blended return series: pandas expression against the
       day-by-day wording *)

Abbreviation row_sum m :=
  (map_fold (fun (_ : string) (x acc : Qc) => x + acc) 0 m).
Abbreviation times_weight :=
  (intersection_with (fun r wi : Qc => Some (r * wi))).

Lemma row_sum_insert (m : series) l x :
  m !! l = None -> row_sum (<[l := x]> m) = x + row_sum m.
Proof.
  intros H. apply (map_fold_insert_L (fun _ x acc => x + acc)); [|done].
  intros. ring.
Qed.

(** One more label in the weights adds its weighted cell to the row sum. *)
Lemma row_sum_weight_insert (row w : series) l wi :
  w !! l = None ->
  row_sum (times_weight row (<[l := wi]> w))
  = wi * default 0 (row !! l) + row_sum (times_weight row w).
Proof.
  intros Hl. destruct (row !! l) as [r|] eqn:Er; simpl.
  - replace (times_weight row (<[l := wi]> w))
      with (<[l := r * wi]> (times_weight row w)).
    + rewrite row_sum_insert; [ring|].
      by rewrite lookup_intersection_with, Er, Hl.
    + apply map_eq. intros k. rewrite lookup_intersection_with.
      destruct (decide (k = l)) as [->|Hk].
      * by rewrite !lookup_insert_eq, Er.
      * by rewrite !lookup_insert_ne, lookup_intersection_with.
  - replace (times_weight row (<[l := wi]> w)) with (times_weight row w).
    + ring.
    + apply map_eq. intros k. rewrite !lookup_intersection_with.
      destruct (decide (k = l)) as [->|Hk].
      * by rewrite lookup_insert_eq, Er, Hl.
      * by rewrite lookup_insert_ne.
Qed.

Lemma row_sum_weights (row : series) (lw : list (string * Qc)) :
  NoDup lw.*1 ->
  row_sum (times_weight row (list_to_map lw))
  = sum_list (map (fun p => p.2 * default 0 (row !! p.1)) lw).
Proof.
  induction lw as [|[l wi] lw IH]; intros Hnd.
  - simpl. replace (times_weight row ∅) with (∅ : series).
    + by rewrite map_fold_empty.
    + apply map_eq. intros k.
      rewrite lookup_intersection_with, !lookup_empty.
      by destruct (row !! k).
  - simpl in Hnd. apply NoDup_cons in Hnd as [Hl Hnd].
    rewrite list_to_map_cons, row_sum_weight_insert.
    + rewrite IH by done. reflexivity.
    + by apply not_elem_of_list_to_map_1.
Qed.

Abbreviation change :=
  (intersection_with (fun c p : Qc => Some (c / p - 1))).

Lemma pct_change_rows (R : list series) (p : series) :
  zip_with change R (p :: R)
  = map (fun t => change (default ∅ (R !! t))
                    (match t with
                     | O => p
                     | S t' => default ∅ (R !! t')
                     end))
        (seq 0 (length R)).
Proof.
  revert p. induction R as [|x R IH]; intros p; [reflexivity|].
  simpl. f_equal. rewrite IH, <-seq_shift, map_map.
  apply map_ext. intros [|t]; reflexivity.
Qed.

Lemma change_row_lookup (hist_data : frame) (c : string) (t : nat) :
  (1 <= t < length (rows hist_data))%nat ->
  change_row (rows hist_data) t !! c = simple_return hist_data c t.
Proof.
  intros Ht. destruct t as [|t]; [lia|].
  unfold change_row, simple_return, price_on.
  rewrite lookup_intersection_with.
  destruct (lookup_lt_is_Some_2 (rows hist_data) (S t)) as [cur ->]; [lia|].
  destruct (lookup_lt_is_Some_2 (rows hist_data) t) as [prev ->]; [lia|].
  simpl. destruct (cur !! c), (prev !! c); reflexivity.
Qed.

Lemma map_filter_reindex {A B C} (r : A -> B) (g : B -> C) (b : A -> C)
    (P : B -> Prop) `{!forall x, Decision (P x)}
    (Q : A -> Prop) `{!forall x, Decision (Q x)} (ts : list A) :
  (forall t, t ∈ ts -> (P (r t) <-> Q t) /\ (Q t -> g (r t) = b t)) ->
  map g (filter P (map r ts)) = map b (filter Q ts).
Proof.
  induction ts as [|t ts IH]; intros Hall; [reflexivity|].
  destruct (Hall t) as [HPQ Hgb]; [by constructor|].
  simpl. rewrite !filter_cons.
  destruct (decide (P (r t))) as [HP|HP], (decide (Q t)) as [HQ|HQ];
    try tauto; simpl; rewrite IH by (intros; apply Hall; by constructor);
    [by rewrite Hgb | reflexivity].
Qed.

Lemma dropna_keeps (hist_data : frame) (t : nat) :
  (1 <= t < length (rows hist_data))%nat ->
  forallb (fun c => bool_decide
                      (is_Some (change_row (rows hist_data) t !! c)))
          (columns hist_data) = true
  <-> Forall (fun c => is_Some (simple_return hist_data c t))
        (columns hist_data).
Proof.
  intros Ht. rewrite forallb_forall, Forall_forall.
  split; intros H c Hc.
  - rewrite <-(change_row_lookup _ _ _ Ht).
    eapply bool_decide_eq_true_1, H. by apply list_elem_of_In.
  - apply bool_decide_eq_true_2. rewrite (change_row_lookup _ _ _ Ht).
    apply H. by apply list_elem_of_In.
Qed.

Lemma blended_row (hist_data : frame) (weighted : list valued) (t : nat) :
  (1 <= t < length (rows hist_data))%nat ->
  NoDup (map (fun v => (Ativo (asset v) +:+ ".SA", Peso v)) weighted).*1 ->
  row_sum (times_weight (change_row (rows hist_data) t)
             (weights_of weighted))
  = blended_return hist_data weighted t.
Proof.
  intros Ht Hnd. unfold weights_of, blended_return.
  rewrite row_sum_weights by done. rewrite map_map. f_equal.
  apply map_ext. intros v. simpl. by rewrite change_row_lookup.
Qed.

(** The pandas expression of the source computes the series of the
    specification, on the prices that [pct_change] sees. *)
Lemma portfolio_daily_returns_series (pad : bool) (hist_data : frame)
    (weighted : list valued) :
  columns hist_data <> [] ->
  NoDup (map (fun v => (Ativo (asset v) +:+ ".SA", Peso v)) weighted).*1 ->
  portfolio_daily_returns pad hist_data (weights_of weighted)
  = portfolio_level_returns (prices_seen pad hist_data) weighted.
Proof.
  intros Hcols Hnd.
  assert (Hcols' : columns (prices_seen pad hist_data) <> [])
    by (by destruct pad).
  unfold portfolio_daily_returns, mul_sum_axis1, dropna, pct_change,
    portfolio_level_returns, return_days.
  cbv zeta. generalize dependent (prices_seen pad hist_data).
  intros data Hdata. cbn [rows columns]. rewrite pct_change_rows.
  fold (change_row (rows data)).
  destruct (rows data) as [|row0 R] eqn:ER; [reflexivity|].
  rewrite <-ER.
  replace (length (rows data)) with (S (length R)) by (by rewrite ER).
  replace (S (length R) - 1)%nat with (length R) by lia.
  cbn [seq map]. rewrite filter_cons_False.
  - apply (map_filter_reindex (change_row (rows data))
             (fun row => row_sum (times_weight row (weights_of weighted)))).
    intros t [Ht1 Ht2]%elem_of_seq.
    assert (Ht : (1 <= t < length (rows data))%nat)
      by (rewrite ER; simpl; lia).
    split; [by apply dropna_keeps | intros _; by apply blended_row].
  - destruct (columns data) as [|c cs]; [done|].
    simpl. unfold change_row.
    rewrite lookup_intersection_with, lookup_empty.
    destruct (default ∅ _ !! c); simpl; discriminate.
Qed.

(** C3.  The drift and the volatility returned are the mean and the
    standard deviation of one series, the portfolio-level daily returns:
    for each trading day, the sum over the holdings of weight times simple
    return [price[t] / price[t-1] - 1].  (Tickers are unique in the
    portfolio, as the portfolio page keeps them.) *)
Theorem drift_volatility_of_portfolio_series sqrt pad yf_download yf_info p_df
    initial_value drift volatility total_yield :
  NoDup (map Ativo p_df) ->
  get_portfolio_stats sqrt pad yf_download yf_info p_df
    = Ok (initial_value, drift, volatility, total_yield) ->
  initial_value <> 0 ->
  let hist_data := yf_download (tickers_of p_df) in
  let weighted :=
    with_weights (with_price (default ∅ (last (rows hist_data))) p_df) in
  let returns :=
    portfolio_level_returns (prices_seen pad hist_data) weighted in
  drift = np_mean returns /\ volatility = series_std sqrt returns.
Proof.
  intros Hnd Hrun Hne. cbv zeta.
  unfold get_portfolio_stats in Hrun.
  destruct p_df as [|h p_df'] eqn:Ep; [by injection Hrun as <-|].
  rewrite <-Ep in *. clear Ep h p_df'.
  set (hist_data := yf_download (tickers_of p_df)) in *.
  destruct (frame_empty hist_data) eqn:Eempty; [by injection Hrun as <-|].
  destruct (decide (total_value _ = 0)); [by injection Hrun as <-|].
  apply bind_Ok in Hrun as (y & _ & Hrun).
  injection Hrun as _ <- <- _.
  rewrite portfolio_daily_returns_series; [done| |].
  - unfold frame_empty in Eempty. by destruct (columns hist_data).
  - by apply weighted_labels_NoDup.
Qed.

Lemma drift_volatility_of_portfolio_series_witness :
  NoDup (map Ativo sample_portfolio) /\
  exists initial_value drift volatility total_yield,
    get_portfolio_stats floor_sqrt true sample_history sample_info sample_portfolio
      = Ok (initial_value, drift, volatility, total_yield) /\
    initial_value <> 0 /\
    let hist_data := sample_history (tickers_of sample_portfolio) in
    let weighted :=
      with_weights
        (with_price (default ∅ (last (rows hist_data))) sample_portfolio) in
    let returns :=
      portfolio_level_returns (prices_seen true hist_data) weighted in
    drift = np_mean returns /\ volatility = series_std floor_sqrt returns.
Proof.
  assert (Hnd : NoDup (map Ativo sample_portfolio)).
  { apply (bool_decide_eq_true_1 _ (Decision0 := NoDup_dec _)).
    reflexivity. }
  split; [exact Hnd|].
  destruct (get_portfolio_stats floor_sqrt true sample_history sample_info
              sample_portfolio)
    as [[[[initial_value drift] volatility] total_yield]|e] eqn:Hrun;
    [|vm_compute in Hrun; discriminate].
  assert (Hne : initial_value <> 0).
  { vm_compute in Hrun. injection Hrun as <- _ _ _. discriminate. }
  exists initial_value, drift, volatility, total_yield.
  split; [reflexivity|]. split; [exact Hne|].
  exact (drift_volatility_of_portfolio_series floor_sqrt true sample_history
           sample_info sample_portfolio initial_value drift volatility
           total_yield Hnd Hrun Hne).
Defined.

(** The volatility is not the weighted average of the holdings' own
    volatilities: for two assets of equal weight whose returns mirror each
    other the estimator reports none, while each asset has some. *)
Lemma volatility_is_not_weight_averaged :
  exists initial_value drift total_yield,
    get_portfolio_stats floor_sqrt true hedged_history sample_info hedged_portfolio
      = Ok (initial_value, drift, Some 0, total_yield) /\
    weight_averaged_volatility floor_sqrt
      (prices_seen true (hedged_history (tickers_of hedged_portfolio)))
      (with_weights (with_price (sample_prices 99 99) hedged_portfolio))
    = Q2Qc (1 # 7).
Proof.
  destruct (get_portfolio_stats floor_sqrt true hedged_history sample_info
              hedged_portfolio)
    as [[[[initial_value drift] volatility] total_yield]|e] eqn:Hrun;
    [|vm_compute in Hrun; discriminate].
  exists initial_value, drift, total_yield. split.
  - vm_compute in Hrun. injection Hrun as _ _ <- _.
    first [ reflexivity
          | do 3 f_equal; try (apply Qc_is_canon; reflexivity) ].
  - apply Qc_is_canon. vm_compute. reflexivity.
Qed.

(** * Further properties of the path simulator *)

(** The final state of a run: the arrays with their entries, and the
    generator moved past one draw per simulated day. *)
Lemma run_state_entries pow normal initial_value drift volatility
    dividend_yield years monthly_contribution num_simulations
    reinvest_dividends rng0 :
  (0 <= years)%Z -> (0 <= num_simulations)%Z ->
  let nd := Z.to_nat (num_days years) in
  let c := Z.to_nat num_simulations in
  exists s,
    run_monte_carlo_simulation_state pow normal initial_value drift
      volatility dividend_yield years monthly_contribution num_simulations
      reinvest_dividends rng0 = Ok s /\
    rng_pos s = (rng0 + c * nd)%nat /\
    shape (nd + 1) c (all_paths s) /\
    shape (nd + 1) c (accumulated_dividends s) /\
    forall d i, (d <= nd)%nat -> (i < c)%nat ->
      get_item (all_paths s) d i
        = Some (walk pow normal initial_value drift volatility
                  dividend_yield monthly_contribution reinvest_dividends
                  (rng0 + i * nd) d).1 /\
      get_item (accumulated_dividends s) d i
        = Some (walk pow normal initial_value drift volatility
                  dividend_yield monthly_contribution reinvest_dividends
                  (rng0 + i * nd) d).2.
Proof.
  intros Hy Hs nd c. unfold run_monte_carlo_simulation_state.
  assert (Hnd : (0 <= num_days years)%Z) by (unfold num_days; lia).
  rewrite np_zeros_nonneg by lia. simpl.
  replace (Z.to_nat (num_days years + 1)) with (S nd) by (unfold nd; lia).
  fold c. simpl. rewrite length_replicate.
  set (s0 := LoopState _ _ _ _ _).
  assert (Hp0 : shape (nd + 1) c (all_paths s0)).
  { simpl. split; [simpl; rewrite length_replicate; lia|].
    intros [|d] row; simpl; [intros [= <-]; apply length_replicate|].
    intros [-> _]%lookup_replicate. apply length_replicate. }
  assert (Hd0 : shape (nd + 1) c (accumulated_dividends s0)).
  { simpl. replace (nd + 1)%nat with (S nd) by lia.
    apply (shape_replicate (S nd)). }
  destruct (sim_loop pow normal initial_value drift volatility
              dividend_yield years monthly_contribution reinvest_dividends
              c c s0 Hp0 Hd0) as (s & Hrun & H); [lia|].
  exists s. split; [exact Hrun|].
  destruct H as (Hp & Hd & Hrng & Hin & Hout).
  split_and!; try done.
  intros d i Hdn Hi. destruct d as [|d].
  - destruct (Hout 0%nat i) as [-> ->]; [lia|]. simpl.
    unfold get_item. simpl. rewrite !lookup_replicate_2 by done. done.
  - apply Hin; [done|lia].
Qed.

(** X1.  A run takes exactly one draw per simulation and trading day:
    it leaves the generator [num_simulations * years * 252] draws further
    than it found it. *)
Theorem run_consumes_one_draw_per_day pow normal initial_value drift
    volatility dividend_yield years monthly_contribution num_simulations
    reinvest_dividends rng0 :
  (0 <= years)%Z -> (0 <= num_simulations)%Z ->
  exists s,
    run_monte_carlo_simulation_state pow normal initial_value drift
      volatility dividend_yield years monthly_contribution num_simulations
      reinvest_dividends rng0 = Ok s /\
    rng_pos s
      = (rng0 + Z.to_nat num_simulations * Z.to_nat (years * 252))%nat.
Proof.
  intros Hy Hs.
  destruct (run_state_entries pow normal initial_value drift volatility
              dividend_yield years monthly_contribution num_simulations
              reinvest_dividends rng0 Hy Hs) as (s & Hrun & Hrng & _).
  exists s. split; [exact Hrun | exact Hrng].
Qed.

Lemma run_consumes_one_draw_per_day_witness :
  (0 <= 1)%Z /\ (0 <= 3)%Z /\
  exists s,
    run_monte_carlo_simulation_state linear_pow sample_draws (Qc_of_Z 10000)
      (1 / Qc_of_Z 1000) (1 / Qc_of_Z 100) (Qc_of_Z 6 / Qc_of_Z 100)
      1 (Qc_of_Z 100) 3 true 5 = Ok s /\
    rng_pos s = 761%nat.
Proof.
  split; [lia|]. split; [lia|].
  destruct (run_consumes_one_draw_per_day linear_pow sample_draws
              (Qc_of_Z 10000) (1 / Qc_of_Z 1000) (1 / Qc_of_Z 100)
              (Qc_of_Z 6 / Qc_of_Z 100) 1 (Qc_of_Z 100) 3 true 5)
    as (s & Hrun & Hrng); [lia|lia|].
  exists s. split; [exact Hrun | exact Hrng].
Defined.

(** The recurrence of one simulation reads only the draws of its own
    days. *)
Lemma walk_ext pow normal1 normal2 initial_value drift volatility
    dividend_yield monthly_contribution reinvest_dividends base d :
  (forall k, (k < d)%nat -> normal1 (base + k)%nat = normal2 (base + k)%nat) ->
  walk pow normal1 initial_value drift volatility dividend_yield
    monthly_contribution reinvest_dividends base d
  = walk pow normal2 initial_value drift volatility dividend_yield
    monthly_contribution reinvest_dividends base d.
Proof.
  induction d as [|d IH]; intros H; [reflexivity|].
  simpl. rewrite IH by (intros; apply H; lia).
  by rewrite (H d) by lia.
Qed.

(** X2.  Simulations are independent of one another: column [i] of the
    ensemble is decided by the draws of its own window of the generator.
    Two generators that agree on that window give the same column, whatever
    they hand out to the other simulations. *)
Theorem simulation_reads_only_its_draws pow normal1 normal2 initial_value
    drift volatility dividend_yield years monthly_contribution
    num_simulations reinvest_dividends rng0 i :
  (0 <= years)%Z -> (0 <= num_simulations)%Z ->
  (i < Z.to_nat num_simulations)%nat ->
  (forall k, (k < Z.to_nat (years * 252))%nat ->
     normal1 (rng0 + i * Z.to_nat (years * 252) + k)%nat
     = normal2 (rng0 + i * Z.to_nat (years * 252) + k)%nat) ->
  exists paths1 divs1 paths2 divs2,
    run_monte_carlo_simulation pow normal1 initial_value drift volatility
      dividend_yield years monthly_contribution num_simulations
      reinvest_dividends rng0 = Ok (paths1, divs1) /\
    run_monte_carlo_simulation pow normal2 initial_value drift volatility
      dividend_yield years monthly_contribution num_simulations
      reinvest_dividends rng0 = Ok (paths2, divs2) /\
    forall d, (d <= Z.to_nat (years * 252))%nat ->
      is_Some (get_item paths1 d i) /\
      get_item paths1 d i = get_item paths2 d i /\
      get_item divs1 d i = get_item divs2 d i.
Proof.
  intros Hy Hs Hi Hdraws.
  destruct (run_entries pow normal1 initial_value drift volatility
              dividend_yield years monthly_contribution num_simulations
              reinvest_dividends rng0 Hy Hs)
    as (paths1 & divs1 & Hrun1 & _ & _ & H1).
  destruct (run_entries pow normal2 initial_value drift volatility
              dividend_yield years monthly_contribution num_simulations
              reinvest_dividends rng0 Hy Hs)
    as (paths2 & divs2 & Hrun2 & _ & _ & H2).
  exists paths1, divs1, paths2, divs2.
  split; [exact Hrun1|]. split; [exact Hrun2|].
  change (years * 252)%Z with (num_days years) in *.
  intros d Hd.
  destruct (H1 d i Hd Hi) as [E1 F1]. destruct (H2 d i Hd Hi) as [E2 F2].
  rewrite E1, F1, E2, F2.
  rewrite (walk_ext pow normal1 normal2)
    by (intros k Hk; apply Hdraws; lia).
  split_and!; eauto.
Qed.

Lemma simulation_reads_only_its_draws_witness :
  (0 <= 1)%Z /\ (0 <= 2)%Z /\ (1 < Z.to_nat 2)%nat /\
  (forall k, (k < Z.to_nat (1 * 252))%nat ->
     sample_draws (0 + 1 * Z.to_nat (1 * 252) + k)%nat
     = windowed_draws (0 + 1 * Z.to_nat (1 * 252) + k)%nat) /\
  exists paths1 divs1 paths2 divs2,
    run_monte_carlo_simulation linear_pow sample_draws (Qc_of_Z 10000)
      (1 / Qc_of_Z 1000) (1 / Qc_of_Z 100) (Qc_of_Z 6 / Qc_of_Z 100)
      1 (Qc_of_Z 100) 2 true 0 = Ok (paths1, divs1) /\
    run_monte_carlo_simulation linear_pow windowed_draws (Qc_of_Z 10000)
      (1 / Qc_of_Z 1000) (1 / Qc_of_Z 100) (Qc_of_Z 6 / Qc_of_Z 100)
      1 (Qc_of_Z 100) 2 true 0 = Ok (paths2, divs2) /\
    get_item paths1 252 1 = get_item paths2 252 1.
Proof.
  assert (Hw : forall k, (k < Z.to_nat (1 * 252))%nat ->
     sample_draws (0 + 1 * Z.to_nat (1 * 252) + k)%nat
     = windowed_draws (0 + 1 * Z.to_nat (1 * 252) + k)%nat).
  { intros k Hk. change (Z.to_nat (1 * 252)) with 252%nat in *.
    unfold windowed_draws.
    replace ((252 <=? 0 + 1 * 252 + k)%nat) with true
      by (symmetry; apply Nat.leb_le; lia).
    replace ((0 + 1 * 252 + k <? 504)%nat) with true
      by (symmetry; apply Nat.ltb_lt; lia).
    reflexivity. }
  split; [lia|]. split; [lia|]. split; [simpl; lia|]. split; [exact Hw|].
  destruct (simulation_reads_only_its_draws linear_pow sample_draws
              windowed_draws (Qc_of_Z 10000) (1 / Qc_of_Z 1000)
              (1 / Qc_of_Z 100) (Qc_of_Z 6 / Qc_of_Z 100) 1 (Qc_of_Z 100) 2
              true 0 1)
    as (paths1 & divs1 & paths2 & divs2 & Hrun1 & Hrun2 & Hcol);
    [lia|lia|simpl; lia|exact Hw|].
  exists paths1, divs1, paths2, divs2.
  split; [exact Hrun1|]. split; [exact Hrun2|].
  destruct (Hcol 252%nat) as (_ & Heq & _); [simpl; lia|]. exact Heq.
Defined.

(** Without volatility the draws do not matter. *)
Lemma walk_no_volatility pow normal1 normal2 initial_value drift
    dividend_yield monthly_contribution reinvest_dividends base1 base2 d :
  walk pow normal1 initial_value drift 0 dividend_yield
    monthly_contribution reinvest_dividends base1 d
  = walk pow normal2 initial_value drift 0 dividend_yield
    monthly_contribution reinvest_dividends base2 d.
Proof.
  induction d as [|d IH]; [reflexivity|].
  simpl. rewrite IH. unfold day_update. by rewrite !Qcmult_0_l.
Qed.

(** X3.  With zero volatility every simulated path is the same: all the
    columns of the ensemble are equal, and they are the same whatever
    the generator hands out. *)
Theorem zero_volatility_paths_identical pow normal1 normal2 initial_value
    drift dividend_yield years monthly_contribution num_simulations
    reinvest_dividends rng1 rng2 :
  (0 <= years)%Z -> (0 <= num_simulations)%Z ->
  exists paths divs,
    run_monte_carlo_simulation pow normal1 initial_value drift 0
      dividend_yield years monthly_contribution num_simulations
      reinvest_dividends rng1 = Ok (paths, divs) /\
    run_monte_carlo_simulation pow normal2 initial_value drift 0
      dividend_yield years monthly_contribution num_simulations
      reinvest_dividends rng2 = Ok (paths, divs) /\
    forall d i j,
      (d <= Z.to_nat (years * 252))%nat ->
      (i < Z.to_nat num_simulations)%nat ->
      (j < Z.to_nat num_simulations)%nat ->
      is_Some (get_item paths d i) /\
      get_item paths d i = get_item paths d j /\
      get_item divs d i = get_item divs d j.
Proof.
  intros Hy Hs.
  destruct (run_entries pow normal1 initial_value drift 0 dividend_yield
              years monthly_contribution num_simulations reinvest_dividends
              rng1 Hy Hs) as (paths & divs & Hrun1 & Hp1 & Hd1 & H1).
  destruct (run_entries pow normal2 initial_value drift 0 dividend_yield
              years monthly_contribution num_simulations reinvest_dividends
              rng2 Hy Hs) as (paths2 & divs2 & Hrun2 & Hp2 & Hd2 & H2).
  change (years * 252)%Z with (num_days years) in *.
  assert (paths2 = paths /\ divs2 = divs) as [-> ->].
  { split; eapply matrix_ext; eauto; intros d i Hd Hi.
    - destruct (H1 d i) as [-> _]; [lia|done|].
      destruct (H2 d i) as [-> _]; [lia|done|].
      by rewrite (walk_no_volatility pow normal2 normal1 _ _ _ _ _
                    (rng2 + i * Z.to_nat (num_days years))
                    (rng1 + i * Z.to_nat (num_days years))).
    - destruct (H1 d i) as [_ ->]; [lia|done|].
      destruct (H2 d i) as [_ ->]; [lia|done|].
      by rewrite (walk_no_volatility pow normal2 normal1 _ _ _ _ _
                    (rng2 + i * Z.to_nat (num_days years))
                    (rng1 + i * Z.to_nat (num_days years))). }
  exists paths, divs. split; [exact Hrun1|]. split; [exact Hrun2|].
  intros d i j Hd Hi Hj.
  destruct (H1 d i Hd Hi) as [Ei Fi]. destruct (H1 d j Hd Hj) as [Ej Fj].
  rewrite Ei, Fi, Ej, Fj.
  rewrite (walk_no_volatility pow normal1 normal1 _ _ _ _ _
             (rng1 + i * Z.to_nat (num_days years))
             (rng1 + j * Z.to_nat (num_days years))).
  split_and!; eauto.
Qed.

Lemma zero_volatility_paths_identical_witness :
  (0 <= 1)%Z /\ (0 <= 3)%Z /\
  exists paths divs,
    run_monte_carlo_simulation linear_pow sample_draws (Qc_of_Z 10000)
      (1 / Qc_of_Z 1000) 0 (Qc_of_Z 6 / Qc_of_Z 100) 1 (Qc_of_Z 100) 3
      true 0 = Ok (paths, divs) /\
    get_item paths 252 0 = get_item paths 252 2.
Proof.
  split; [lia|]. split; [lia|].
  destruct (zero_volatility_paths_identical linear_pow sample_draws
              windowed_draws (Qc_of_Z 10000) (1 / Qc_of_Z 1000)
              (Qc_of_Z 6 / Qc_of_Z 100) 1 (Qc_of_Z 100) 3 true 0 7)
    as (paths & divs & Hrun & _ & Hcol); [lia|lia|].
  exists paths, divs. split; [exact Hrun|].
  destruct (Hcol 252%nat 0%nat 2%nat) as (_ & Heq & _);
    [simpl; lia|simpl; lia|simpl; lia|].
  exact Heq.
Defined.

(** With no contribution the recurrence is linear in the initial value. *)
Lemma walk_scales pow normal k initial_value drift volatility
    dividend_yield reinvest_dividends base d :
  walk pow normal (k * initial_value) drift volatility dividend_yield 0
    reinvest_dividends base d
  = (k * (walk pow normal initial_value drift volatility dividend_yield 0
            reinvest_dividends base d).1,
     k * (walk pow normal initial_value drift volatility dividend_yield 0
            reinvest_dividends base d).2).
Proof.
  induction d as [|d IH]; simpl.
  - f_equal; ring.
  - rewrite IH. unfold day_update. cbn [fst snd].
    destruct (S d mod 21 =? 0)%nat; [destruct reinvest_dividends|];
      cbn [fst snd]; f_equal; ring.
Qed.

(** X4.  Without monthly contributions the projection is proportional to
    the initial value: multiplying the initial value by [k] multiplies
    every entry of the value paths and of the dividend paths by [k]. *)
Theorem projection_scales_with_initial_value pow normal k initial_value
    drift volatility dividend_yield years num_simulations
    reinvest_dividends rng0 :
  (0 <= years)%Z -> (0 <= num_simulations)%Z ->
  exists paths divs paths_k divs_k,
    run_monte_carlo_simulation pow normal initial_value drift volatility
      dividend_yield years 0 num_simulations reinvest_dividends rng0
      = Ok (paths, divs) /\
    run_monte_carlo_simulation pow normal (k * initial_value) drift
      volatility dividend_yield years 0 num_simulations reinvest_dividends
      rng0 = Ok (paths_k, divs_k) /\
    forall d i,
      (d <= Z.to_nat (years * 252))%nat ->
      (i < Z.to_nat num_simulations)%nat ->
      is_Some (get_item paths d i) /\
      get_item paths_k d i = Qcmult k <$> get_item paths d i /\
      get_item divs_k d i = Qcmult k <$> get_item divs d i.
Proof.
  intros Hy Hs.
  destruct (run_entries pow normal initial_value drift volatility
              dividend_yield years 0 num_simulations reinvest_dividends
              rng0 Hy Hs) as (paths & divs & Hrun1 & _ & _ & H1).
  destruct (run_entries pow normal (k * initial_value) drift volatility
              dividend_yield years 0 num_simulations reinvest_dividends
              rng0 Hy Hs) as (paths_k & divs_k & Hrun2 & _ & _ & H2).
  exists paths, divs, paths_k, divs_k.
  split; [exact Hrun1|]. split; [exact Hrun2|].
  change (years * 252)%Z with (num_days years) in *.
  intros d i Hd Hi.
  destruct (H1 d i Hd Hi) as [E1 F1]. destruct (H2 d i Hd Hi) as [E2 F2].
  rewrite E1, F1, E2, F2, walk_scales. split_and!; eauto.
Qed.

Lemma projection_scales_with_initial_value_witness :
  (0 <= 1)%Z /\ (0 <= 2)%Z /\
  exists paths divs paths_k divs_k,
    run_monte_carlo_simulation linear_pow sample_draws (Qc_of_Z 10000)
      (1 / Qc_of_Z 1000) (1 / Qc_of_Z 100) (Qc_of_Z 6 / Qc_of_Z 100)
      1 0 2 true 0 = Ok (paths, divs) /\
    run_monte_carlo_simulation linear_pow sample_draws
      (Qc_of_Z 3 * Qc_of_Z 10000)
      (1 / Qc_of_Z 1000) (1 / Qc_of_Z 100) (Qc_of_Z 6 / Qc_of_Z 100)
      1 0 2 true 0 = Ok (paths_k, divs_k) /\
    get_item paths_k 252 1 = Qcmult (Qc_of_Z 3) <$> get_item paths 252 1.
Proof.
  split; [lia|]. split; [lia|].
  destruct (projection_scales_with_initial_value linear_pow sample_draws
              (Qc_of_Z 3) (Qc_of_Z 10000) (1 / Qc_of_Z 1000)
              (1 / Qc_of_Z 100) (Qc_of_Z 6 / Qc_of_Z 100) 1 2 true 0)
    as (paths & divs & paths_k & divs_k & Hrun1 & Hrun2 & Hcol);
    [lia|lia|].
  exists paths, divs, paths_k, divs_k.
  split; [exact Hrun1|]. split; [exact Hrun2|].
  destruct (Hcol 252%nat 1%nat) as (_ & Heq & _); [simpl; lia|simpl; lia|].
  exact Heq.
Defined.

(** ** Signs *)

Lemma Qc_mul_nonneg (a b : Qc) : 0 <= a -> 0 <= b -> 0 <= a * b.
Proof. intros. qc2q. by apply Qmult_le_0_compat. Qed.

Lemma Qc_add_nonneg (a b : Qc) : 0 <= a -> 0 <= b -> 0 <= a + b.
Proof. intros. qc2q. lra. Qed.

Lemma Qc_mul_le_mono_r (a b c : Qc) : a <= b -> 0 <= c -> a * c <= b * c.
Proof. intros. by apply Qcmult_le_compat_r. Qed.

Lemma Qc_add_le_mono (a b c d : Qc) : a <= b -> c <= d -> a + c <= b + d.
Proof. intros. qc2q. lra. Qed.

Lemma Qc_le_add_nonneg (a b : Qc) : 0 <= b -> a <= a + b.
Proof. intros. qc2q. lra. Qed.

Lemma monthly_rate_nonneg pow dividend_yield :
  1 <= pow (1 + dividend_yield) (1 / Qc_of_Z 12) ->
  0 <= monthly_rate pow dividend_yield.
Proof.
  unfold monthly_rate. generalize (pow (1 + dividend_yield) (1 / Qc_of_Z 12)).
  intros x Hx. clear pow dividend_yield. qc2q. lra.
Qed.

(** While every daily factor [1 + drift + volatility * z] is
    non-negative, values and cumulative dividends stay non-negative and
    the dividends never go down. *)
Lemma walk_nonneg pow normal initial_value drift volatility dividend_yield
    monthly_contribution reinvest_dividends base d :
  0 <= initial_value -> 0 <= monthly_contribution ->
  0 <= monthly_rate pow dividend_yield ->
  (forall k, 0 <= 1 + (drift + volatility * normal k)) ->
  let w := walk pow normal initial_value drift volatility dividend_yield
             monthly_contribution reinvest_dividends base in
  0 <= (w d).1 /\ 0 <= (w d).2 /\ (w d).2 <= (w (S d)).2.
Proof.
  intros Hiv Hmc Hr Hz w.
  assert (Hstep : forall d, 0 <= (w d).1 -> 0 <= (w d).2 ->
            0 <= (w (S d)).1 /\ (w d).2 <= (w (S d)).2).
  { intros n Hv Hd. unfold w. cbn [walk]. fold w. unfold day_update.
    pose proof (Qc_mul_nonneg _ _ Hv (Hz (base + n)%nat)) as Hvf.
    pose proof (Qc_mul_nonneg _ _ Hvf Hr) as Hdiv.
    destruct (S n mod 21 =? 0)%nat; cbn [fst snd].
    - split; [|by apply Qc_le_add_nonneg].
      destruct reinvest_dividends; auto using Qc_add_nonneg.
    - split; [done | apply Qcle_refl]. }
  assert (Hall : forall n, 0 <= (w n).1 /\ 0 <= (w n).2).
  { induction n as [|n [IHv IHd]]; [split; [exact Hiv | apply Qcle_refl]|].
    destruct (Hstep n IHv IHd) as [Hv' Hd']. split; [exact Hv'|].
    exact (Qcle_trans _ _ _ IHd Hd'). }
  destruct (Hall d) as [Hv Hd]. destruct (Hstep d Hv Hd) as [_ Hmono].
  auto.
Qed.

(** X5.  While every daily factor [1 + drift + volatility * z] is
    non-negative, with a non-negative initial value, contribution and
    monthly dividend rate, no entry of the ensemble is negative and the
    cumulative dividends of a simulation never decrease from one day to
    the next. *)
Theorem ensemble_nonnegative_dividends_monotone pow normal initial_value
    drift volatility dividend_yield years monthly_contribution
    num_simulations reinvest_dividends rng0 :
  (0 <= years)%Z -> (0 <= num_simulations)%Z ->
  0 <= initial_value -> 0 <= monthly_contribution ->
  1 <= pow (1 + dividend_yield) (1 / Qc_of_Z 12) ->
  (forall k, 0 <= 1 + drift + volatility * normal k) ->
  exists paths divs,
    run_monte_carlo_simulation pow normal initial_value drift volatility
      dividend_yield years monthly_contribution num_simulations
      reinvest_dividends rng0 = Ok (paths, divs) /\
    forall d i,
      (d <= Z.to_nat (years * 252))%nat ->
      (i < Z.to_nat num_simulations)%nat ->
      exists value dividends,
        get_item paths d i = Some value /\
        get_item divs d i = Some dividends /\
        0 <= value /\ 0 <= dividends /\
        ((d < Z.to_nat (years * 252))%nat ->
         exists dividends_next,
           get_item divs (S d) i = Some dividends_next /\
           dividends <= dividends_next).
Proof.
  intros Hy Hs Hiv Hmc Hpow Hz.
  destruct (run_entries pow normal initial_value drift volatility
              dividend_yield years monthly_contribution num_simulations
              reinvest_dividends rng0 Hy Hs)
    as (paths & divs & Hrun & _ & _ & Hent).
  exists paths, divs. split; [exact Hrun|].
  change (years * 252)%Z with (num_days years) in *.
  intros d i Hd Hi. destruct (Hent d i Hd Hi) as [Ev Ed].
  destruct (walk_nonneg pow normal initial_value drift volatility
              dividend_yield monthly_contribution reinvest_dividends
              (rng0 + i * Z.to_nat (num_days years)) d Hiv Hmc
              (monthly_rate_nonneg _ _ Hpow))
    as (Hv & Hdv & Hmono).
  { intros k. rewrite Qcplus_assoc. apply Hz. }
  eexists _, _. split; [exact Ev|]. split; [exact Ed|].
  split; [exact Hv|]. split; [exact Hdv|].
  intros Hlt. destruct (Hent (S d) i) as [_ Ed']; [lia|done|].
  eexists. split; [exact Ed' | exact Hmono].
Qed.

Lemma sample_draws_lower (k : nat) : Q2Qc (- 3 # 2) <= sample_draws k.
Proof.
  unfold sample_draws.
  assert (H : 0 <= Qc_of_Z (Z.of_nat (k mod 7)))
    by (rewrite <-Z2Qc_inj_0; apply (proj1 (Z2Qc_inj_le _ _)); lia).
  generalize dependent (Qc_of_Z (Z.of_nat (k mod 7))). intros x Hx.
  assert (E1 : Qc_of_Z 3 = Q2Qc 3) by (apply Qc_is_canon; reflexivity).
  assert (E2 : / Qc_of_Z 2 = Q2Qc (1 # 2))
    by (apply Qc_is_canon; reflexivity).
  unfold Qcdiv. rewrite E1, E2. clear E1 E2. qc2q. lra.
Qed.

Lemma sample_factor_nonneg (k : nat) :
  0 <= 1 + 1 / Qc_of_Z 1000 + 1 / Qc_of_Z 100 * sample_draws k.
Proof.
  pose proof (sample_draws_lower k) as H.
  generalize dependent (sample_draws k). intros z Hz.
  replace (1 / Qc_of_Z 1000) with (Q2Qc (1 # 1000))
    by (apply Qc_is_canon; reflexivity).
  replace (1 / Qc_of_Z 100) with (Q2Qc (1 # 100))
    by (apply Qc_is_canon; reflexivity).
  qc2q. lra.
Qed.

Lemma sample_rate_nonneg :
  1 <= linear_pow (1 + Qc_of_Z 6 / Qc_of_Z 100) (1 / Qc_of_Z 12).
Proof. unfold Qcle. vm_compute. discriminate. Qed.

Lemma ensemble_nonnegative_dividends_monotone_witness :
  (0 <= 1)%Z /\ (0 <= 2)%Z /\ 0 <= Qc_of_Z 10000 /\ 0 <= Qc_of_Z 100 /\
  1 <= linear_pow (1 + Qc_of_Z 6 / Qc_of_Z 100) (1 / Qc_of_Z 12) /\
  (forall k, 0 <= 1 + 1 / Qc_of_Z 1000 + 1 / Qc_of_Z 100 * sample_draws k) /\
  exists paths divs,
    run_monte_carlo_simulation linear_pow sample_draws (Qc_of_Z 10000)
      (1 / Qc_of_Z 1000) (1 / Qc_of_Z 100) (Qc_of_Z 6 / Qc_of_Z 100)
      1 (Qc_of_Z 100) 2 true 0 = Ok (paths, divs) /\
    exists value, get_item paths 252 1 = Some value /\ 0 <= value.
Proof.
  assert (H1 : 0 <= Qc_of_Z 10000) by discriminate.
  assert (H2 : 0 <= Qc_of_Z 100) by discriminate.
  split; [lia|]. split; [lia|]. split; [exact H1|]. split; [exact H2|].
  split; [exact sample_rate_nonneg|]. split; [exact sample_factor_nonneg|].
  destruct (ensemble_nonnegative_dividends_monotone linear_pow sample_draws
              (Qc_of_Z 10000) (1 / Qc_of_Z 1000) (1 / Qc_of_Z 100)
              (Qc_of_Z 6 / Qc_of_Z 100) 1 (Qc_of_Z 100) 2 true 0)
    as (paths & divs & Hrun & Hent);
    [lia|lia|exact H1|exact H2|exact sample_rate_nonneg
    |exact sample_factor_nonneg|].
  exists paths, divs. split; [exact Hrun|].
  destruct (Hent 252%nat 1%nat) as (v & dv & Ev & _ & Hv & _);
    [simpl; lia|simpl; lia|].
  exists v. split; [exact Ev | exact Hv].
Defined.

(** Reinvesting can only add to the value, hence to later dividends. *)
Lemma walk_reinvest_ge pow normal initial_value drift volatility
    dividend_yield monthly_contribution base d :
  0 <= initial_value -> 0 <= monthly_contribution ->
  0 <= monthly_rate pow dividend_yield ->
  (forall k, 0 <= 1 + (drift + volatility * normal k)) ->
  let plain := walk pow normal initial_value drift volatility dividend_yield
                 monthly_contribution false base in
  let reinvested := walk pow normal initial_value drift volatility
                      dividend_yield monthly_contribution true base in
  (plain d).1 <= (reinvested d).1 /\ (plain d).2 <= (reinvested d).2.
Proof.
  intros Hiv Hmc Hr Hz plain reinvested.
  induction d as [|d [IHv IHd]]; [split; apply Qcle_refl|].
  destruct (walk_nonneg pow normal initial_value drift volatility
              dividend_yield monthly_contribution false base d Hiv Hmc Hr Hz)
    as (Hpv & _ & _).
  fold plain in Hpv.
  unfold plain, reinvested. cbn [walk]. fold plain. fold reinvested.
  unfold day_update.
  pose proof (Hz (base + d)%nat) as Hf.
  pose proof (Qc_mul_le_mono_r _ _ _ IHv Hf) as Hvf.
  pose proof (Qc_mul_nonneg _ _ Hpv Hf) as Hpf.
  pose proof (Qc_mul_le_mono_r _ _ _ Hvf Hr) as Hdiv.
  assert (Hrf : 0 <= (reinvested d).1
                     * (1 + (drift + volatility * normal (base + d)%nat))
                     * monthly_rate pow dividend_yield).
  { apply Qc_mul_nonneg; [|done]. eapply Qcle_trans; [exact Hpf | exact Hvf]. }
  destruct (S d mod 21 =? 0)%nat; cbn [fst snd].
  - split; [|by apply Qc_add_le_mono].
    eapply Qcle_trans; [|by apply Qc_le_add_nonneg].
    apply Qc_add_le_mono; [done | apply Qcle_refl].
  - split; done.
Qed.

(** X6.  Under the same sign conditions, reinvesting dividends never
    lowers the projection: entry by entry, the value and the cumulative
    dividends of the run with [reinvest_dividends = true] are at least
    those of the run without. *)
Theorem reinvesting_never_lowers_projection pow normal initial_value drift
    volatility dividend_yield years monthly_contribution num_simulations
    rng0 :
  (0 <= years)%Z -> (0 <= num_simulations)%Z ->
  0 <= initial_value -> 0 <= monthly_contribution ->
  1 <= pow (1 + dividend_yield) (1 / Qc_of_Z 12) ->
  (forall k, 0 <= 1 + drift + volatility * normal k) ->
  exists paths divs paths_r divs_r,
    run_monte_carlo_simulation pow normal initial_value drift volatility
      dividend_yield years monthly_contribution num_simulations false rng0
      = Ok (paths, divs) /\
    run_monte_carlo_simulation pow normal initial_value drift volatility
      dividend_yield years monthly_contribution num_simulations true rng0
      = Ok (paths_r, divs_r) /\
    forall d i,
      (d <= Z.to_nat (years * 252))%nat ->
      (i < Z.to_nat num_simulations)%nat ->
      exists value dividends value_r dividends_r,
        get_item paths d i = Some value /\
        get_item divs d i = Some dividends /\
        get_item paths_r d i = Some value_r /\
        get_item divs_r d i = Some dividends_r /\
        value <= value_r /\ dividends <= dividends_r.
Proof.
  intros Hy Hs Hiv Hmc Hpow Hz.
  destruct (run_entries pow normal initial_value drift volatility
              dividend_yield years monthly_contribution num_simulations
              false rng0 Hy Hs) as (paths & divs & Hrun1 & _ & _ & H1).
  destruct (run_entries pow normal initial_value drift volatility
              dividend_yield years monthly_contribution num_simulations
              true rng0 Hy Hs) as (paths_r & divs_r & Hrun2 & _ & _ & H2).
  exists paths, divs, paths_r, divs_r.
  split; [exact Hrun1|]. split; [exact Hrun2|].
  change (years * 252)%Z with (num_days years) in *.
  intros d i Hd Hi.
  destruct (H1 d i Hd Hi) as [E1 F1]. destruct (H2 d i Hd Hi) as [E2 F2].
  destruct (walk_reinvest_ge pow normal initial_value drift volatility
              dividend_yield monthly_contribution
              (rng0 + i * Z.to_nat (num_days years)) d Hiv Hmc
              (monthly_rate_nonneg _ _ Hpow)) as [Hv Hdv].
  { intros k. rewrite Qcplus_assoc. apply Hz. }
  eexists _, _, _, _. split_and!; eauto.
Qed.

Lemma reinvesting_never_lowers_projection_witness :
  (0 <= 1)%Z /\ (0 <= 2)%Z /\ 0 <= Qc_of_Z 10000 /\ 0 <= Qc_of_Z 100 /\
  1 <= linear_pow (1 + Qc_of_Z 6 / Qc_of_Z 100) (1 / Qc_of_Z 12) /\
  (forall k, 0 <= 1 + 1 / Qc_of_Z 1000 + 1 / Qc_of_Z 100 * sample_draws k) /\
  exists paths divs paths_r divs_r,
    run_monte_carlo_simulation linear_pow sample_draws (Qc_of_Z 10000)
      (1 / Qc_of_Z 1000) (1 / Qc_of_Z 100) (Qc_of_Z 6 / Qc_of_Z 100)
      1 (Qc_of_Z 100) 2 false 0 = Ok (paths, divs) /\
    run_monte_carlo_simulation linear_pow sample_draws (Qc_of_Z 10000)
      (1 / Qc_of_Z 1000) (1 / Qc_of_Z 100) (Qc_of_Z 6 / Qc_of_Z 100)
      1 (Qc_of_Z 100) 2 true 0 = Ok (paths_r, divs_r) /\
    exists value value_r,
      get_item paths 252 1 = Some value /\
      get_item paths_r 252 1 = Some value_r /\
      value <= value_r.
Proof.
  assert (H1 : 0 <= Qc_of_Z 10000) by discriminate.
  assert (H2 : 0 <= Qc_of_Z 100) by discriminate.
  split; [lia|]. split; [lia|]. split; [exact H1|]. split; [exact H2|].
  split; [exact sample_rate_nonneg|]. split; [exact sample_factor_nonneg|].
  destruct (reinvesting_never_lowers_projection linear_pow sample_draws
              (Qc_of_Z 10000) (1 / Qc_of_Z 1000) (1 / Qc_of_Z 100)
              (Qc_of_Z 6 / Qc_of_Z 100) 1 (Qc_of_Z 100) 2 0)
    as (paths & divs & paths_r & divs_r & Hrun1 & Hrun2 & Hent);
    [lia|lia|exact H1|exact H2|exact sample_rate_nonneg
    |exact sample_factor_nonneg|].
  exists paths, divs, paths_r, divs_r.
  split; [exact Hrun1|]. split; [exact Hrun2|].
  destruct (Hent 252%nat 1%nat)
    as (v & dv & vr & dvr & Ev & _ & Evr & _ & Hle & _);
    [simpl; lia|simpl; lia|].
  exists v, vr. split; [exact Ev|]. split; [exact Evr | exact Hle].
Defined.

(** * Further properties of the outcome summary and the page *)

Lemma percent_in_range (q : Z) :
  (0 <= q <= 100)%Z -> 0 <= Qc_of_Z q /\ Qc_of_Z q <= Qc_of_Z 100.
Proof.
  intros H. rewrite <-Z2Qc_inj_0.
  split; apply (proj1 (Z2Qc_inj_le _ _)); lia.
Qed.

Lemma np_percentile_total (a : list Qc) (q : Z) :
  a <> [] -> (0 <= q <= 100)%Z ->
  exists v, np_percentile a (Qc_of_Z q) = Ok (Some v).
Proof.
  intros Ha Hq. destruct (percent_in_range q Hq) as [H0 H1].
  destruct (np_percentile_mono a _ _ Ha H0 (Qcle_refl _) H1)
    as (v & _ & Hv & _).
  eauto.
Qed.

Lemma np_percentile_axis1_total (m : matrix) (q : Z) :
  (forall row, row ∈ m -> row <> []) -> (0 <= q <= 100)%Z ->
  exists ys, np_percentile_axis1 m (Qc_of_Z q) = Ok ys /\
             length ys = length m.
Proof.
  intros Hrows Hq. apply map_result_total. intros row Hrow.
  destruct (np_percentile_total row q (Hrows row Hrow) Hq) as [v ->].
  reflexivity.
Qed.

Lemma shape_rows_nonempty r c (m : matrix) :
  shape r c m -> (0 < c)%nat -> forall row, row ∈ m -> row <> [].
Proof.
  intros [_ Hrows] Hc row [d Hd]%list_elem_of_lookup ->.
  apply Hrows in Hd. simpl in Hd. lia.
Qed.

Lemma last_row_shape r c (m : matrix) :
  shape (r + 1) c m ->
  exists row, last_row m = Ok row /\ m !! r = Some row /\ length row = c.
Proof.
  intros [Hlen Hrows]. unfold last_row. rewrite last_lookup, Hlen.
  replace (pred (r + 1)) with r by lia.
  destruct (lookup_lt_is_Some_2 m r) as [row Hrow]; [lia|].
  rewrite Hrow. eauto.
Qed.

(** X7.  When the estimator returns numbers for the drift and the
    volatility (neither is missing) together with a non-zero initial
    value, for a portfolio of distinct tickers, and the sidebar gives a
    horizon of at least zero years and at least one simulation, the
    button handler never fails: it shows the results of the very ensemble
    the simulator returns on the estimator's figures, the three terminal
    scenarios are ordered (pessimistic <= median <= optimistic), there is
    one band value per trading day, the dividend average exists, and the
    generator ends one draw per simulated day further. *)
Theorem simulation_page_succeeds sqrt pad yf_download yf_info p_df pow normal
    initial_value drift volatility dividend_yield ui rng0 :
  NoDup (map Ativo p_df) ->
  get_portfolio_stats sqrt pad yf_download yf_info p_df
    = Ok (initial_value, Some drift, Some volatility, dividend_yield) ->
  initial_value <> 0 ->
  (0 <= projection_years_option ui)%Z ->
  (0 < num_simulations_option ui)%Z ->
  let nd := Z.to_nat (projection_years_option ui * 252) in
  let c := Z.to_nat (num_simulations_option ui) in
  exists paths divs summary,
    simulation_button pow normal
      (initial_value, drift, volatility, dividend_yield) ui rng0
      = Ok (PageResults initial_value paths divs summary,
            (rng0 + c * nd)%nat) /\
    run_monte_carlo_simulation pow normal initial_value drift volatility
      dividend_yield (projection_years_option ui)
      (monthly_contribution_option ui) (num_simulations_option ui)
      (reinvest_dividends_option ui) rng0 = Ok (paths, divs) /\
    (exists a b c',
       p10 summary = Some a /\ p50 summary = Some b /\
       p90 summary = Some c' /\ a <= b /\ b <= c') /\
    is_Some (avg_total_dividends summary) /\
    length (p10_path summary) = (nd + 1)%nat /\
    length (p50_path summary) = (nd + 1)%nat /\
    length (p90_path summary) = (nd + 1)%nat.
Proof.
  intros _ _ Hne Hy Hs nd c.
  destruct (run_state_entries pow normal initial_value drift volatility
              dividend_yield (projection_years_option ui)
              (monthly_contribution_option ui) (num_simulations_option ui)
              (reinvest_dividends_option ui) rng0 Hy)
    as (s & Hrun & Hrng & Hp & Hd & _); [lia|].
  change (Z.to_nat (num_days (projection_years_option ui))) with nd in *.
  fold c in Hrng, Hp, Hd.
  assert (Hc : (0 < c)%nat) by (unfold c; lia).
  destruct (last_row_shape _ _ _ Hp) as (final_results & Hlast & _ & Hlen).
  destruct (last_row_shape _ _ _ Hd) as (final_divs & Hlastd & _ & Hlend).
  assert (Hfr : final_results <> []) by (intros ->; simpl in Hlen; lia).
  destruct (percent_in_range 10) as [Q0 _]; [lia|].
  destruct (percent_in_range 50) as [R0 R2]; [lia|].
  destruct (percent_in_range 90) as [_ S2]; [lia|].
  assert (Q1 : Qc_of_Z 10 <= Qc_of_Z 50)
    by (apply (proj1 (Z2Qc_inj_le _ _)); lia).
  assert (R1 : Qc_of_Z 50 <= Qc_of_Z 90)
    by (apply (proj1 (Z2Qc_inj_le _ _)); lia).
  destruct (np_percentile_mono final_results _ _ Hfr Q0 Q1 R2)
    as (a & b & Ha & Hb & Hab).
  destruct (np_percentile_mono final_results _ _ Hfr R0 R1 S2)
    as (b' & c' & Hb' & Hc' & Hbc).
  rewrite Hb in Hb'. injection Hb' as <-.
  pose proof (shape_rows_nonempty _ _ _ Hp Hc) as Hrows.
  destruct (np_percentile_axis1_total (all_paths s) 10 Hrows)
    as (y10 & H10 & L10); [lia|].
  destruct (np_percentile_axis1_total (all_paths s) 50 Hrows)
    as (y50 & H50 & L50); [lia|].
  destruct (np_percentile_axis1_total (all_paths s) 90 Hrows)
    as (y90 & H90 & L90); [lia|].
  exists (all_paths s), (accumulated_dividends s).
  eexists. split_and!.
  - unfold simulation_button. rewrite decide_False by done.
    rewrite Hrun. simpl. rewrite Hlast, Hlastd. simpl.
    rewrite Ha, Hb, Hc'. simpl. rewrite H10, H50, H90. simpl.
    rewrite Hrng. reflexivity.
  - unfold run_monte_carlo_simulation. by rewrite Hrun.
  - simpl. exists a, b, c'. auto.
  - simpl. unfold np_mean. destruct final_divs; [simpl in Hlend; lia|eauto].
  - simpl. rewrite L10. apply Hp.
  - simpl. rewrite L50. apply Hp.
  - simpl. rewrite L90. apply Hp.
Qed.

Lemma simulation_page_succeeds_witness :
  exists drift volatility paths divs summary,
    get_portfolio_stats floor_sqrt true sample_history sample_info
      sample_portfolio
      = Ok (Qc_of_Z 1000, Some drift, Some volatility, Q2Qc (59 # 1000)) /\
    simulation_button linear_pow sample_draws
      (Qc_of_Z 1000, drift, volatility, Q2Qc (59 # 1000))
      (Sidebar 1 (Qc_of_Z 100) 3 true) 0
      = Ok (PageResults (Qc_of_Z 1000) paths divs summary, 756%nat) /\
    length (p50_path summary) = 253%nat.
Proof.
  assert (Hnd : NoDup (map Ativo sample_portfolio)).
  { apply (bool_decide_eq_true_1 _ (Decision0 := NoDup_dec _)).
    reflexivity. }
  assert (Hiv : Qc_of_Z 1000 <> 0) by discriminate.
  destruct (get_portfolio_stats floor_sqrt true sample_history sample_info
              sample_portfolio)
    as [[[[initial_value [drift|]] [volatility|]] dividend_yield]|e] eqn:Hrun;
    try (vm_compute in Hrun; discriminate).
  assert (E1 : initial_value = Qc_of_Z 1000).
  { vm_compute in Hrun. injection Hrun as <- _ _ _.
    apply Qc_is_canon. reflexivity. }
  assert (E2 : dividend_yield = Q2Qc (59 # 1000)).
  { vm_compute in Hrun. injection Hrun as _ _ _ <-.
    apply Qc_is_canon. reflexivity. }
  subst initial_value dividend_yield.
  destruct (simulation_page_succeeds floor_sqrt true sample_history
              sample_info sample_portfolio linear_pow sample_draws
              (Qc_of_Z 1000) drift volatility (Q2Qc (59 # 1000))
              (Sidebar 1 (Qc_of_Z 100) 3 true) 0 Hnd Hrun Hiv)
    as (paths & divs & summary & Hpage & _ & _ & _ & _ & L50 & _);
    [simpl; lia|simpl; lia|].
  exists drift, volatility, paths, divs, summary.
  split; [reflexivity|]. split; [exact Hpage | exact L50].
Defined.

(** The percentile of a single value is that value. *)
Lemma np_percentile_singleton (x : Qc) (q : Z) :
  (0 <= q <= 100)%Z -> np_percentile [x] (Qc_of_Z q) = Ok (Some x).
Proof.
  intros Hq. unfold np_percentile.
  rewrite decide_True by (by apply percent_in_range).
  change (merge_sort Qcle [x]) with [x]. cbn [length Nat.sub].
  change (Qc_of_Z (Z.of_nat 0)) with (Qc_of_Z 0).
  rewrite Z2Qc_inj_0, Qcmult_0_l. unfold linear_quantile.
  change (Qfloor 0%Qc) with 0%Z. rewrite Z2Qc_inj_0. simpl.
  do 2 f_equal. unfold lerp. ring.
Qed.

(** X8.  With a single simulation the distribution is degenerate: the
    pessimistic, median and optimistic scenarios all equal the final value
    of that one path, and each band equals the path itself on every
    day. *)
Theorem single_simulation_scenarios_coincide pow normal initial_value drift
    volatility dividend_yield years monthly_contribution reinvest rng0 :
  initial_value <> 0 -> (0 <= years)%Z ->
  let ui := Sidebar years monthly_contribution 1 reinvest in
  let nd := Z.to_nat (years * 252) in
  exists paths divs summary rng1,
    simulation_button pow normal
      (initial_value, drift, volatility, dividend_yield) ui rng0
      = Ok (PageResults initial_value paths divs summary, rng1) /\
    (exists final_value,
       get_item paths nd 0 = Some final_value /\
       p10 summary = Some final_value /\
       p50 summary = Some final_value /\
       p90 summary = Some final_value) /\
    forall d, (d <= nd)%nat ->
      exists value,
        get_item paths d 0 = Some value /\
        p10_path summary !! d = Some (Some value) /\
        p50_path summary !! d = Some (Some value) /\
        p90_path summary !! d = Some (Some value).
Proof.
  intros Hne Hy ui nd.
  destruct (run_state_entries pow normal initial_value drift volatility
              dividend_yield years monthly_contribution 1 reinvest rng0 Hy)
    as (s & Hrun & Hrng & Hp & Hd & _); [lia|].
  change (Z.to_nat (num_days years)) with nd in *.
  change (Z.to_nat 1) with 1%nat in *.
  destruct (last_row_shape _ _ _ Hp) as (final_results & Hlast & Hl & Hlen).
  destruct (last_row_shape _ _ _ Hd) as (final_divs & Hlastd & _ & Hlend).
  assert (Hone : forall row, length row = 1%nat -> exists x : Qc, row = [x]).
  { intros [|x [|y row]] H; simpl in H; try lia. eauto. }
  destruct (Hone _ Hlen) as [final_value ->].
  assert (Hrows : forall row, row ∈ all_paths s -> row <> [])
    by (eapply shape_rows_nonempty; [exact Hp | lia]).
  destruct (np_percentile_axis1_total (all_paths s) 10 Hrows)
    as (y10 & H10 & L10); [lia|].
  destruct (np_percentile_axis1_total (all_paths s) 50 Hrows)
    as (y50 & H50 & L50); [lia|].
  destruct (np_percentile_axis1_total (all_paths s) 90 Hrows)
    as (y90 & H90 & L90); [lia|].
  exists (all_paths s), (accumulated_dividends s).
  eexists _, _. split_and!.
  - unfold simulation_button. rewrite decide_False by done.
    unfold ui. cbn [projection_years_option monthly_contribution_option
                    num_simulations_option reinvest_dividends_option].
    rewrite Hrun. cbn -[np_percentile np_percentile_axis1 np_mean last_row].
    rewrite Hlast, Hlastd.
    cbn -[np_percentile np_percentile_axis1 np_mean].
    rewrite !np_percentile_singleton by lia.
    cbn -[np_percentile_axis1 np_mean].
    rewrite H10, H50, H90. reflexivity.
  - exists final_value. simpl. unfold get_item. rewrite Hl. auto.
  - intros d Hdn.
    destruct (lookup_lt_is_Some_2 (all_paths s) d) as [row Hrow];
      [rewrite (proj1 Hp); lia|].
    destruct (Hone row (proj2 Hp _ _ Hrow)) as [value ->].
    exists value. simpl. unfold get_item. rewrite Hrow. split; [done|].
    destruct (map_result_lookup _ _ _ _ _ H10 Hrow) as (a & La & Ea).
    destruct (map_result_lookup _ _ _ _ _ H50 Hrow) as (b & Lb & Eb).
    destruct (map_result_lookup _ _ _ _ _ H90 Hrow) as (c & Lc & Ec).
    rewrite np_percentile_singleton in Ea, Eb, Ec by lia.
    injection Ea as <-. injection Eb as <-. injection Ec as <-. auto.
Qed.

Lemma single_simulation_scenarios_coincide_witness :
  Qc_of_Z 1000 <> 0 /\ (0 <= 1)%Z /\
  exists paths divs summary rng1 final_value,
    simulation_button linear_pow sample_draws
      (Qc_of_Z 1000, 0, 1 / Qc_of_Z 100, Qc_of_Z 6 / Qc_of_Z 100)
      (Sidebar 1 (Qc_of_Z 100) 1 true) 0
      = Ok (PageResults (Qc_of_Z 1000) paths divs summary, rng1) /\
    get_item paths 252 0 = Some final_value /\
    p10 summary = Some final_value /\
    p90 summary = Some final_value.
Proof.
  assert (H : Qc_of_Z 1000 <> 0) by discriminate.
  split; [exact H|]. split; [lia|].
  destruct (single_simulation_scenarios_coincide linear_pow sample_draws
              (Qc_of_Z 1000) 0 (1 / Qc_of_Z 100) (Qc_of_Z 6 / Qc_of_Z 100)
              1 (Qc_of_Z 100) true 0 H)
    as (paths & divs & summary & rng1 & Hpage
        & (v & Hv & H10 & _ & H90) & _); [lia|].
  exists paths, divs, summary, rng1, v. auto.
Defined.

(** X9.  A percentile never leaves the range of the data: if every
    simulated value lies between [m] and [M], so does each scenario and
    each band value computed from them. *)
Theorem percentile_within_data_range (a : list Qc) (q v m M : Qc) :
  np_percentile a q = Ok (Some v) ->
  (forall x, x ∈ a -> m <= x /\ x <= M) ->
  m <= v /\ v <= M.
Proof.
  unfold np_percentile. intros Hv Hrange.
  destruct (decide (0 <= q /\ q <= Qc_of_Z 100)) as [[Hq0 Hq1]|];
    [|discriminate].
  pose proof (StronglySorted_merge_sort Qcle a) as Hs.
  pose proof (merge_sort_Permutation Qcle a) as Hperm.
  destruct (merge_sort Qcle a) as [|x0 s] eqn:E; [discriminate|].
  injection Hv as <-. set (arr := x0 :: s) in *.
  assert (Hin : forall k, (k < length arr)%nat ->
            m <= nth k arr x0 /\ nth k arr x0 <= M).
  { intros k Hk. apply Hrange. rewrite <-Hperm.
    apply list_elem_of_In, nth_In, Hk. }
  destruct (virtual_index_bounds (length arr - 1) q q Hq0 (Qcle_refl _) Hq1)
    as (Hlo & _ & Hhi).
  unfold linear_quantile.
  set (h := Qc_of_Z (Z.of_nat (length arr - 1)) * (q / Qc_of_Z 100)) in *.
  pose proof (floor_nonneg h Hlo) as K0.
  pose proof (floor_bounded h _ Hhi) as K1.
  pose proof (floor_below h) as B. pose proof (floor_above h) as A.
  rewrite Z2Qc_inj_add, Z2Qc_inj_1 in A.
  assert (Hlen : (0 < length arr)%nat) by (simpl; lia).
  set (k := Qfloor h) in *.
  assert (G0 : 0 <= h - Qc_of_Z k).
  { clearbody k h. clear -B. generalize dependent (Qc_of_Z k).
    intros c B. qc2q. lra. }
  assert (G1 : h - Qc_of_Z k <= 1).
  { apply Qclt_le_weak in A. clearbody k h. clear -A.
    generalize dependent (Qc_of_Z k). intros c A. qc2q. lra. }
  assert (Hord : nth (Z.to_nat k) arr x0
                 <= nth (Nat.min (Z.to_nat k + 1) (length arr - 1)) arr x0)
    by (apply sorted_nth; [done|lia|lia]).
  destruct (Hin (Z.to_nat k)) as [Hm _]; [lia|].
  destruct (Hin (Nat.min (Z.to_nat k + 1) (length arr - 1))) as [_ HM];
    [lia|].
  split.
  - eapply Qcle_trans; [exact Hm|]. by apply lerp_lower.
  - eapply Qcle_trans; [|exact HM]. by apply lerp_upper.
Qed.

Lemma percentile_within_data_range_witness :
  np_percentile [Qc_of_Z 5; Qc_of_Z 1; Qc_of_Z 3; Qc_of_Z 10] (Qc_of_Z 10)
    = Ok (Some (Q2Qc (8 # 5))) /\
  (forall x, x ∈ [Qc_of_Z 5; Qc_of_Z 1; Qc_of_Z 3; Qc_of_Z 10] ->
     Qc_of_Z 1 <= x /\ x <= Qc_of_Z 10) /\
  Qc_of_Z 1 <= Q2Qc (8 # 5) /\ Q2Qc (8 # 5) <= Qc_of_Z 10.
Proof.
  assert (H1 : np_percentile [Qc_of_Z 5; Qc_of_Z 1; Qc_of_Z 3; Qc_of_Z 10]
                 (Qc_of_Z 10) = Ok (Some (Q2Qc (8 # 5)))).
  { vm_compute. do 2 f_equal; try (apply Qc_is_canon; reflexivity). }
  assert (H2 : forall x,
            x ∈ [Qc_of_Z 5; Qc_of_Z 1; Qc_of_Z 3; Qc_of_Z 10] ->
            Qc_of_Z 1 <= x /\ x <= Qc_of_Z 10).
  { intros x Hx.
    repeat (apply elem_of_cons in Hx as [->|Hx];
            [split; discriminate|]).
    by apply elem_of_nil in Hx. }
  split; [exact H1|]. split; [exact H2|].
  exact (percentile_within_data_range _ _ _ _ _ H1 H2).
Defined.

(** * Further properties of the statistics estimator *)

Lemma ticker_suffix_round_trip_lemma (ticker : string) :
  has_dot ticker = false ->
  str_remove ".SA" (ticker +:+ ".SA") = ticker.
Proof.
  intros H. unfold str_remove.
  induction ticker as [|c t IH]; [reflexivity|].
  simpl in H. apply orb_false_iff in H as [Hc Ht].
  change (String c t +:+ ".SA") with (String c (t +:+ ".SA")).
  cbn [str_remove_from].
  replace (String.prefix ".SA" (String c (t +:+ ".SA"))) with false.
  - f_equal. by apply IH.
  - symmetry.
    change (String.prefix ".SA" (String c (t +:+ ".SA")))
      with (if ascii_dec "."%char c
            then String.prefix "SA" (t +:+ ".SA") else false).
    destruct (ascii_dec "."%char c) as [<-|]; [|reflexivity].
    discriminate Hc.
Qed.

(** X12.  When no holding has a quote in the last row of the history the
    estimator returns the all-zero result, without looking up any
    yield. *)
Theorem no_quotes_gives_zero_stats sqrt pad yf_download yf_info p_df :
  (forall h, h ∈ p_df ->
     default ∅ (last (rows (yf_download (tickers_of p_df))))
       !! (Ativo h +:+ ".SA") = None) ->
  get_portfolio_stats sqrt pad yf_download yf_info p_df
  = Ok (0, Some 0, Some 0, 0).
Proof.
  intros Hnone. unfold get_portfolio_stats.
  destruct p_df as [|h0 p_df'] eqn:Ep; [reflexivity|].
  rewrite <-Ep in *. clear Ep h0 p_df'.
  destruct (frame_empty _); [reflexivity|].
  set (latest := default ∅ _) in *.
  assert (Hpriced : with_price latest p_df = []).
  { clearbody latest. unfold with_price.
    induction p_df as [|h p_df IH]; [reflexivity|].
    simpl. rewrite (Hnone h) by constructor. simpl.
    apply IH. intros h' Hh'. apply Hnone. by constructor. }
  rewrite Hpriced. by rewrite decide_True.
Qed.

Lemma no_quotes_gives_zero_stats_witness :
  (forall h, h ∈ unquoted_portfolio ->
     default ∅ (last (rows (sample_history (tickers_of unquoted_portfolio))))
       !! (Ativo h +:+ ".SA") = None) /\
  get_portfolio_stats floor_sqrt true sample_history sample_info
    unquoted_portfolio = Ok (0, Some 0, Some 0, 0).
Proof.
  assert (H : forall h, h ∈ unquoted_portfolio ->
     default ∅ (last (rows (sample_history (tickers_of unquoted_portfolio))))
       !! (Ativo h +:+ ".SA") = None).
  { intros h ->%list_elem_of_singleton. reflexivity. }
  split; [exact H|].
  exact (no_quotes_gives_zero_stats floor_sqrt true sample_history
           sample_info unquoted_portfolio H).
Defined.

(** ** The weight found back for a ticker *)

(** The rows of [with_weights], with the total as a parameter. *)
Lemma with_weights_unfold priced :
  with_weights priced
  = map (fun hp : holding * Qc =>
           Valued hp.1 hp.2 (Quantidade hp.1 * hp.2)
             (Quantidade hp.1 * hp.2 / total_value priced))
        priced.
Proof. reflexivity. Qed.

Lemma peso_of_absent (T : Qc) latest_prices p_df ativo :
  ativo ∉ map Ativo p_df ->
  peso_of (map (fun hp : holding * Qc =>
                  Valued hp.1 hp.2 (Quantidade hp.1 * hp.2)
                    (Quantidade hp.1 * hp.2 / T))
             (with_price latest_prices p_df)) ativo
  = Raise IndexError.
Proof.
  unfold peso_of, with_price.
  induction p_df as [|h p_df IH]; intros Hnot; [reflexivity|].
  apply not_elem_of_cons in Hnot as [Hne Hnot]. simpl.
  destruct (latest_prices !! _) as [price|]; simpl; [|by apply IH].
  rewrite filter_cons_False by (simpl; congruence). by apply IH.
Qed.

Lemma peso_of_holding (T : Qc) latest_prices p_df h :
  NoDup (map Ativo p_df) -> h ∈ p_df ->
  peso_of (map (fun hp : holding * Qc =>
                  Valued hp.1 hp.2 (Quantidade hp.1 * hp.2)
                    (Quantidade hp.1 * hp.2 / T))
             (with_price latest_prices p_df)) (Ativo h)
  = match latest_prices !! (Ativo h +:+ ".SA") with
    | Some price => Ok (Quantidade h * price / T)
    | None => Raise IndexError
    end.
Proof.
  induction p_df as [|h0 p_df IH]; intros Hnd Hin;
    [by apply elem_of_nil in Hin|].
  simpl in Hnd. apply NoDup_cons in Hnd as [Hfresh Hnd].
  apply elem_of_cons in Hin as [->|Hin].
  - unfold with_price. simpl.
    destruct (latest_prices !! _) as [price|]; simpl.
    + unfold peso_of. by rewrite filter_cons_True.
    + by apply (peso_of_absent T latest_prices).
  - assert (Hne : Ativo h0 <> Ativo h).
    { intros E. apply Hfresh. rewrite E.
      apply list_elem_of_fmap. eauto. }
    rewrite <-(IH Hnd Hin). unfold with_price. simpl.
    destruct (latest_prices !! (Ativo h0 +:+ ".SA")) as [price|]; simpl;
      [|reflexivity].
    unfold peso_of. by rewrite filter_cons_False.
Qed.

(** X10.  Round trip of the ticker: the estimator asks for quotes under
    [ticker + '.SA'] and looks the weight up again under
    [ticker_sa.replace('.SA', '')].  For unique tickers without a full
    stop the second undoes the first, and the weight found is the one of
    that very holding, its value over the total; a holding without a quote
    gives [IndexError]. *)
Theorem ticker_round_trip_finds_weight latest_prices p_df h :
  NoDup (map Ativo p_df) -> h ∈ p_df -> has_dot (Ativo h) = false ->
  str_remove ".SA" (Ativo h +:+ ".SA") = Ativo h /\
  peso_of (with_weights (with_price latest_prices p_df))
    (str_remove ".SA" (Ativo h +:+ ".SA"))
  = match latest_prices !! (Ativo h +:+ ".SA") with
    | Some price =>
        Ok (Quantidade h * price
            / total_value (with_price latest_prices p_df))
    | None => Raise IndexError
    end.
Proof.
  intros Hnd Hin Hdot.
  pose proof (ticker_suffix_round_trip_lemma _ Hdot) as Hrt.
  split; [exact Hrt|]. rewrite Hrt, with_weights_unfold.
  by apply peso_of_holding.
Qed.

Lemma ticker_round_trip_finds_weight_witness :
  NoDup (map Ativo sample_portfolio) /\
  Holding "VALE3" (Qc_of_Z 7) (Qc_of_Z 60) ∈ sample_portfolio /\
  has_dot "VALE3" = false /\
  peso_of (with_weights (with_price (sample_prices 100 100) sample_portfolio))
    (str_remove ".SA" ("VALE3" +:+ ".SA"))
  = Ok (Q2Qc (7 # 10)).
Proof.
  assert (Hnd : NoDup (map Ativo sample_portfolio)).
  { apply (bool_decide_eq_true_1 _ (Decision0 := NoDup_dec _)).
    reflexivity. }
  assert (Hin : Holding "VALE3" (Qc_of_Z 7) (Qc_of_Z 60) ∈ sample_portfolio)
    by (unfold sample_portfolio; set_solver).
  split; [exact Hnd|]. split; [exact Hin|]. split; [reflexivity|].
  destruct (ticker_round_trip_finds_weight (sample_prices 100 100)
              sample_portfolio _ Hnd Hin eq_refl) as [_ H].
  cbn [Ativo Quantidade] in H. rewrite H.
  change (sample_prices 100 100 !! ("VALE3" +:+ ".SA"))
    with (Some (Qc_of_Z 100)).
  f_equal. apply Qc_is_canon. vm_compute. reflexivity.
Defined.

(** What the yield loop returns when it returns. *)
Lemma yield_loop_sum yf_info (weighted : list valued) tickers acc total :
  for_each (yield_body yf_info weighted) tickers acc = Ok total ->
  total
  = acc + sum_list
            (map (fun t =>
                    normalised_yield (yf_info t)
                    * match peso_of weighted (str_remove ".SA" t) with
                      | Ok peso_ativo => peso_ativo
                      | Raise _ => 0
                      end)
                 tickers).
Proof.
  revert acc. induction tickers as [|t tickers IH]; intros acc;
    cbn [for_each map].
  - intros [= <-]. unfold sum_list. simpl. ring.
  - intros H. apply bind_Ok in H as (acc' & Hbody & Hrest).
    rewrite (IH _ Hrest). unfold sum_list. cbn [map foldr].
    assert (acc' = acc
              + normalised_yield (yf_info t)
                * match peso_of weighted (str_remove ".SA" t) with
                  | Ok peso_ativo => peso_ativo
                  | Raise _ => 0
                  end) as ->;
      [|ring].
    unfold yield_body, yield_term, normalised_yield in *.
    destruct (yf_info t) as [info|e]; simpl in Hbody.
    + destruct (peso_of weighted _) as [peso|e]; simpl in Hbody.
      * by injection Hbody as <-.
      * destruct e; try discriminate; injection Hbody as <-; ring.
    + destruct e; try discriminate; injection Hbody as <-; ring.
Qed.

(** A sum over the holdings, a holding without a quote counting for
    nothing, is the sum over the rows that [with_price] keeps. *)
Lemma sum_over_quoted (f : holding -> Qc) (T : Qc) (latest_prices : series)
    (p_df : list holding) :
  sum_list
    (map (fun h =>
            f h * match latest_prices !! (Ativo h +:+ ".SA") with
                  | Some price => Quantidade h * price / T
                  | None => 0
                  end)
         p_df)
  = sum_list
      (map (fun v => f (asset v) * Peso v)
         (map (fun hp : holding * Qc =>
                 Valued hp.1 hp.2 (Quantidade hp.1 * hp.2)
                   (Quantidade hp.1 * hp.2 / T))
            (with_price latest_prices p_df))).
Proof.
  unfold with_price, sum_list.
  induction p_df as [|h p_df IH]; [reflexivity|].
  cbn [map foldr]. rewrite IH. clear IH.
  change (omap ?g (h :: p_df))
    with (match g h with
          | Some y => y :: omap g p_df
          | None => omap g p_df
          end).
  cbv beta.
  destruct (latest_prices !! (Ativo h +:+ ".SA")) as [price|];
    cbn [mbind option_bind map foldr asset Peso fst snd]; ring.
Qed.

(** X11.  For unique tickers without a full stop the blended dividend
    yield is the weighted sum over the holdings that have a quote: each
    contributes its yield (read as a percentage when above 1, zero when
    its lookup fails) times its weight, and a holding without a quote
    contributes nothing. *)
Theorem blended_yield_over_quoted_holdings sqrt pad yf_download yf_info
    p_df initial_value drift volatility total_yield :
  NoDup (map Ativo p_df) ->
  (forall h, h ∈ p_df -> has_dot (Ativo h) = false) ->
  get_portfolio_stats sqrt pad yf_download yf_info p_df
    = Ok (initial_value, drift, volatility, total_yield) ->
  initial_value <> 0 ->
  let latest_prices :=
    default ∅ (last (rows (yf_download (tickers_of p_df)))) in
  total_yield
  = sum_list
      (map (fun v =>
              normalised_yield (yf_info (Ativo (asset v) +:+ ".SA")) * Peso v)
           (with_weights (with_price latest_prices p_df))).
Proof.
  intros Hnd Hdots Hrun Hne. cbv zeta.
  unfold get_portfolio_stats in Hrun.
  destruct p_df as [|h0 p_df'] eqn:Ep; [by injection Hrun as <-|].
  rewrite <-Ep in *. clear Ep h0 p_df'.
  destruct (frame_empty _); [by injection Hrun as <-|].
  destruct (decide (total_value _ = 0)); [by injection Hrun as <-|].
  apply bind_Ok in Hrun as (y & Hloop & Hrun).
  injection Hrun as _ _ _ <-.
  apply yield_loop_sum in Hloop. rewrite Hloop, Qcplus_0_l.
  set (latest := default ∅ _) in *. clearbody latest.
  rewrite with_weights_unfold.
  generalize (total_value (with_price latest p_df)). intros T.
  unfold tickers_of. rewrite map_map.
  transitivity
    (sum_list
       (map (fun h =>
               normalised_yield (yf_info (Ativo h +:+ ".SA"))
               * match latest !! (Ativo h +:+ ".SA") with
                 | Some price => Quantidade h * price / T
                 | None => 0
                 end)
            p_df)).
  - f_equal. apply map_ext_in. intros h Hh%list_elem_of_In.
    rewrite (ticker_suffix_round_trip_lemma _ (Hdots h Hh)).
    rewrite (peso_of_holding T latest p_df h Hnd Hh).
    by destruct (latest !! _).
  - apply (sum_over_quoted
             (fun h => normalised_yield (yf_info (Ativo h +:+ ".SA")))).
Qed.

Lemma blended_yield_over_quoted_holdings_witness :
  NoDup (map Ativo sample_portfolio) /\
  (forall h, h ∈ sample_portfolio -> has_dot (Ativo h) = false) /\
  exists initial_value drift volatility total_yield,
    get_portfolio_stats floor_sqrt true sample_history sample_info
      sample_portfolio
      = Ok (initial_value, drift, volatility, total_yield) /\
    initial_value <> 0 /\
    total_yield
    = sum_list
        (map (fun v =>
                normalised_yield (sample_info (Ativo (asset v) +:+ ".SA"))
                * Peso v)
           (with_weights
              (with_price (sample_prices 100 100) sample_portfolio))).
Proof.
  assert (Hnd : NoDup (map Ativo sample_portfolio)).
  { apply (bool_decide_eq_true_1 _ (Decision0 := NoDup_dec _)).
    reflexivity. }
  assert (Hdots : forall h, h ∈ sample_portfolio ->
                            has_dot (Ativo h) = false).
  { intros h Hh. unfold sample_portfolio in Hh.
    repeat (apply elem_of_cons in Hh as [->|Hh]; [reflexivity|]).
    by apply elem_of_nil in Hh. }
  split; [exact Hnd|]. split; [exact Hdots|].
  destruct (get_portfolio_stats floor_sqrt true sample_history sample_info
              sample_portfolio)
    as [[[[initial_value drift] volatility] total_yield]|e] eqn:Hrun;
    [|vm_compute in Hrun; discriminate].
  assert (Hne : initial_value <> 0).
  { vm_compute in Hrun. injection Hrun as <- _ _ _. discriminate. }
  exists initial_value, drift, volatility, total_yield.
  split; [reflexivity|]. split; [exact Hne|].
  exact (blended_yield_over_quoted_holdings floor_sqrt true sample_history
           sample_info sample_portfolio initial_value drift volatility
           total_yield Hnd Hdots Hrun Hne).
Defined.

(** * The portfolio page *)

Lemma add_asset_form_valid ticker quantity price portfolio :
  ticker <> "" -> quantity <> 0 -> price <> 0 ->
  add_asset_form true ticker quantity price portfolio
  = if bool_decide (ticker ∈ map Ativo portfolio) then
      map (fun h => if decide (Ativo h = ticker)
                    then Holding (Ativo h) quantity price else h)
          portfolio
    else portfolio ++ [Holding ticker quantity price].
Proof.
  intros Ht Hq Hp. unfold add_asset_form.
  rewrite (bool_decide_eq_true_2 (ticker <> "")) by done.
  rewrite (bool_decide_eq_true_2 (quantity <> 0)) by done.
  rewrite (bool_decide_eq_true_2 (price <> 0)) by done.
  reflexivity.
Qed.

Lemma update_keeps_tickers ticker quantity price (portfolio : list holding) :
  map Ativo
    (map (fun h => if decide (Ativo h = ticker)
                   then Holding (Ativo h) quantity price else h)
         portfolio)
  = map Ativo portfolio.
Proof.
  rewrite map_map. apply map_ext. intros h. by destruct (decide _).
Qed.

(** X13.  The sidebar keeps tickers unique: if no two rows of the
    portfolio carry the same ticker, the same holds after the add/update
    form, whatever is submitted, and after the removal of any asset. *)
Theorem sidebar_keeps_tickers_unique add_button ticker quantity price
    asset_to_remove portfolio :
  NoDup (map Ativo portfolio) ->
  NoDup (map Ativo (add_asset_form add_button ticker quantity price
                      portfolio)) /\
  NoDup (map Ativo (remove_asset asset_to_remove portfolio)).
Proof.
  intros Hnd. split.
  - unfold add_asset_form. destruct (_ && _); [|done].
    destruct (bool_decide _) eqn:E.
    + by rewrite update_keeps_tickers.
    + apply bool_decide_eq_false_1 in E.
      rewrite map_app. simpl. apply NoDup_app. split; [done|].
      split; [|apply NoDup_singleton].
      intros a Ha ->%list_elem_of_singleton. done.
  - unfold remove_asset. eapply sublist_NoDup; [exact Hnd|].
    apply fmap_sublist, sublist_filter.
Qed.

Lemma sidebar_keeps_tickers_unique_witness :
  NoDup (map Ativo sample_portfolio) /\
  NoDup (map Ativo (add_asset_form true "VALE3" (Qc_of_Z 9) (Qc_of_Z 61)
                      sample_portfolio)) /\
  NoDup (map Ativo (remove_asset "PETR4" sample_portfolio)).
Proof.
  assert (Hnd : NoDup (map Ativo sample_portfolio)).
  { apply (bool_decide_eq_true_1 _ (Decision0 := NoDup_dec _)).
    reflexivity. }
  split; [exact Hnd|].
  exact (sidebar_keeps_tickers_unique true "VALE3" (Qc_of_Z 9) (Qc_of_Z 61)
           "PETR4" sample_portfolio Hnd).
Defined.

Lemma filter_other_tickers_update ticker quantity price
    (portfolio : list holding) :
  filter (fun h => Ativo h <> ticker)
    (map (fun h => if decide (Ativo h = ticker)
                   then Holding (Ativo h) quantity price else h)
         portfolio)
  = filter (fun h => Ativo h <> ticker) portfolio.
Proof.
  induction portfolio as [|h portfolio IH]; [reflexivity|].
  cbn [map]. destruct (decide (Ativo h = ticker)) as [E|E].
  - rewrite !filter_cons_False by (simpl; intros H; by apply H). exact IH.
  - rewrite !filter_cons_True by done. by rewrite IH.
Qed.

Lemma filter_ticker_absent ticker (portfolio : list holding) :
  ticker ∉ map Ativo portfolio ->
  filter (fun h => Ativo h = ticker) portfolio = [] /\
  filter (fun h => Ativo h <> ticker) portfolio = portfolio.
Proof.
  induction portfolio as [|h portfolio IH]; intros Hnot; [done|].
  cbn [map] in Hnot. apply not_elem_of_cons in Hnot as [Hne Hnot].
  destruct (IH Hnot) as [IH1 IH2].
  rewrite filter_cons_False by congruence.
  rewrite filter_cons_True by congruence.
  by rewrite IH1, IH2.
Qed.

Lemma filter_ticker_update ticker quantity price (portfolio : list holding) :
  NoDup (map Ativo portfolio) -> ticker ∈ map Ativo portfolio ->
  filter (fun h => Ativo h = ticker)
    (map (fun h => if decide (Ativo h = ticker)
                   then Holding (Ativo h) quantity price else h)
         portfolio)
  = [Holding ticker quantity price].
Proof.
  induction portfolio as [|h portfolio IH]; intros Hnd Hin;
    [by apply elem_of_nil in Hin|].
  cbn [map] in *. apply NoDup_cons in Hnd as [Hfresh Hnd].
  destruct (decide (Ativo h = ticker)) as [E|E].
  - rewrite filter_cons_True by done. rewrite E. f_equal.
    rewrite E in Hfresh.
    assert (Hsame : map (fun h => if decide (Ativo h = ticker)
                           then Holding (Ativo h) quantity price else h)
                      portfolio = portfolio).
    { clear -Hfresh. induction portfolio as [|h' portfolio IH];
        [reflexivity|].
      cbn [map] in *. apply not_elem_of_cons in Hfresh as [Hne Hfresh].
      rewrite decide_False by congruence. by rewrite IH. }
    rewrite Hsame. by apply filter_ticker_absent.
  - rewrite filter_cons_False by done.
    apply elem_of_cons in Hin as [Hin|Hin]; [congruence|]. by apply IH.
Qed.

(** X14.  After a valid submission of the add/update form (a ticker, a
    non-zero quantity and price) on a portfolio with unique tickers, the
    portfolio has exactly one row for that ticker, with the quantity and
    price submitted; the rows of the other tickers are what they were, in
    the same order; and the portfolio has grown by one row if the ticker
    is new and not at all if it was there. *)
Theorem submitted_asset_is_recorded ticker quantity price portfolio :
  ticker <> "" -> quantity <> 0 -> price <> 0 ->
  NoDup (map Ativo portfolio) ->
  let updated := add_asset_form true ticker quantity price portfolio in
  filter (fun h => Ativo h = ticker) updated
    = [Holding ticker quantity price] /\
  filter (fun h => Ativo h <> ticker) updated
    = filter (fun h => Ativo h <> ticker) portfolio /\
  length updated
    = (if bool_decide (ticker ∈ map Ativo portfolio)
       then length portfolio else S (length portfolio)).
Proof.
  intros Ht Hq Hp Hnd updated. unfold updated.
  rewrite add_asset_form_valid by done.
  destruct (bool_decide (ticker ∈ map Ativo portfolio)) eqn:E.
  - apply bool_decide_eq_true_1 in E. split_and!.
    + by apply filter_ticker_update.
    + apply filter_other_tickers_update.
    + apply length_map.
  - apply bool_decide_eq_false_1 in E.
    destruct (filter_ticker_absent ticker portfolio E) as [E1 E2].
    rewrite !filter_app, E1, E2. split_and!.
    + by rewrite filter_cons_True.
    + rewrite filter_cons_False by (simpl; intros H; by apply H).
      by rewrite app_nil_r.
    + rewrite length_app. simpl. lia.
Qed.

Lemma submitted_asset_is_recorded_witness :
  "VALE3" <> "" /\ Qc_of_Z 9 <> 0 /\ Qc_of_Z 61 <> 0 /\
  NoDup (map Ativo sample_portfolio) /\
  filter (fun h => Ativo h = "VALE3")
    (add_asset_form true "VALE3" (Qc_of_Z 9) (Qc_of_Z 61) sample_portfolio)
  = [Holding "VALE3" (Qc_of_Z 9) (Qc_of_Z 61)].
Proof.
  assert (Hnd : NoDup (map Ativo sample_portfolio)).
  { apply (bool_decide_eq_true_1 _ (Decision0 := NoDup_dec _)).
    reflexivity. }
  assert (H1 : "VALE3" <> "") by discriminate.
  assert (H2 : Qc_of_Z 9 <> 0) by discriminate.
  assert (H3 : Qc_of_Z 61 <> 0) by discriminate.
  split; [exact H1|]. split; [exact H2|]. split; [exact H3|].
  split; [exact Hnd|].
  exact (proj1 (submitted_asset_is_recorded "VALE3" (Qc_of_Z 9) (Qc_of_Z 61)
                  sample_portfolio H1 H2 H3 Hnd)).
Defined.

(** X15.  Removal and the round trip with addition: after the removal
    of an asset no row carries its ticker and the other rows are kept as
    they were; and adding an asset whose ticker is new, then removing it,
    gives back the portfolio unchanged. *)
Theorem add_then_remove_restores ticker quantity price portfolio :
  ticker <> "" -> quantity <> 0 -> price <> 0 ->
  ticker ∉ map Ativo portfolio ->
  remove_asset ticker (add_asset_form true ticker quantity price portfolio)
    = portfolio /\
  forall asset_to_remove,
    (asset_to_remove ∉ map Ativo (remove_asset asset_to_remove portfolio)) /\
    forall h, h ∈ remove_asset asset_to_remove portfolio
              <-> h ∈ portfolio /\ Ativo h <> asset_to_remove.
Proof.
  intros Ht Hq Hp Hfresh. split.
  - rewrite add_asset_form_valid by done.
    rewrite bool_decide_eq_false_2 by done.
    unfold remove_asset. rewrite filter_app.
    rewrite (proj2 (filter_ticker_absent ticker portfolio Hfresh)).
    rewrite filter_cons_False by (simpl; intros H; by apply H).
    by rewrite app_nil_r.
  - intros a. unfold remove_asset. split.
    + intros (h & Ha & Hh)%list_elem_of_fmap.
      apply list_elem_of_filter in Hh as [Hne _]. by apply Hne.
    + intros h. rewrite list_elem_of_filter. tauto.
Qed.

Lemma add_then_remove_restores_witness :
  "ITUB4" <> "" /\ Qc_of_Z 9 <> 0 /\ Qc_of_Z 61 <> 0 /\
  ("ITUB4" ∉ map Ativo sample_portfolio) /\
  remove_asset "ITUB4"
    (add_asset_form true "ITUB4" (Qc_of_Z 9) (Qc_of_Z 61) sample_portfolio)
  = sample_portfolio.
Proof.
  assert (H1 : "ITUB4" <> "") by discriminate.
  assert (H2 : Qc_of_Z 9 <> 0) by discriminate.
  assert (H3 : Qc_of_Z 61 <> 0) by discriminate.
  assert (H4 : "ITUB4" ∉ map Ativo sample_portfolio).
  { apply (bool_decide_eq_true_1 _ (Decision0 := _)). reflexivity. }
  split; [exact H1|]. split; [exact H2|]. split; [exact H3|].
  split; [exact H4|].
  exact (proj1 (add_then_remove_restores "ITUB4" (Qc_of_Z 9) (Qc_of_Z 61)
                  sample_portfolio H1 H2 H3 H4)).
Defined.

(** * The fixed-income page *)

Lemma Qcpower_S (q : Qc) n : q ^ S n = q * q ^ n.
Proof. reflexivity. Qed.



Lemma month_loop (r v0 : Qc) n :
  foldl (month_body r) ([v0], v0) (range 0 n)
  = (map (fun k => v0 * (1 + r) ^ k) (seq 0 (S n)), v0 * (1 + r) ^ n).
Proof.
  induction n as [|n IH].
  - unfold range. cbn [seq map foldl Nat.sub Qcpower].
    by rewrite Qcmult_1_r.
  - change (S n) with (0 + S n)%nat at 1. rewrite range_snoc.
    rewrite foldl_app. cbn [Nat.add]. rewrite IH.
    cbn [foldl]. unfold month_body. cbn [fst snd].
    rewrite (seq_S (S n)), map_app. cbn [map Nat.add].
    rewrite Qcpower_S.
    assert (E : v0 * (1 + r) ^ n * (1 + r) = v0 * ((1 + r) * (1 + r) ^ n))
      by ring.
    by rewrite E.
Qed.

Lemma last_map_seq {A} (f : nat -> A) n :
  last (map f (seq 0 (S n))) = Some (f n).
Proof. rewrite seq_S, map_app. cbn [map Nat.add]. apply last_snoc. Qed.

Lemma calculate_cdi_return_eq pow initial_value period_months cdi_rate_percent
    investment_yield_percent :
  let r := cdi_monthly_rate pow cdi_rate_percent investment_yield_percent in
  let n := Z.to_nat period_months in
  calculate_cdi_return pow initial_value period_months cdi_rate_percent
    investment_yield_percent
  = Ok (initial_value * (1 + r) ^ n,
        initial_value * (1 + r) ^ n - initial_value,
        map (fun k => initial_value * (1 + r) ^ k) (seq 0 (S n))).
Proof.
  intros r n. unfold calculate_cdi_return. fold r. fold n.
  rewrite month_loop. cbn [fst]. rewrite last_map_seq. reflexivity.
Qed.

(** X16.  The fixed-income calculator never fails and compounds monthly:
    for every input the history it returns holds, at month [k] of
    [0 .. period_months], the initial value times [(1 + monthly_rate)^k];
    the final value is the last of them and the interest is the final
    value less the initial one.  The history has one entry more than
    there are months and starts at the initial value; a negative period
    counts as zero months. *)
Theorem cdi_history_compounds_monthly pow initial_value period_months
    cdi_rate_percent investment_yield_percent :
  let r := cdi_monthly_rate pow cdi_rate_percent investment_yield_percent in
  let n := Z.to_nat period_months in
  let value_history :=
    map (fun k => initial_value * (1 + r) ^ k) (seq 0 (S n)) in
  calculate_cdi_return pow initial_value period_months cdi_rate_percent
    investment_yield_percent
  = Ok (initial_value * (1 + r) ^ n,
        initial_value * (1 + r) ^ n - initial_value,
        value_history) /\
  length value_history = S n /\
  value_history !! 0%nat = Some initial_value /\
  last value_history = Some (initial_value * (1 + r) ^ n).
Proof.
  intros r n value_history. split; [apply calculate_cdi_return_eq|].
  unfold value_history. split; [by rewrite length_map, length_seq|].
  split; [|apply (last_map_seq (fun k => initial_value * (1 + r) ^ k))].
  cbn [seq map lookup list_lookup Qcpower]. by rewrite Qcmult_1_r.
Qed.

Lemma cdi_monthly_rate_collapse pow cdi_rate_percent investment_yield_percent :
  1 + cdi_rate_percent / Qc_of_Z 100 * (investment_yield_percent / Qc_of_Z 100)
    <= 0 ->
  cdi_monthly_rate pow cdi_rate_percent investment_yield_percent = - (1).
Proof.
  intros H. unfold cdi_monthly_rate. cbv zeta.
  destruct (decide _) as [Hpos|_]; [|reflexivity].
  exfalso. exact (Qcle_not_lt _ _ H Hpos).
Qed.

Lemma cdi_monthly_rate_root pow cdi_rate_percent investment_yield_percent :
  0 < 1 + cdi_rate_percent / Qc_of_Z 100
          * (investment_yield_percent / Qc_of_Z 100) ->
  1 + cdi_monthly_rate pow cdi_rate_percent investment_yield_percent
  = pow (1 + cdi_rate_percent / Qc_of_Z 100
               * (investment_yield_percent / Qc_of_Z 100))
        (1 / Qc_of_Z 12).
Proof.
  intros H. unfold cdi_monthly_rate. cbv zeta.
  destruct (decide _) as [_|Hn]; [ring|contradiction].
Qed.

Lemma zero_powers (v : Qc) a n :
  map (fun k => v * (1 + - (1)) ^ k) (seq (S a) n) = replicate n 0.
Proof.
  revert a. induction n as [|n IH]; intros a; [reflexivity|].
  cbn [seq map replicate]. rewrite IH, Qcpower_S. f_equal. ring.
Qed.

(** X17.  When the yearly growth factor [1 + cdi * yield] is not positive
    the calculator takes the monthly rate [-1], whatever the power
    function: over a period of at least one month the investment is worth
    nothing from the first month on, the final value is zero and the
    interest reported is the whole initial value, lost. *)
Theorem nonpositive_growth_factor_wipes_out pow initial_value period_months
    cdi_rate_percent investment_yield_percent :
  1 + cdi_rate_percent / Qc_of_Z 100 * (investment_yield_percent / Qc_of_Z 100)
    <= 0 ->
  (1 <= period_months)%Z ->
  calculate_cdi_return pow initial_value period_months cdi_rate_percent
    investment_yield_percent
  = Ok (0, - initial_value,
        initial_value :: replicate (Z.to_nat period_months) 0).
Proof.
  intros Hneg Hp. rewrite calculate_cdi_return_eq. cbv zeta.
  rewrite cdi_monthly_rate_collapse by exact Hneg.
  destruct (Z.to_nat period_months) as [|n] eqn:En; [lia|].
  cbn [seq map]. change (seq 1 (S n)) with (seq (S 0) (S n)).
  rewrite zero_powers. rewrite !Qcpower_S. cbn [Qcpower].
  assert (E0 : initial_value * ((1 + - (1)) * (1 + - (1)) ^ n) = 0) by ring.
  assert (E1 : (0 : Qc) - initial_value = - initial_value) by ring.
  assert (E2 : initial_value * 1 = initial_value) by ring.
  assert (E3 : initial_value * ((1 + - (1)) * 1) = 0) by ring.
  by rewrite E0, E1, E2, E3.
Qed.

Lemma nonpositive_growth_factor_wipes_out_witness :
  calculate_cdi_return linear_pow (Qc_of_Z 7000) 3 (Qc_of_Z (-200))
    (Qc_of_Z 100)
  = Ok (0, - Qc_of_Z 7000, [Qc_of_Z 7000; 0; 0; 0]).
Proof.
  apply (nonpositive_growth_factor_wipes_out linear_pow (Qc_of_Z 7000) 3
           (Qc_of_Z (-200)) (Qc_of_Z 100)).
  - unfold Qcle. vm_compute. discriminate.
  - lia.
Defined.






Lemma Qcpower_ge_1 (g : Qc) n : 1 <= g -> 1 <= g ^ n.
Proof.
  intros Hg. induction n as [|n IH]; [cbn; unfold Qcle; cbn; lra|].
  rewrite Qcpower_S. generalize dependent (g ^ n). intros p Hp.
  qc2q. nra.
Qed.

Lemma Qc_le_mul_ge_1 (c g : Qc) : 0 <= c -> 1 <= g -> c <= c * g.
Proof. intros. qc2q. nra. Qed.

Lemma sorted_map_seq (f : nat -> Qc) a n :
  (forall k, f k <= f (S k)) -> Sorted Qcle (map f (seq a n)).
Proof.
  intros Hf. revert a. induction n as [|n IH]; intros a; [constructor|].
  cbn [seq map]. constructor; [apply IH|].
  destruct n; cbn [seq map]; constructor. apply Hf.
Qed.

(** X19.  With the inputs the form allows (a non-negative amount, rate
    and percentage of the CDI) and a power function that maps numbers
    from 1 upwards to numbers from 1 upwards, the projected value never
    decreases from one month to the next, the final value is at least
    the amount invested and the interest is not negative. *)
Theorem cdi_projection_never_decreases pow initial_value period_months
    cdi_rate_percent investment_yield_percent :
  0 <= initial_value -> 0 <= cdi_rate_percent ->
  0 <= investment_yield_percent ->
  (forall x, 1 <= x -> 1 <= pow x (1 / Qc_of_Z 12)) ->
  exists final_value total_interest value_history,
    calculate_cdi_return pow initial_value period_months cdi_rate_percent
      investment_yield_percent
    = Ok (final_value, total_interest, value_history) /\
    Sorted Qcle value_history /\
    initial_value <= final_value /\ 0 <= total_interest.
Proof.
  intros Hv Hc Hy Hpow. rewrite calculate_cdi_return_eq. cbv zeta.
  set (eff := cdi_rate_percent / Qc_of_Z 100
              * (investment_yield_percent / Qc_of_Z 100)).
  assert (Heff : 0 <= eff).
  { unfold eff. apply Qc_mul_nonneg.
    - clear -Hc. change (cdi_rate_percent / Qc_of_Z 100)
        with (cdi_rate_percent * / Qc_of_Z 100).
      apply Qc_mul_nonneg; [exact Hc|]. unfold Qcle. vm_compute. discriminate.
    - clear -Hy. change (investment_yield_percent / Qc_of_Z 100)
        with (investment_yield_percent * / Qc_of_Z 100).
      apply Qc_mul_nonneg; [exact Hy|]. unfold Qcle. vm_compute. discriminate. }
  assert (H1 : 1 <= 1 + eff) by (clear -Heff; qc2q; lra).
  assert (Hpos : 0 < 1 + eff) by (clear -Heff; qc2q; lra).
  assert (Hg : 1 <= 1 + cdi_monthly_rate pow cdi_rate_percent
                         investment_yield_percent).
  { rewrite (cdi_monthly_rate_root pow _ _ Hpos). by apply Hpow. }
  generalize dependent (1 + cdi_monthly_rate pow cdi_rate_percent
                              investment_yield_percent).
  intros g Hg. clear Hpow H1 Hpos Heff eff Hc Hy.
  assert (Hn : forall n, initial_value <= initial_value * g ^ n).
  { intros n. by apply Qc_le_mul_ge_1, Qcpower_ge_1. }
  do 3 eexists. split; [reflexivity|]. split; [|split].
  - apply (sorted_map_seq (fun k => initial_value * g ^ k)). intros k.
    rewrite Qcpower_S.
    replace (initial_value * (g * g ^ k)) with (initial_value * g ^ k * g)
      by ring.
    apply Qc_le_mul_ge_1; [|exact Hg].
    exact (Qcle_trans _ _ _ Hv (Hn k)).
  - apply Hn.
  - specialize (Hn (Z.to_nat period_months)).
    generalize dependent (initial_value * g ^ Z.to_nat period_months).
    intros f Hf. clear -Hf. qc2q. lra.
Qed.

Lemma linear_pow_twelfth_ge_1 x :
  1 <= x -> 1 <= linear_pow x (1 / Qc_of_Z 12).
Proof.
  intros Hx. unfold linear_pow.
  assert (E : 1 / Qc_of_Z 12 = Q2Qc (1 # 12))
    by (apply Qc_is_canon; vm_compute; reflexivity).
  rewrite E. clear E. qc2q. lra.
Qed.

Lemma cdi_projection_never_decreases_witness :
  exists final_value total_interest value_history,
    calculate_cdi_return linear_pow (Qc_of_Z 7000) 24 (Qc_of_Z 15)
      (Qc_of_Z 102)
    = Ok (final_value, total_interest, value_history) /\
    Sorted Qcle value_history /\
    Qc_of_Z 7000 <= final_value /\ 0 <= total_interest.
Proof.
  apply (cdi_projection_never_decreases linear_pow (Qc_of_Z 7000) 24
           (Qc_of_Z 15) (Qc_of_Z 102)).
  - unfold Qcle. vm_compute. discriminate.
  - unfold Qcle. vm_compute. discriminate.
  - unfold Qcle. vm_compute. discriminate.
  - exact linear_pow_twelfth_ge_1.
Defined.

(** * The dividends page *)

Lemma map_result_Forall2 {A B} (f : A -> result B) xs ys :
  map_result f xs = Ok ys -> Forall2 (fun x y => f x = Ok y) xs ys.
Proof.
  revert ys. induction xs as [|x xs IH]; intros ys H; cbn in H.
  - injection H as <-. constructor.
  - destruct (f x) as [y|e] eqn:Ex; [|discriminate]. cbn in H.
    destruct (map_result f xs) as [ys'|e] eqn:Exs; [|discriminate].
    cbn in H. injection H as <-. constructor; [exact Ex|by apply IH].
Qed.

Lemma sum_list_cons (x : Qc) xs : sum_list (x :: xs) = x + sum_list xs.
Proof. reflexivity. Qed.

Lemma total_invested_pos (portfolio_df : list holding) :
  portfolio_df <> [] ->
  Forall (fun h => 0 < custo_total h) portfolio_df ->
  0 < total_invested portfolio_df.
Proof.
  intros Hne Hpos. unfold total_invested.
  destruct portfolio_df as [|h0 rest]; [done|]. clear Hne.
  apply Forall_cons in Hpos as [H0 Hrest]. cbn [map]. rewrite sum_list_cons.
  assert (Hs : 0 <= sum_list (map custo_total rest)).
  { clear -Hrest. induction Hrest as [|h rest Hh _ IH];
      [cbn; unfold Qcle; cbn; lra|].
    cbn [map]. rewrite sum_list_cons. apply Qc_add_nonneg; [|exact IH].
    by apply Qclt_le_weak. }
  generalize dependent (sum_list (map custo_total rest)).
  generalize dependent (custo_total h0). intros c Hc s Hs.
  clear -Hc Hs. qc2q. lra.
Qed.

Lemma dividend_row_of_yoc yf_ticker h d :
  dividend_row_of yf_ticker h = Ok d -> 0 < custo_total h ->
  div_Ativo d = Ativo h /\
  Yield_on_Cost d * custo_total h = Projecao_Anual d.
Proof.
  unfold dividend_row_of. cbv zeta. intros H Hpos.
  destruct (get_advanced_dividend_info yf_ticker (Ativo h)) as [fetched|e];
    [|discriminate].
  cbn in H. injection H as <-. cbn [div_Ativo Yield_on_Cost Projecao_Anual].
  split; [reflexivity|]. fold (custo_total h).
  rewrite decide_True by exact Hpos.
  rewrite Qcmult_comm. apply Qcmult_div_r.
  intros E. rewrite E in Hpos. exact (Qclt_not_eq _ _ Hpos eq_refl).
Qed.

Lemma dividend_rows_aligned yf_ticker portfolio_df div_df :
  dividend_data yf_ticker portfolio_df = Ok div_df ->
  Forall (fun h => 0 < custo_total h) portfolio_df ->
  Forall2 (fun h d => div_Ativo d = Ativo h /\
                      Yield_on_Cost d * custo_total h = Projecao_Anual d)
          portfolio_df div_df.
Proof.
  intros H%map_result_Forall2 Hpos.
  induction H as [|h d pf df Hd _ IH]; [constructor|].
  apply Forall_cons in Hpos as [Hh Hpos].
  constructor; [by eapply dividend_row_of_yoc|by apply IH].
Qed.

Lemma weighted_sum_over_total (T : Qc) portfolio_df div_df :
  Forall2 (fun h d => div_Ativo d = Ativo h /\
                      Yield_on_Cost d * custo_total h = Projecao_Anual d)
          portfolio_df div_df ->
  sum_list (zip_with (fun h d => custo_total h / T * Yield_on_Cost d)
                     portfolio_df div_df)
  = total_projected_dividends div_df / T.
Proof.
  unfold total_projected_dividends.
  induction 1 as [|h d pf df [_ Hd] _ IH].
  - cbn. unfold Qcdiv. ring.
  - cbn [zip_with map]. rewrite !sum_list_cons, IH, <- Hd.
    unfold Qcdiv. ring.
Qed.

(** X20.  The "Yield on Cost Médio" of the dividends page is the average
    of the assets' projected yields on cost, each weighted by the share of
    the money invested that went into the asset, when the page's loop
    over the portfolio completes and every position has a positive cost
    (quantity times average price); [div_df] then has one row for each
    row of the portfolio. *)
Theorem overall_yoc_is_cost_weighted_mean yf_ticker portfolio_df div_df :
  dividend_data yf_ticker portfolio_df = Ok div_df ->
  portfolio_df <> [] ->
  Forall (fun h => 0 < custo_total h) portfolio_df ->
  length div_df = length portfolio_df /\
  overall_yoc div_df portfolio_df
  = sum_list (zip_with (fun h d => custo_total h / total_invested portfolio_df
                                   * Yield_on_Cost d)
                       portfolio_df div_df).
Proof.
  intros Hdata Hne Hpos.
  pose proof (dividend_rows_aligned _ _ _ Hdata Hpos) as Hal.
  split; [symmetry; by eapply Forall2_length|].
  rewrite (weighted_sum_over_total _ _ _ Hal).
  unfold overall_yoc. by rewrite decide_True by by apply total_invested_pos.
Qed.

Lemma sample_portfolio_costs :
  Forall (fun h => 0 < custo_total h) sample_portfolio.
Proof. repeat constructor. Qed.

Lemma overall_yoc_is_cost_weighted_mean_witness :
  exists div_df,
    dividend_data sample_dividends sample_portfolio = Ok div_df /\
    length div_df = length sample_portfolio /\
    overall_yoc div_df sample_portfolio
    = sum_list (zip_with
                  (fun h d => custo_total h / total_invested sample_portfolio
                              * Yield_on_Cost d)
                  sample_portfolio div_df).
Proof.
  eexists. split; [vm_compute; reflexivity|].
  apply (overall_yoc_is_cost_weighted_mean sample_dividends sample_portfolio).
  - vm_compute. reflexivity.
  - discriminate.
  - exact sample_portfolio_costs.
Defined.

Lemma filter_ticker_rows a (portfolio_df : list holding)
    (div_df : list dividend_row) :
  Forall2 (fun h d => div_Ativo d = Ativo h) portfolio_df div_df ->
  a ∉ map Ativo portfolio_df ->
  filter (fun d => div_Ativo d = a) div_df = [].
Proof.
  induction 1 as [|h d pf df Hd _ IH]; intros Ha; [reflexivity|].
  cbn [map] in Ha. apply not_elem_of_cons in Ha as [Hne Ha].
  rewrite filter_cons_False by congruence. by apply IH.
Qed.

Lemma merge_rows_one_to_one (div_all : list dividend_row)
    (portfolio_df : list holding) (div_df : list dividend_row) :
  Forall2 (fun h d => filter (fun d' => div_Ativo d' = Ativo h) div_all = [d])
          portfolio_df div_df ->
  (portfolio_df ≫= fun h =>
     filter (fun d => div_Ativo d = Ativo h) div_all ≫= fun d =>
       [(h, Dividend_Yield d)])
  = zip_with (fun h d => (h, Dividend_Yield d)) portfolio_df div_df.
Proof.
  induction 1 as [|h d pf df Hd _ IH]; [reflexivity|].
  cbn [zip_with]. rewrite bind_cons, Hd, IH. reflexivity.
Qed.

Lemma Forall2_strengthen {A B} (P P' : A -> B -> Prop) (Q : A -> Prop) l k :
  Forall2 P l k -> Forall Q l ->
  (forall x y, Q x -> P x y -> P' x y) -> Forall2 P' l k.
Proof.
  intros H HQ Himp. induction H as [|x y l k Hxy _ IH]; [constructor|].
  apply Forall_cons in HQ as [Hx HQ].
  constructor; [by apply Himp|by apply IH].
Qed.

Lemma unique_ticker_rows (portfolio_df : list holding)
    (div_df : list dividend_row) :
  Forall2 (fun h d => div_Ativo d = Ativo h) portfolio_df div_df ->
  NoDup (map Ativo portfolio_df) ->
  Forall2 (fun h d => filter (fun d' => div_Ativo d' = Ativo h) div_df = [d])
          portfolio_df div_df.
Proof.
  induction 1 as [|h d pf df Hd Hal IH]; intros Hnd; [constructor|].
  cbn [map] in Hnd. apply NoDup_cons in Hnd as [Hfresh Hnd].
  constructor.
  - rewrite filter_cons_True by exact Hd.
    by rewrite (filter_ticker_rows (Ativo h) pf df Hal Hfresh).
  - specialize (IH Hnd).
    assert (Hother : Forall (fun h' => Ativo h' <> Ativo h) pf).
    { apply Forall_forall. intros h' Hin E. apply Hfresh. rewrite <- E.
      by apply list_elem_of_fmap_2. }
    apply (Forall2_strengthen _ _ _ _ _ IH Hother).
    intros h' d' Hne Hf. rewrite filter_cons_False by congruence. exact Hf.
Qed.

Lemma weighted_mean_bounds (m M : Qc) (portfolio_df : list holding)
    (div_df : list dividend_row) :
  Forall (fun h => 0 < custo_total h) portfolio_df ->
  Forall (fun d => m <= Dividend_Yield d <= M) div_df ->
  let s := sum_list (map (fun r : holding * Qc => r.2 * custo_total r.1)
                         (zip_with (fun h d => (h, Dividend_Yield d))
                                   portfolio_df div_df)) in
  length div_df = length portfolio_df ->
  m * total_invested portfolio_df <= s <= M * total_invested portfolio_df.
Proof.
  intros Hpos Hb s. subst s. unfold total_invested.
  revert div_df Hb. induction Hpos as [|h pf Hh _ IH]; intros div_df Hb Hlen.
  - destruct div_df; [|discriminate]. cbn.
    assert (E0 : m * 0 = 0) by ring. assert (E1 : M * 0 = 0) by ring.
    rewrite E0, E1. split; apply Qcle_refl.
  - destruct div_df as [|d df]; [discriminate|].
    apply Forall_cons in Hb as [[Hm HM] Hb].
    injection Hlen as Hlen. specialize (IH df Hb Hlen).
    cbn [zip_with map fst snd]. rewrite !sum_list_cons.
    destruct IH as [IHm IHM].
    generalize dependent (sum_list (map custo_total pf)). intros T.
    generalize dependent
      (sum_list (map (fun r : holding * Qc => r.2 * custo_total r.1)
                     (zip_with (fun h d => (h, Dividend_Yield d)) pf df))).
    intros s. generalize dependent (custo_total h). intros c.
    generalize dependent (Dividend_Yield d). intros y.
    clear. intros Hm HM Hc IHm IHM. qc2q. nra.
Qed.

Lemma Qc_div_bounds (m M s T : Qc) :
  0 < T -> m * T <= s <= M * T -> m <= s / T <= M.
Proof.
  intros HT [Hm HM]. split; qc2q; cbn [Qcinv this Q2Qc];
    rewrite ?Qred_correct.
  - apply Qle_shift_div_l; assumption.
  - apply Qle_shift_div_r; assumption.
Qed.

(** X21.  The "Dividend Yield Médio" of the dividends page is a weighted
    average in the proper sense when the tickers of the portfolio are
    distinct and every position has a positive cost: the merge of the
    portfolio with [div_df] pairs each row with its own yield only, and
    the figure shown lies between the smallest and the largest current
    yield of the assets. *)
Theorem weighted_dy_between_extreme_yields yf_ticker portfolio_df div_df m M :
  dividend_data yf_ticker portfolio_df = Ok div_df ->
  portfolio_df <> [] ->
  NoDup (map Ativo portfolio_df) ->
  Forall (fun h => 0 < custo_total h) portfolio_df ->
  Forall (fun d => m <= Dividend_Yield d <= M) div_df ->
  merge_on_Ativo portfolio_df div_df
    = zip_with (fun h d => (h, Dividend_Yield d)) portfolio_df div_df /\
  m <= weighted_dy div_df portfolio_df <= M.
Proof.
  intros Hdata Hne Hnd Hpos Hb.
  pose proof (dividend_rows_aligned _ _ _ Hdata Hpos) as Hal.
  assert (Hkeys : Forall2 (fun h d => div_Ativo d = Ativo h)
                          portfolio_df div_df).
  { eapply Forall2_impl; [exact Hal|]. by intros h d [E _]. }
  assert (Hmerge : merge_on_Ativo portfolio_df div_df
            = zip_with (fun h d => (h, Dividend_Yield d)) portfolio_df div_df).
  { apply merge_rows_one_to_one. by apply unique_ticker_rows. }
  split; [exact Hmerge|].
  unfold weighted_dy. cbv zeta. rewrite Hmerge.
  pose proof (total_invested_pos _ Hne Hpos) as HT.
  rewrite decide_True by exact HT.
  apply Qc_div_bounds; [exact HT|].
  apply weighted_mean_bounds; [exact Hpos|exact Hb|].
  symmetry. by eapply Forall2_length.
Qed.

Lemma weighted_dy_between_extreme_yields_witness :
  exists div_df,
    dividend_data sample_dividends sample_portfolio = Ok div_df /\
    0 <= weighted_dy div_df sample_portfolio <= Q2Qc (8 # 100).
Proof.
  eexists. split; [vm_compute; reflexivity|].
  refine (proj2 (weighted_dy_between_extreme_yields sample_dividends
                   sample_portfolio _ 0 (Q2Qc (8 # 100)) _ _ _ _ _)).
  - vm_compute. reflexivity.
  - discriminate.
  - apply (bool_decide_eq_true_1 _ (Decision0 := NoDup_dec _)). reflexivity.
  - exact sample_portfolio_costs.
  - repeat (constructor; [split; unfold Qcle; vm_compute; discriminate|]).
    constructor.
Defined.

Lemma substring_whole s : String.substring 0 (String.length s) s = s.
Proof. induction s as [|c s IH]; [reflexivity|]. cbn. by rewrite IH. Qed.

Lemma substring_app_suffix t s :
  String.substring (String.length t) (String.length s) (t +:+ s) = s.
Proof.
  induction t as [|c t IH]; [apply substring_whole|]. exact IH.
Qed.

Lemma endswith_app t s : endswith (t +:+ s) s = true.
Proof.
  unfold endswith. rewrite string_length_app.
  rewrite (proj2 (Nat.leb_le _ _)) by lia.
  replace (String.length t + String.length s - String.length s)%nat
    with (String.length t) by lia.
  rewrite substring_app_suffix. by rewrite bool_decide_eq_true_2.
Qed.

(** X22.  The dividends page adds the exchange suffix at most once: the
    symbol it queries for a ticker always ends in [.SA], it is the ticker
    itself or the ticker with the suffix, and looking the symbol up again
    queries the same symbol; so a portfolio row written [PETR4.SA] and one
    written [PETR4] fetch the same data. *)
Theorem dividend_lookup_adds_suffix_once yf_ticker ticker :
  exists symbol,
    get_advanced_dividend_info yf_ticker ticker = yf_ticker symbol /\
    endswith symbol ".SA" = true /\
    (symbol = ticker \/ symbol = ticker +:+ ".SA") /\
    get_advanced_dividend_info yf_ticker symbol = yf_ticker symbol /\
    get_advanced_dividend_info yf_ticker (ticker +:+ ".SA")
      = yf_ticker (ticker +:+ ".SA").
Proof.
  assert (Hsfx : forall t,
             get_advanced_dividend_info yf_ticker (t +:+ ".SA")
             = yf_ticker (t +:+ ".SA")).
  { intros t. unfold get_advanced_dividend_info. by rewrite endswith_app. }
  unfold get_advanced_dividend_info at 1.
  destruct (endswith ticker ".SA") eqn:E.
  - exists ticker. split_and!; [reflexivity|exact E|by left| |apply Hsfx].
    unfold get_advanced_dividend_info. by rewrite E.
  - exists (ticker +:+ ".SA").
    split_and!; [reflexivity|apply endswith_app|by right|apply Hsfx..].
Qed.

(** * The history page *)

Lemma cumprod_from_scale (c : Qc) a :
  c <> 0 ->
  map (fun v => v / c) (cumprod_from c a) = cumprod_from 1 a.
Proof.
  intros Hc. assert (H : forall k, map (fun v => v / c) (cumprod_from (k * c) a)
                               = cumprod_from k a).
  { induction a as [|x a IH]; intros k; [reflexivity|].
    cbn [cumprod_from map]. 
    assert (E : k * c * x = k * x * c) by ring. rewrite E, IH. f_equal.
    unfold Qcdiv. rewrite <- Qcmult_assoc, Qcmult_inv_r by exact Hc. ring. }
  specialize (H 1). by rewrite Qcmult_1_l in H.
Qed.

Lemma zip_with_scaled (c0 i0 : Qc) (xs ys : list Qc) :
  zip_with (fun c i => (c / c0, i / i0)) xs ys
  = zip (map (fun v => v / c0) xs) (map (fun v => v / i0) ys).
Proof.
  revert ys. induction xs as [|x xs IH]; intros [|y ys]; try reflexivity.
  cbn [map zip zip_with]. f_equal. apply IH.
Qed.

(** X23.  The accumulated performance drawn against the IBOV starts at 1
    for both series, and the return of the first day plays no part in
    it: the later rows are the running products of [1 + return] over the
    days after the first.  This needs the first day not to be a total
    loss ([1 + return] non-zero) in either series. *)
Theorem accumulated_performance_starts_at_one (first : Qc * Qc)
    (later : list (Qc * Qc)) :
  1 + first.1 <> 0 -> 1 + first.2 <> 0 ->
  desempenho_acumulado (first :: later)
  = Ok ((1, 1) :: zip (cumprod_from 1 (map (fun r => 1 + r.1) later))
                      (cumprod_from 1 (map (fun r => 1 + r.2) later))).
Proof.
  intros Hc Hi. unfold desempenho_acumulado. cbn [map cumprod zip_with].
  rewrite <- (cumprod_from_scale _ (map (fun r => 1 + r.1) later) Hc).
  rewrite <- (cumprod_from_scale _ (map (fun r => 1 + r.2) later) Hi).
  rewrite <- zip_with_scaled.
  unfold Qcdiv at 1 2. rewrite !Qcmult_inv_r by assumption. reflexivity.
Qed.

Lemma accumulated_performance_starts_at_one_witness :
  desempenho_acumulado
    [ (Q2Qc (1 # 10), - Q2Qc (1 # 10)); (Q2Qc (1 # 10), 0) ]
  = Ok [ (1, 1); (Q2Qc (11 # 10), 1) ].
Proof.
  rewrite (accumulated_performance_starts_at_one
             (Q2Qc (1 # 10), - Q2Qc (1 # 10)) [ (Q2Qc (1 # 10), 0) ]).
  - cbn [map zip zip_with cumprod_from fst snd].
    do 3 f_equal; f_equal; apply Qc_is_canon; vm_compute; reflexivity.
  - discriminate.
  - discriminate.
Defined.
